(** * ts-dom-helper: a shallow embedding of [src/index.ts] and [interpolate]

    The library is a thin layer over a browser: its functions read and
    write the document, start interval timers and create promises.  The
    embedding keeps that shape.  A [World] holds the document (a tree of
    node identities and a store of per-node data), the table of running
    interval timers, the table of promises and a log of the host events
    that the properties speak about.  Library functions are computations
    in a state-and-exception monad over [World]; a JavaScript [number] is
    an IEEE 754 binary64 value (Rocq's primitive [float]), and a string
    stands for the bytes of its UTF-8 encoding.  Event listeners and the
    ready state of the document live in a [Page] around the world.

    What the browser itself provides (selector matching, the HTML fragment
    parser, the global object) is gathered in the class [Host]; a small
    concrete host serves for the worked examples.

    Modelled: [find], [findAll], [get], [elementMap], [hide], [show],
    [fadeIn], [fadeOut] with their interval callbacks, [htmlToElement],
    [loadTemplate], [interpolate], [ready], [addEventListener] and
    [removeEventListener].  [create] hands its arguments to the host
    unchanged and is left out.

    The properties of the fades rest on the arithmetic of binary64
    numbers; where a property holds for a whole range of numbers it is
    proved through the real values of the numbers and a bound on the
    rounding error of each operation. *)

From Stdlib Require Import ZArith Lia Bool Ascii String List.
From Stdlib Require Import Uint63 Floats FloatAxioms SpecFloat.
From Stdlib Require Import Rbase Rfunctions Lra.
From stdpp Require Import base option list gmap strings pretty.

Set Warnings "-inexact-float,-register-all".
Local Open Scope string_scope.
Local Open Scope list_scope.

(** ** JavaScript completions *)

(** The exceptions the modelled code can raise.  [Error] is the class the
    library throws itself ([throw new Error(..)]); the others are raised by
    the host. *)
Inductive JsError : Type :=
| Error (message : string)
| SyntaxError (detail : string)
| ReferenceError (name : string)
| InvalidCharacterError (name : string).

Inductive Completion (A : Type) : Type :=
| Return (a : A)
| Throw (e : JsError).
Arguments Return {A} a.
Arguments Throw {A} e.

(** ** Numbers *)

(** [x || 0] on numbers: the falsy numbers are [NaN], [+0] and [-0]. *)
Definition or_zero (x : float) : float :=
  if PrimFloat.is_nan x || PrimFloat.is_zero x then 0%float else x.

(** JavaScript's [a > b] and [a < b] on numbers (false when either is NaN). *)
Definition js_gt (a b : float) : bool := PrimFloat.ltb b a.
Definition js_lt (a b : float) : bool := PrimFloat.ltb a b.

(** ** The document *)

Definition NodeId := positive.
Definition TimerId := positive.
Definition PromiseId := positive.

(** Per-node data.  [classList] is the ordered token set of the [class]
    attribute.  [style_opacity] is the text of [style.opacity], kept as
    the number that text denotes ([None]: empty or not a number), so that
    [String] and [parseFloat] below are the two directions of that
    reading; a fade reads it once, when it starts, and afterwards only
    writes it.  [attributes] are the remaining attributes and [innerHTML]
    the serialised content. *)
Record Element : Type := mkElement {
  tagName : string;
  idAttr : string;
  classList : list string;
  style_opacity : option float;
  attributes : list (string * string);
  innerHTML : string
}.

Inductive Tree : Type :=
| Node (id : NodeId) (children : list Tree).

Definition root (t : Tree) : NodeId := match t with Node n _ => n end.

(** The descendants of a node in tree order (preorder), the node itself
    excluded. *)
Fixpoint descendants (t : Tree) : list NodeId :=
  match t with
  | Node _ kids =>
      (fix walk (ks : list Tree) : list NodeId :=
         match ks with
         | [] => []
         | k :: ks' => (root k :: descendants k) ++ walk ks'
         end) kids
  end.

Record Document : Type := mkDocument {
  body : Tree;
  nodes : gmap NodeId Element
}.

(** ** DOMTokenList *)

Definition hidden_class : string := "d-none".

(** [classList.add(token)]: appended unless already present. *)
Definition classList_add (token : string) (l : list string) : list string :=
  if bool_decide (token ∈ l) then l else l ++ [token].

(** [classList.remove(token)]. *)
Definition classList_remove (token : string) (l : list string) : list string :=
  filter (λ c, c ≠ token) l.

Definition set_classList (f : list string → list string) (e : Element) : Element :=
  mkElement (tagName e) (idAttr e) (f (classList e)) (style_opacity e)
            (attributes e) (innerHTML e).

Definition set_style_opacity (v : option float) (e : Element) : Element :=
  mkElement (tagName e) (idAttr e) (classList e) v (attributes e) (innerHTML e).

(** [parseFloat(element.style.opacity)] and [String(opacity)]. *)
Definition parseFloat (text : option float) : float :=
  match text with Some x => x | None => PrimFloat.nan end.
Definition String_of_number (x : float) : option float := Some x.

(** ** Timers, promises and the world *)

Inductive FadeKind : Type := FadingIn | FadingOut.

(** The closure passed to [setInterval] by a fade: the captured element,
    the mutable local [opacity], the clamped [toOpacity] and the promise's
    [resolve]. *)
Record Handler : Type := mkHandler {
  h_kind : FadeKind;
  h_element : NodeId;
  h_opacity : float;
  h_toOpacity : float;
  h_resolve : PromiseId
}.

Record Interval : Type := mkInterval {
  handler : Handler;
  period : float
}.

Inductive PromiseState : Type := Pending | Fulfilled.

Inductive Event : Type :=
| EvTick (t : TimerId)            (* the host ran the interval's handler *)
| EvClearInterval (t : TimerId)   (* clearInterval(t) was called *)
| EvResolve (p : PromiseId)       (* resolve() of promise p was called *)
| EvCallback (n : NodeId).        (* a user callback was entered with node n *)

Record World : Type := mkWorld {
  document : Document;
  intervals : gmap TimerId Interval;
  next_timer : TimerId;
  promises : gmap PromiseId PromiseState;
  next_promise : PromiseId;
  log : list Event
}.

(** ** The monad of library code *)

Definition M (A : Type) : Type := World → Completion A * World.

#[global] Instance M_ret : MRet M := λ A a w, (Return a, w).
#[global] Instance M_bind : MBind M := λ A B f m w,
  match m w with
  | (Return a, w') => f a w'
  | (Throw e, w') => (Throw e, w')
  end.

Definition throw {A} (e : JsError) : M A := λ w, (Throw e, w).
Definition gets {A} (f : World → A) : M A := λ w, (Return (f w), w).
Definition modify (f : World → World) : M unit := λ w, (Return tt, f w).

Definition with_document (f : Document → Document) (w : World) : World :=
  mkWorld (f (document w)) (intervals w) (next_timer w) (promises w)
          (next_promise w) (log w).
Definition with_intervals (f : gmap TimerId Interval → gmap TimerId Interval)
    (w : World) : World :=
  mkWorld (document w) (f (intervals w)) (next_timer w) (promises w)
          (next_promise w) (log w).
Definition with_promises (f : gmap PromiseId PromiseState → gmap PromiseId PromiseState)
    (w : World) : World :=
  mkWorld (document w) (intervals w) (next_timer w) (f (promises w))
          (next_promise w) (log w).
Definition emit (e : Event) (w : World) : World :=
  mkWorld (document w) (intervals w) (next_timer w) (promises w)
          (next_promise w) (log w ++ [e]).

Definition update_node (n : NodeId) (f : Element → Element) (d : Document) : Document :=
  mkDocument (body d) (alter f n (nodes d)).

(** ** What the host provides *)

(** The JavaScript values that interpolation parameters carry in this
    development.  Numbers are restricted to the integers that binary64
    represents exactly; [VObject] stands for any object or function, whose
    conversions are not modelled. *)
Inductive Value : Type :=
| VUndefined
| VNull
| VBool (b : bool)
| VInt (z : Z)
| VString (s : string)
| VObject.

(** Parsed markup: what assigning [innerHTML] builds. *)
Inductive HtmlNode : Type :=
| HText (data : string)
| HElem (tag : string) (attrs : list (string * string)) (content : list HtmlNode).

(** The browser primitives the library calls.
    - [parse_selector] is the CSS selector parser ([None]: the text is not
      a selector; [querySelector] then throws a SyntaxError);
    - [selector_matches s d scope n] tells whether node [n] of document
      [d] matches [s] for a query rooted at [scope];
    - [parse_fragment context html] is the HTML fragment parser behind
      the [innerHTML] setter of an element named [context];
    - [valid_element_name] is the test [createElement] applies to its
      argument;
    - [global_object] lists the properties of the global object besides
      the immutable [undefined]. *)
Class Host : Type := {
  Selector : Type;
  parse_selector : string → option Selector;
  selector_matches : Selector → Document → Tree → NodeId → bool;
  parse_fragment : string → string → list HtmlNode;
  valid_element_name : string → bool;
  global_object : list (string * Value)
}.

(** The polymorphic [HTMLElements] argument, as the run-time tests of the
    library tell its values apart: an [Element], a string, an iterable of
    elements (array or [NodeList]), or anything else. *)
Inductive Elements : Type :=
| AnElement (el : NodeId)
| ASelector (selector : string)
| ACollection (items : list NodeId)
| Other.

Definition dquote : string := String "034"%char EmptyString.

Section Library.
Context `{host : Host}.

(** *** Query helpers *)

Definition querySelectorAll (selector : string) (fromElement : Tree) : M (list NodeId) :=
  match parse_selector selector with
  | None => throw (SyntaxError selector)
  | Some s =>
      gets (λ w, List.filter (selector_matches s (document w) fromElement)
                             (descendants fromElement))
  end.

Definition querySelector (selector : string) (fromElement : Tree) : M (option NodeId) :=
  matched ← querySelectorAll selector fromElement;
  mret (head matched).

(** The default argument [fromElement = document.body]. *)
Definition or_body (fromElement : option Tree) : M Tree :=
  match fromElement with
  | Some t => mret t
  | None => gets (λ w, body (document w))
  end.

Definition find (selector : string) (fromElement : option Tree) : M (option NodeId) :=
  scope ← or_body fromElement;
  querySelector selector scope.

Definition findAll (selector : string) (fromElement : option Tree) : M (list NodeId) :=
  scope ← or_body fromElement;
  querySelectorAll selector scope.

Definition not_found_message (selector : string) : string :=
  "The " +:+ dquote +:+ selector +:+ dquote +:+ " element was not found".

Definition get (selector : string) (fromElement : option Tree) : M NodeId :=
  element ← find selector fromElement;
  match element with
  | None => throw (Error (not_found_message selector))
  | Some el => mret el
  end.

(** *** elementMap *)

Definition isIterable (el : Elements) : bool :=
  match el with ACollection _ => true | _ => false end.

(** [for (const el of iterableElements) results.push(callback(el))]. *)
Fixpoint for_of {R} (iterableElements : list NodeId) (callback : NodeId → M R)
    (results : list R) : M (list R) :=
  match iterableElements with
  | [] => mret results
  | el :: rest =>
      r ← callback el;
      for_of rest callback (results ++ [r])
  end.

(** The elements an iterable yields. *)
Definition iterate (el : Elements) : list NodeId :=
  match el with ACollection items => items | _ => [] end.

Definition elementMap {R} (elements : Elements) (callback : NodeId → M R) : M (list R) :=
  match elements with
  | AnElement el =>
      r ← callback el;
      mret [r]
  | _ =>
      iterableElements ←
        match elements with
        | ASelector selector => findAll selector None
        | _ => if isIterable elements then mret (iterate elements) else mret []
        end;
      for_of iterableElements callback []
  end.

(** *** Visibility helpers *)

(** The [Element] branch of [hide] and [show]. *)
Definition hide_element (el : NodeId) : M unit :=
  modify (with_document (update_node el (set_classList (classList_add hidden_class)))).

Definition show_element (el : NodeId) : M unit :=
  modify (with_document (update_node el (set_classList (classList_remove hidden_class)))).

(** The callback [el => hide(el)] receives elements only, so the inner
    call takes the [Element] branch. *)
Definition hide (element : Elements) : M unit :=
  match element with
  | AnElement el => hide_element el
  | _ => _ ← elementMap element hide_element; mret tt
  end.

Definition show (element : Elements) : M unit :=
  match element with
  | AnElement el => show_element el
  | _ => _ ← elementMap element show_element; mret tt
  end.

(** *** Promises and interval timers *)

(** [new Promise(executor)]: a pending promise; the executor is the
    continuation of the caller. *)
Definition new_Promise : M PromiseId := λ w,
  let p := next_promise w in
  (Return p, mkWorld (document w) (intervals w) (next_timer w)
                     (<[p := Pending]> (promises w)) (Pos.succ p) (log w)).

(** [Promise.resolve()]. *)
Definition Promise_resolve : M PromiseId := λ w,
  let p := next_promise w in
  (Return p, mkWorld (document w) (intervals w) (next_timer w)
                     (<[p := Fulfilled]> (promises w)) (Pos.succ p) (log w)).

(** Calling the [resolve] function of promise [p]. *)
Definition resolve (p : PromiseId) : M unit :=
  modify (λ w, emit (EvResolve p) (with_promises (alter (λ _, Fulfilled) p) w)).

Definition setInterval (h : Handler) (delay : float) : M TimerId := λ w,
  let t := next_timer w in
  (Return t, mkWorld (document w) (<[t := mkInterval h delay]> (intervals w))
                     (Pos.succ t) (promises w) (next_promise w) (log w)).

Definition clearInterval (t : TimerId) : M unit :=
  modify (λ w, emit (EvClearInterval t) (with_intervals (delete t) w)).

(** Assignment to the closure's local [opacity]. *)
Definition set_tracked (x : float) (i : Interval) : Interval :=
  mkInterval (mkHandler (h_kind (handler i)) (h_element (handler i)) x
                        (h_toOpacity (handler i)) (h_resolve (handler i)))
             (period i).

Definition assign_opacity (t : TimerId) (x : float) : M unit :=
  modify (with_intervals (alter (set_tracked x) t)).

Definition read_style_opacity (el : NodeId) : M (option float) :=
  gets (λ w, e ← nodes (document w) !! el; style_opacity e).

Definition write_style_opacity (el : NodeId) (text : option float) : M unit :=
  modify (with_document (update_node el (set_style_opacity text))).

(** *** Fade animations *)

Definition clamp (toOpacity : float) : float :=
  let toOpacity := if js_gt toOpacity 1 then 1%float else toOpacity in
  if js_lt toOpacity 0 then 0%float else toOpacity.

Definition step_in (opacity : float) : float := ((opacity * 10) + 1) / 10.
Definition step_out (opacity : float) : float := ((opacity * 10) - 1) / 10.

(** The [Element] branch of [fadeIn]: lines 167 to 189. *)
Definition fadeIn_element (element : NodeId) (toOpacity delay : float) : M PromiseId :=
  text ← read_style_opacity element;
  let opacity := or_zero (parseFloat text) in
  let toOpacity := clamp toOpacity in
  p ← new_Promise;
  _ ← setInterval (mkHandler FadingIn element opacity toOpacity p) delay;
  mret p.

Definition fadeOut_element (element : NodeId) (toOpacity delay : float) : M PromiseId :=
  text ← read_style_opacity element;
  let opacity := or_zero (parseFloat text) in
  let toOpacity := clamp toOpacity in
  p ← new_Promise;
  _ ← setInterval (mkHandler FadingOut element opacity toOpacity p) delay;
  mret p.

(** [if (result.length) result.pop()]. *)
Definition pop_last {A} (result : list A) : list A :=
  if bool_decide (length result = 0%nat) then result else removelast result.

Definition fadeIn (element : Elements) (toOpacity delay : option float) : M PromiseId :=
  let toOpacity := default 1%float toOpacity in
  let delay := default 50%float delay in
  match element with
  | AnElement el => fadeIn_element el toOpacity delay
  | _ =>
      result ← elementMap element (λ el, fadeIn_element el toOpacity delay);
      let _ := pop_last result in
      Promise_resolve
  end.

Definition fadeOut (element : Elements) (toOpacity delay : option float) : M PromiseId :=
  let toOpacity := default 0%float toOpacity in
  let delay := default 50%float delay in
  match element with
  | AnElement el => fadeOut_element el toOpacity delay
  | _ =>
      result ← elementMap element (λ el, fadeOut_element el toOpacity delay);
      let _ := pop_last result in
      Promise_resolve
  end.

(** The interval callbacks: lines 173 to 188 and 207 to 219. *)
Definition fadeIn_tick (timerId : TimerId) (h : Handler) : M unit :=
  let opacity := step_in (h_opacity h) in
  _ ← assign_opacity timerId opacity;
  _ ← (if js_gt (h_toOpacity h) 0 then show (AnElement (h_element h)) else mret tt);
  if js_gt opacity (h_toOpacity h) then
    _ ← resolve (h_resolve h);
    clearInterval timerId
  else
    write_style_opacity (h_element h) (String_of_number opacity).

Definition fadeOut_tick (timerId : TimerId) (h : Handler) : M unit :=
  let opacity := step_out (h_opacity h) in
  _ ← assign_opacity timerId opacity;
  if js_lt opacity (h_toOpacity h) then
    _ ← resolve (h_resolve h);
    _ ← clearInterval timerId;
    hide (AnElement (h_element h))
  else
    write_style_opacity (h_element h) (String_of_number opacity).

(** *** The host's timer loop *)

Definition run_handler (t : TimerId) (h : Handler) : M unit :=
  match h_kind h with
  | FadingIn => fadeIn_tick t h
  | FadingOut => fadeOut_tick t h
  end.

(** The host runs the handler of interval [t] once; a cleared interval has
    no handler left to run. *)
Definition fire (t : TimerId) (w : World) : World :=
  match intervals w !! t with
  | Some i => snd (run_handler t (handler i) (emit (EvTick t) w))
  | None => w
  end.

Fixpoint fire_n (n : nat) (t : TimerId) (w : World) : World :=
  match n with
  | O => w
  | S k => fire_n k t (fire t w)
  end.

(** Any interleaving of interval firings. *)
Definition run_schedule (ts : list TimerId) (w : World) : World :=
  fold_left (λ w t, fire t w) ts w.

End Library.

(** ** Template interpolation *)

(** [interpolate] hands a source text to the host's [Function]
    constructor.  What the host does with it is modelled for a fragment of
    JavaScript: a body [return `...`;] whose template holds plain
    characters and substitutions built from identifiers, decimal integer
    literals and [+].  Outside that fragment the model gives [None]; it
    never guesses. *)

Definition Params := list (string * Value).

Inductive Expr : Type :=
| EId (name : string)
| ENum (z : Z)
| EAdd (a b : Expr).

Inductive Part : Type :=
| Chars (text : string)
| Subst (e : Expr).

Inductive Token : Type :=
| TId (name : string)
| TNum (z : Z)
| TPlus.

Definition is_digit (c : ascii) : bool :=
  (48 <=? nat_of_ascii c)%nat && (nat_of_ascii c <=? 57)%nat.

Definition is_id_start (c : ascii) : bool :=
  let n := nat_of_ascii c in
  ((65 <=? n)%nat && (n <=? 90)%nat) || ((97 <=? n)%nat && (n <=? 122)%nat)
  || (n =? 95)%nat || (n =? 36)%nat.

Definition is_id_part (c : ascii) : bool := is_id_start c || is_digit c.

Definition is_space (c : ascii) : bool :=
  let n := nat_of_ascii c in
  (n =? 32)%nat || (n =? 9)%nat || (n =? 10)%nat || (n =? 11)%nat || (n =? 12)%nat.

(** Words that are never identifiers. *)
Definition reserved_words : list string :=
  [ "break"; "case"; "catch"; "class"; "const"; "continue"; "debugger";
    "default"; "delete"; "do"; "else"; "enum"; "export"; "extends"; "false";
    "finally"; "for"; "function"; "if"; "import"; "in"; "instanceof"; "new";
    "null"; "return"; "super"; "switch"; "this"; "throw"; "true"; "try";
    "typeof"; "var"; "void"; "while"; "with" ].

(** Words whose reading depends on the context, and the function-local
    [arguments]: left outside the fragment. *)
Definition contextual_words : list string :=
  [ "let"; "static"; "yield"; "await"; "async"; "implements"; "interface";
    "package"; "private"; "protected"; "public"; "arguments"; "eval" ].

Definition is_reserved (s : string) : bool := bool_decide (s ∈ reserved_words).
Definition is_contextual (s : string) : bool := bool_decide (s ∈ contextual_words).

Fixpoint all_id_part (s : string) : bool :=
  match s with
  | EmptyString => true
  | String c s' => is_id_part c && all_id_part s'
  end.

(** The shape of an identifier name: [A-Za-z_$][A-Za-z0-9_$]*. *)
Definition is_identifier_name (s : string) : bool :=
  match s with
  | EmptyString => false
  | String c s' => is_id_start c && all_id_part s'
  end.

(** The integers a binary64 number holds exactly. *)
Definition safe_integer (z : Z) : bool := (Z.abs z <=? 9007199254740991)%Z.

Fixpoint digits_value (acc : Z) (s : string) : Z :=
  match s with
  | EmptyString => acc
  | String c s' => digits_value (10 * acc + Z.of_nat (nat_of_ascii c - 48)) s'
  end.

(** A decimal integer literal; a leading zero before further digits is the
    legacy octal form, left outside the fragment. *)
Definition number_literal (digits : string) : option Z :=
  match digits with
  | String "0" (String _ _) => None
  | _ => let z := digits_value 0 digits in
         if safe_integer z then Some z else None
  end.

(** The token being read: none, an identifier or a number (characters in
    reverse). *)
Inductive Partial : Type :=
| PNone
| PId (buf : string)
| PNum (buf : string).

Fixpoint rev_string (s acc : string) : string :=
  match s with
  | EmptyString => acc
  | String c s' => rev_string s' (String c acc)
  end.

Definition flush (cur : Partial) (acc : list Token) : option (list Token) :=
  match cur with
  | PNone => Some acc
  | PId buf => Some (TId (rev_string buf EmptyString) :: acc)
  | PNum buf => z ← number_literal (rev_string buf EmptyString); Some (TNum z :: acc)
  end.

Fixpoint tokenize (s : string) (cur : Partial) (acc : list Token) : option (list Token) :=
  match s with
  | EmptyString => acc' ← flush cur acc; Some (List.rev acc')
  | String c s' =>
      match cur with
      | PId buf =>
          if is_id_part c then tokenize s' (PId (String c buf)) acc
          else acc' ← flush cur acc;
               if is_space c then tokenize s' PNone acc'
               else if Ascii.eqb c "+" then tokenize s' PNone (TPlus :: acc')
               else None
      | PNum buf =>
          if is_digit c then tokenize s' (PNum (String c buf)) acc
          else acc' ← flush cur acc;
               if is_space c then tokenize s' PNone acc'
               else if Ascii.eqb c "+" then tokenize s' PNone (TPlus :: acc')
               else None
      | PNone =>
          if is_space c then tokenize s' PNone acc
          else if Ascii.eqb c "+" then tokenize s' PNone (TPlus :: acc)
          else if is_id_start c then tokenize s' (PId (String c EmptyString)) acc
          else if is_digit c then tokenize s' (PNum (String c EmptyString)) acc
          else None
      end
  end.

Definition operand (t : Token) : option Expr :=
  match t with
  | TId name => if is_reserved name || is_contextual name then None else Some (EId name)
  | TNum z => Some (ENum z)
  | TPlus => None
  end.

(** [a + b + c] associates to the left. *)
Fixpoint parse_sum (acc : Expr) (ts : list Token) : option Expr :=
  match ts with
  | [] => Some acc
  | TPlus :: t :: rest => e ← operand t; parse_sum (EAdd acc e) rest
  | _ => None
  end.

Definition parse_expression (source : string) : option Expr :=
  ts ← tokenize source PNone [];
  match ts with
  | t :: rest => e ← operand t; parse_sum e rest
  | [] => None
  end.

Definition push_text (text : string) (parts : list Part) : list Part :=
  match text with
  | EmptyString => parts
  | _ => Chars (rev_string text EmptyString) :: parts
  end.

(** Reads a template up to its closing backquote, which must be followed
    by [;] and the end of the body.  [subst] is [Some buf] inside a
    substitution.  Escapes and carriage returns are outside the
    fragment. *)
Fixpoint scan_template (s : string) (subst : option string) (text : string)
    (parts : list Part) : option (list Part) :=
  match s with
  | EmptyString => None
  | String c rest =>
      match subst with
      | Some buf =>
          if Ascii.eqb c "}" then
            e ← parse_expression (rev_string buf EmptyString);
            scan_template rest None EmptyString (Subst e :: parts)
          else scan_template rest (Some (String c buf)) text parts
      | None =>
          if Ascii.eqb c "`" then
            match rest with
            | String ";" EmptyString => Some (List.rev (push_text text parts))
            | _ => None
            end
          else if Ascii.eqb c "\" || Ascii.eqb c "013" then None
          else if Ascii.eqb c "$" then
            match rest with
            | String "{" rest' =>
                scan_template rest' (Some EmptyString) EmptyString (push_text text parts)
            | _ => scan_template rest None (String c text) parts
            end
          else scan_template rest None (String c text) parts
      end
  end.

Fixpoint strip_string_prefix (p s : string) : option string :=
  match p, s with
  | EmptyString, _ => Some s
  | String a p', String b s' => if Ascii.eqb a b then strip_string_prefix p' s' else None
  | _, _ => None
  end.

Definition parse_body (body : string) : option (list Part) :=
  template ← strip_string_prefix "return `" body;
  scan_template template None EmptyString [].

(** Formal parameters; with a repeated name the last one binds. *)
Fixpoint lookup_param (x : string) (bound : Params) : option Value :=
  match bound with
  | [] => None
  | (name, v) :: rest =>
      match lookup_param x rest with
      | Some v' => Some v'
      | None => if String.eqb x name then Some v else None
      end
  end.

Fixpoint assoc (x : string) (l : list (string * Value)) : option Value :=
  match l with
  | [] => None
  | (name, v) :: rest => if String.eqb x name then Some v else assoc x rest
  end.

Definition ToString (v : Value) : option string :=
  match v with
  | VUndefined => Some "undefined"
  | VNull => Some "null"
  | VBool true => Some "true"
  | VBool false => Some "false"
  | VInt z => if safe_integer z then Some (pretty.pretty z) else None
  | VString s => Some s
  | VObject => None
  end.

(** The [+] operator where both operands are numbers or one is a string. *)
Definition js_add (a b : Value) : option Value :=
  match a, b with
  | VInt x, VInt y =>
      if safe_integer x && safe_integer y && safe_integer (x + y)
      then Some (VInt (x + y)) else None
  | VString s, _ => t ← ToString b; Some (VString (s +:+ t))
  | _, VString t => s ← ToString a; Some (VString (s +:+ t))
  | _, _ => None
  end.

Section Evaluation.
Context `{host : Host}.

(** Identifier resolution in a function made by [new Function]: its
    parameters, then the global scope. *)
Definition global_lookup (x : string) : option Value :=
  if String.eqb x "undefined" then Some VUndefined else assoc x global_object.

Definition resolve_name (x : string) (bound : Params) : option Value :=
  match lookup_param x bound with
  | Some v => Some v
  | None => global_lookup x
  end.

Fixpoint eval_expr (bound : Params) (e : Expr) : option (Completion Value) :=
  match e with
  | EId x =>
      Some (match resolve_name x bound with
            | Some v => Return v
            | None => Throw (ReferenceError x)
            end)
  | ENum z => Some (Return (VInt z))
  | EAdd a b =>
      match eval_expr bound a with
      | Some (Return va) =>
          match eval_expr bound b with
          | Some (Return vb) => Return <$> js_add va vb
          | other => other
          end
      | other => other
      end
  end.

Fixpoint eval_template (bound : Params) (parts : list Part) (out : string)
    : option (Completion string) :=
  match parts with
  | [] => Some (Return out)
  | Chars text :: rest => eval_template bound rest (out +:+ text)
  | Subst e :: rest =>
      match eval_expr bound e with
      | Some (Return v) => s ← ToString v; eval_template bound rest (out +:+ s)
      | Some (Throw err) => Some (Throw err)
      | None => None
      end
  end.

(** [new Function(...names, body)(...vals)].  The constructor joins the
    names with commas and parses the result as a list of formal
    parameters, so a name that is not shaped like an identifier can change
    how its neighbours are read (['/*'] and ['*/ x'] around a name make a
    comment of it): parameter lists with such a name are outside the
    model.  When every name is shaped like an identifier the list is read
    name by name, and a reserved word among them is a syntax error. *)
Definition call_new_Function (names : list string) (body : string) (vals : list Value)
    : option (Completion string) :=
  if forallb is_identifier_name names then
    if existsb is_reserved names then
      Some (Throw (SyntaxError "Unexpected token"))
    else if forallb (λ n, negb (is_contextual n)) names then
      parts ← parse_body body;
      eval_template (zip names vals) parts EmptyString
    else None
  else None.

Definition interpolate (str : string) (params : Params) : option (Completion string) :=
  let names := map fst params in
  let vals := map snd params in
  call_new_Function names ("return `" +:+ str +:+ "`;") vals.

End Evaluation.

(** ** HTML to element, template loading *)

(** A string stands for the bytes of its UTF-8 encoding, as in Rocq's own
    string literals; the strings that have one are those without unpaired
    surrogates.  [String.prototype.trim] removes the white space and
    the line terminators of ECMAScript from both ends of a string: the
    code points U+0009 to U+000D, U+0020, U+00A0, U+1680, U+2000 to
    U+200A, U+2028, U+2029, U+202F, U+205F, U+3000 and U+FEFF, each
    listed here by its encoding. *)
Definition utf8 (bytes : list nat) : string :=
  fold_right (λ b s, String (ascii_of_nat b) s) EmptyString bytes.

Definition white_space : list string :=
  map utf8
    [ [9]; [10]; [11]; [12]; [13]; [32];
      [194; 160];
      [225; 154; 128];
      [226; 128; 128]; [226; 128; 129]; [226; 128; 130]; [226; 128; 131];
      [226; 128; 132]; [226; 128; 133]; [226; 128; 134]; [226; 128; 135];
      [226; 128; 136]; [226; 128; 137]; [226; 128; 138];
      [226; 128; 168]; [226; 128; 169]; [226; 128; 175];
      [226; 129; 159];
      [227; 128; 128];
      [239; 187; 191] ].

(** The rest of [s] after the first of [seqs] that it starts with. *)
Fixpoint skip_white_space (seqs : list string) (s : string) : option string :=
  match seqs with
  | [] => None
  | p :: rest =>
      match strip_string_prefix p s with
      | Some s' => Some s'
      | None => skip_white_space rest s
      end
  end.

(** Skips as long as there is something to skip; [fuel] bounds the number
    of skips, and the length of the string is enough of it. *)
Fixpoint trim_with (fuel : nat) (seqs : list string) (s : string) : string :=
  match fuel with
  | O => s
  | S fuel' =>
      match skip_white_space seqs s with
      | Some s' => trim_with fuel' seqs s'
      | None => s
      end
  end.

Definition trim_start (s : string) : string :=
  trim_with (String.length s) white_space s.

(** From the end: the same on the reversed string, with every encoding
    reversed. *)
Definition reversed (seqs : list string) : list string :=
  map (λ p, rev_string p EmptyString) seqs.

Definition trim_end (s : string) : string :=
  rev_string
    (trim_with (String.length s) (reversed white_space) (rev_string s EmptyString))
    EmptyString.

(** [String.prototype.trim]. *)
Definition trim (s : string) : string := trim_end (trim_start s).

Definition is_element (n : HtmlNode) : bool :=
  match n with HElem _ _ _ => true | HText _ => false end.

Definition firstElementChild (kids : list HtmlNode) : option HtmlNode :=
  head (List.filter is_element kids).

Definition node_tag (n : HtmlNode) : string :=
  match n with HElem tag _ _ => tag | HText _ => EmptyString end.

Definition instanceof_HTMLTemplateElement (n : HtmlNode) : bool :=
  String.eqb (node_tag n) "template".

(** A template element keeps what it parsed in [content] and has no
    children; any other element keeps it as its children. *)
Definition template_content (n : HtmlNode) : list HtmlNode :=
  match n with
  | HElem _ _ c => if instanceof_HTMLTemplateElement n then c else []
  | HText _ => []
  end.

Definition child_nodes (n : HtmlNode) : list HtmlNode :=
  match n with
  | HElem _ _ c => if instanceof_HTMLTemplateElement n then [] else c
  | HText _ => []
  end.

Section Markup.
Context `{host : Host}.

Definition createElement (tag : string) : Completion HtmlNode :=
  if valid_element_name tag then Return (HElem tag [] [])
  else Throw (InvalidCharacterError tag).

(** [wrapper.innerHTML = html]. *)
Definition set_innerHTML (html : string) (wrapper : HtmlNode) : HtmlNode :=
  match wrapper with
  | HElem tag attrs _ => HElem tag attrs (parse_fragment tag html)
  | HText _ => wrapper
  end.

(** [if (wrapperTag)]: a string is truthy unless empty. *)
Definition truthy (wrapperTag : option string) : bool :=
  match wrapperTag with
  | Some (String _ _) => true
  | _ => false
  end.

Definition htmlToElement (html : string) (wrapperTag : option string)
    : Completion (option HtmlNode) :=
  match createElement (default "template" wrapperTag) with
  | Throw e => Throw e
  | Return wrapper =>
      let wrapper := set_innerHTML (trim html) wrapper in
      if truthy wrapperTag then Return (Some wrapper)
      else if instanceof_HTMLTemplateElement wrapper
      then Return (firstElementChild (template_content wrapper))
      else Return (firstElementChild (child_nodes wrapper))
  end.

Definition innerHTML_of (el : NodeId) (w : World) : string :=
  match nodes (document w) !! el with
  | Some e => innerHTML e
  | None => EmptyString
  end.

(** [loadTemplate(id, params)]; [None] when the template's text leaves
    the modelled fragment of JavaScript. *)
Definition loadTemplate (id : string) (params : Params) (w : World)
    : option (Completion string * World) :=
  match get ("#" +:+ id) None w with
  | (Return template, w') =>
      r ← interpolate (innerHTML_of template w') params;
      Some (r, w')
  | (Throw e, w') => Some (Throw e, w')
  end.

End Markup.

(** ** A small concrete host *)

(** Selectors of the forms [.class], [#id] and [tag]; markup made of
    text and of [<tag>..</tag>] without attributes; an empty global
    object.  It instantiates [Host] for the worked examples. *)
Module SimpleHost.

Inductive simple_selector : Type :=
| ByClass (c : string)
| ById (i : string)
| ByTag (t : string).

Definition parse (text : string) : option simple_selector :=
  match text with
  | String "." name => if is_identifier_name name then Some (ByClass name) else None
  | String "#" name => if is_identifier_name name then Some (ById name) else None
  | _ => if is_identifier_name text then Some (ByTag text) else None
  end.

Definition matches (s : simple_selector) (d : Document) (scope : Tree) (n : NodeId) : bool :=
  match nodes d !! n with
  | None => false
  | Some e =>
      match s with
      | ByClass c => bool_decide (c ∈ classList e)
      | ById i => String.eqb i (idAttr e)
      | ByTag t => String.eqb t (tagName e)
      end
  end.

(** The markup reader: the elements still open (innermost first, each
    with the children read before it opened) and the children read at the
    current level, all in reverse. *)
Inductive Mode : Type :=
| InText (buf : string)
| InOpenTag (buf : string)
| InCloseTag (buf : string).

Definition add_text (buf : string) (kids : list HtmlNode) : list HtmlNode :=
  match buf with
  | EmptyString => kids
  | _ => HText (rev_string buf EmptyString) :: kids
  end.

Fixpoint close_all (stack : list (string * list HtmlNode)) (kids : list HtmlNode)
    : list HtmlNode :=
  match stack with
  | [] => List.rev kids
  | (tag, before) :: stack' => close_all stack' (HElem tag [] (List.rev kids) :: before)
  end.

Fixpoint read_markup (s : string) (mode : Mode) (stack : list (string * list HtmlNode))
    (kids : list HtmlNode) : list HtmlNode :=
  match s with
  | EmptyString =>
      match mode with
      | InText buf => close_all stack (add_text buf kids)
      | _ => close_all stack kids
      end
  | String c rest =>
      match mode with
      | InText buf =>
          if Ascii.eqb c "<" then
            match rest with
            | String "/" rest' => read_markup rest' (InCloseTag EmptyString) stack (add_text buf kids)
            | _ => read_markup rest (InOpenTag EmptyString) stack (add_text buf kids)
            end
          else read_markup rest (InText (String c buf)) stack kids
      | InOpenTag buf =>
          if Ascii.eqb c ">" then
            read_markup rest (InText EmptyString)
                        ((rev_string buf EmptyString, kids) :: stack) []
          else read_markup rest (InOpenTag (String c buf)) stack kids
      | InCloseTag buf =>
          if Ascii.eqb c ">" then
            match stack with
            | (tag, before) :: stack' =>
                read_markup rest (InText EmptyString) stack'
                            (HElem tag [] (List.rev kids) :: before)
            | [] => read_markup rest (InText EmptyString) stack kids
            end
          else read_markup rest (InCloseTag (String c buf)) stack kids
      end
  end.

Definition parse_markup (context html : string) : list HtmlNode :=
  read_markup html (InText EmptyString) [] [].

Definition simple_host : Host := {|
  Selector := simple_selector;
  parse_selector := parse;
  selector_matches := matches;
  parse_fragment := parse_markup;
  valid_element_name := is_identifier_name;
  global_object := []
|}.

End SimpleHost.

(** ** Event listeners and the readiness of the document *)

(** A listener is known by the identity of its callback: callbacks are
    named here, and what a callback does when it is called is given by
    [effect] below. *)
Definition CallbackId := positive.

(** An [AbortSignal] is known by its identity; whether it is aborted is
    part of the state of the page. *)
Definition SignalId := positive.

(** The [options] argument of [addEventListener] and
    [removeEventListener]: absent, a boolean (the capture flag) or a
    dictionary with the members [capture] and [once] (false when
    absent), [passive] and [signal] (absent or given). *)
Inductive ListenerOptions : Type :=
| NoOptions
| UseCapture (capture : bool)
| OptionsDict (capture once : bool) (passive : option bool) (signal : option SignalId).

Record Listener : Type := mkListener {
  l_type : string;
  l_callback : CallbackId;
  l_capture : bool;
  l_once : bool;
  l_passive : option bool;
  l_signal : option SignalId
}.

Definition flatten (options : ListenerOptions) : bool :=
  match options with
  | NoOptions => false
  | UseCapture capture => capture
  | OptionsDict capture _ _ _ => capture
  end.

Definition flatten_once (options : ListenerOptions) : bool :=
  match options with
  | OptionsDict _ once _ _ => once
  | _ => false
  end.

Definition flatten_passive (options : ListenerOptions) : option bool :=
  match options with
  | OptionsDict _ _ passive _ => passive
  | _ => None
  end.

Definition flatten_signal (options : ListenerOptions) : option SignalId :=
  match options with
  | OptionsDict _ _ _ signal => signal
  | _ => None
  end.

(** The listener that a call of [addEventListener] describes. *)
Definition listener_of (type : string) (callback : CallbackId)
    (options : ListenerOptions) : Listener :=
  mkListener type callback (flatten options) (flatten_once options)
             (flatten_passive options) (flatten_signal options).

Definition same_listener (type : string) (callback : CallbackId) (capture : bool)
    (l : Listener) : bool :=
  String.eqb type (l_type l) && Pos.eqb callback (l_callback l)
  && Bool.eqb capture (l_capture l).

(** The host's "add an event listener": appended, unless the list holds
    a listener with the same type, callback and capture. *)
Definition add_listener (l : Listener) (ls : list Listener) : list Listener :=
  if existsb (same_listener (l_type l) (l_callback l) (l_capture l)) ls
  then ls else ls ++ [l].

(** The host's "remove an event listener": the listener with that type,
    callback and capture leaves the list, if there is one. *)
Fixpoint remove_listener (type : string) (callback : CallbackId) (capture : bool)
    (ls : list Listener) : list Listener :=
  match ls with
  | [] => []
  | l :: rest =>
      if same_listener type callback capture l then rest
      else l :: remove_listener type callback capture rest
  end.

Inductive ReadyState : Type := Loading | Interactive | Complete.

(** The page: the world of the helpers above, the listener lists of the
    elements and of the document, [document.readyState], the callbacks
    entered so far, and the signals that are aborted.  Aborting a signal,
    upon which the host takes off the listeners registered with it, is
    something the library never does; no operation here does it. *)
Record Page : Type := mkPage {
  world : World;
  element_listeners : gmap NodeId (list Listener);
  document_listeners : list Listener;
  readyState : ReadyState;
  called : list CallbackId;
  aborted : gset SignalId
}.

Definition P (A : Type) : Type := Page → Completion A * Page.

#[global] Instance P_ret : MRet P := λ A a p, (Return a, p).
#[global] Instance P_bind : MBind P := λ A B f m p,
  match m p with
  | (Return a, p') => f a p'
  | (Throw e, p') => (Throw e, p')
  end.

Definition with_world (w : World) (p : Page) : Page :=
  mkPage w (element_listeners p) (document_listeners p) (readyState p) (called p)
         (aborted p).

(** Library code that acts on the world only. *)
Definition liftM {A} (m : M A) : P A := λ p,
  let '(r, w) := m (world p) in (r, with_world w p).

Definition listeners_of (el : NodeId) (p : Page) : list Listener :=
  default [] (element_listeners p !! el).

Definition with_listeners (el : NodeId) (f : list Listener → list Listener)
    (p : Page) : Page :=
  mkPage (world p) (<[el := f (listeners_of el p)]> (element_listeners p))
         (document_listeners p) (readyState p) (called p) (aborted p).

Definition with_document_listeners (f : list Listener → list Listener) (p : Page)
    : Page :=
  mkPage (world p) (element_listeners p) (f (document_listeners p)) (readyState p)
         (called p) (aborted p).

(** Whether the options carry a signal that is aborted by now. *)
Definition signal_aborted (options : ListenerOptions) (p : Page) : bool :=
  match flatten_signal options with
  | Some signal => bool_decide (signal ∈ aborted p)
  | None => false
  end.

(** [element.addEventListener(type, listener, options)] and its
    counterpart, of the host.  With a signal that is aborted already the
    host adds nothing. *)
Definition Element_addEventListener (el : NodeId) (type : string)
    (listener : CallbackId) (options : ListenerOptions) : P unit := λ p,
  if signal_aborted options p then (Return tt, p)
  else (Return tt,
        with_listeners el (add_listener (listener_of type listener options)) p).

Definition Element_removeEventListener (el : NodeId) (type : string)
    (listener : CallbackId) (options : ListenerOptions) : P unit := λ p,
  (Return tt, with_listeners el (remove_listener type listener (flatten options)) p).

Definition Document_addEventListener (type : string) (listener : CallbackId)
    (options : ListenerOptions) : P unit := λ p,
  if signal_aborted options p then (Return tt, p)
  else (Return tt,
        with_document_listeners (add_listener (listener_of type listener options)) p).

Definition DOMContentLoaded : string := "DOMContentLoaded".

Section Events.
Context `{host : Host}.

(** What each callback does when it is called.  Callbacks act on the
    world: they may change the document and start fades; callbacks that
    register listeners themselves are not modelled. *)
Variable effect : CallbackId → M unit.

(** [fn()]: the callback is entered, and its effect takes place. *)
Definition call (fn : CallbackId) : P unit := λ p,
  liftM (effect fn)
        (mkPage (world p) (element_listeners p) (document_listeners p) (readyState p)
                (called p ++ [fn]) (aborted p)).

(** [ready]: lines 12 to 16. *)
Definition ready (fn : CallbackId) : P unit := λ p,
  match readyState p with
  | Loading => Document_addEventListener DOMContentLoaded fn NoOptions p
  | _ => call fn p
  end.

(** [elementMap] with a callback that acts on the page. *)
Fixpoint for_of_page {R} (iterableElements : list NodeId) (callback : NodeId → P R)
    (results : list R) : P (list R) :=
  match iterableElements with
  | [] => mret results
  | el :: rest =>
      r ← callback el;
      for_of_page rest callback (results ++ [r])
  end.

Definition elementMap_page {R} (elements : Elements) (callback : NodeId → P R)
    : P (list R) :=
  match elements with
  | AnElement el =>
      r ← callback el;
      mret [r]
  | _ =>
      iterableElements ←
        match elements with
        | ASelector selector => liftM (findAll selector None)
        | _ => if isIterable elements then mret (iterate elements) else mret []
        end;
      for_of_page iterableElements callback []
  end.

(** [addEventListener] and [removeEventListener]: lines 76 to 104.  The
    callback [el => addEventListener(el, ...)] receives elements only, so
    the inner call takes the [Element] branch. *)
Definition addEventListener (element : Elements) (type : string)
    (listener : CallbackId) (options : ListenerOptions) : P unit :=
  match element with
  | AnElement el => Element_addEventListener el type listener options
  | _ =>
      _ ← elementMap_page element
            (λ el, Element_addEventListener el type listener options);
      mret tt
  end.

Definition removeEventListener (element : Elements) (type : string)
    (listener : CallbackId) (options : ListenerOptions) : P unit :=
  match element with
  | AnElement el => Element_removeEventListener el type listener options
  | _ =>
      _ ← elementMap_page element
            (λ el, Element_removeEventListener el type listener options);
      mret tt
  end.

(** The host invokes one listener of the document: a listener registered
    with [once] leaves the list first; an exception that the callback
    raises is reported and goes no further. *)
Definition invoke (l : Listener) : P unit := λ p,
  let p1 := if l_once l
            then with_document_listeners
                   (remove_listener (l_type l) (l_callback l) (l_capture l)) p
            else p in
  (Return tt, (call (l_callback l) p1).2).

Fixpoint invoke_all (ls : list Listener) : P unit :=
  match ls with
  | [] => mret tt
  | l :: rest => _ ← invoke l; invoke_all rest
  end.

(** The host fires an event at the document: the listeners of its type
    that are registered at that moment are invoked, the capturing ones
    first, each group in the order of registration. *)
Definition fire_at_document (type : string) : P unit := λ p,
  let mine := List.filter (λ l, String.eqb type (l_type l)) (document_listeners p) in
  invoke_all (List.filter l_capture mine
              ++ List.filter (λ l, negb (l_capture l)) mine) p.

(** The end of parsing: the document becomes interactive, then
    [DOMContentLoaded] is fired at it. *)
Definition end_of_parsing : P unit := λ p,
  fire_at_document DOMContentLoaded
    (mkPage (world p) (element_listeners p) (document_listeners p) Interactive
            (called p) (aborted p)).

End Events.


(** * Vocabulary of the properties *)

(** Observations on a world, specification-level counterparts of the
    library functions, and the worlds of the worked examples. *)

Definition node_of (el : NodeId) (w : World) : option Element :=
  nodes (document w) !! el.

Definition classList_of (el : NodeId) (w : World) : list string :=
  match node_of el w with
  | Some e => classList e
  | None => []
  end.

Definition is_hidden (el : NodeId) (w : World) : Prop :=
  hidden_class ∈ classList_of el w.

#[global] Instance is_hidden_dec el w : Decision (is_hidden el w).
Proof. unfold is_hidden. apply _. Defined.

Definition raises_Error {A} (r : Completion A) : Prop :=
  ∃ message, r = Throw (Error message).

(** Element normalisation as the specification words it: a single node is
    a one-element sequence, a string is resolved as a selector against
    the document body, an iterable is taken in its own order, anything
    else is empty. *)
Definition normalize `{host : Host} (elements : Elements) (w : World)
    : Completion (list NodeId) :=
  match elements with
  | AnElement el => Return [el]
  | ASelector selector => (findAll selector None w).1
  | ACollection items => Return items
  | Other => Return []
  end.

(** The callback applied to each node in turn, results in that order. *)
Fixpoint map_in_order {R} (callback : NodeId → M R) (ns : list NodeId) : M (list R) :=
  match ns with
  | [] => mret []
  | el :: rest =>
      r ← callback el;
      rs ← map_in_order callback rest;
      mret (r :: rs)
  end.

(** A callback that computes [f] and leaves a trace of its invocation. *)
Definition traced {R} (f : NodeId → R) : NodeId → M R :=
  λ el w, (Return (f el), emit (EvCallback el) w).

Definition emit_all (es : list Event) (w : World) : World :=
  mkWorld (document w) (intervals w) (next_timer w) (promises w)
          (next_promise w) (log w ++ es).

Ltac unfold_monad :=
  unfold mbind, M_bind, mret, M_ret, gets, modify, throw in *.

#[global] Instance Event_eq_dec : EqDecision Event.
Proof. solve_decision. Defined.

Definition count_event (e : Event) (l : list Event) : nat :=
  length (filter (λ e', e' = e) l).

(** The opacity a node stores and the opacity a running fade tracks. *)
Definition stored_opacity (el : NodeId) (w : World) : option float :=
  e ← node_of el w; style_opacity e.

Definition tracked_opacity (t : TimerId) (w : World) : option float :=
  i ← intervals w !! t; Some (h_opacity (handler i)).

Definition fade_step (k : FadeKind) (x : float) : float :=
  match k with FadingIn => step_in x | FadingOut => step_out x end.

(** The test that ends a fade. *)
Definition crossed (k : FadeKind) (x toOpacity : float) : bool :=
  match k with FadingIn => js_gt x toOpacity | FadingOut => js_lt x toOpacity end.

(** The tracked opacity after [n] ticks. *)
Definition tracked (k : FadeKind) (n : nat) (x : float) : float :=
  Nat.iter n (fade_step k) x.

(** What a tick that goes on, and the tick that ends the fade, do to the
    node. *)
Definition continue_node (k : FadeKind) (toOpacity x : float) (e : Element) : Element :=
  match k with
  | FadingIn =>
      set_style_opacity (Some x)
        (if js_gt toOpacity 0 then set_classList (classList_remove hidden_class) e else e)
  | FadingOut => set_style_opacity (Some x) e
  end.

Definition finish_node (k : FadeKind) (toOpacity : float) (e : Element) : Element :=
  match k with
  | FadingIn =>
      if js_gt toOpacity 0 then set_classList (classList_remove hidden_class) e else e
  | FadingOut => set_classList (classList_add hidden_class) e
  end.

Definition is_Lt (c : comparison) : bool :=
  match c with Lt => true | _ => false end.

(** A clamped target that is a number lies in [0, 1]. *)
Definition in_unit_range (c : float) : Prop :=
  js_gt c 1 = false ∧ js_lt c 0 = false ∧ PrimFloat.eqb c c = true.

(** Of moderate size: of absolute value below [2^40], about [10^12].  A
    step of a tenth is not lost in the rounding of such a number; in that
    of a much larger one, such as [1e17], it is. *)
Definition moderate (x : float) : Prop :=
  PrimFloat.ltb (-1099511627776) x = true ∧ PrimFloat.ltb x 1099511627776 = true.



(** Past the whole range of clamped targets. *)
Definition beyond (k : FadeKind) (y : float) : bool :=
  match k with FadingIn => js_gt y 1 | FadingOut => js_lt y 0 end.

(** A strict move in the direction of the fade. *)
Definition strictly (k : FadeKind) (a b : float) : bool :=
  match k with FadingIn => js_lt a b | FadingOut => js_gt a b end.


(** The node after a fade that crossed its target at tick [n + 1]. *)
Definition settled_node (k : FadeKind) (c : float) (n : nat) (x : float)
    (e : Element) : Element :=
  match n with
  | O => finish_node k c e
  | S _ => finish_node k c (continue_node k c (tracked k n x) e)
  end.

(** The node after [j] ticks of a fade that has not crossed yet. *)
Definition running_node (k : FadeKind) (c : float) (j : nat) (x : float)
    (e : Element) : Element :=
  match j with
  | O => e
  | S _ => continue_node k c (tracked k j x) e
  end.

(** The opacity a fade starts from: [parseFloat(element.style.opacity) || 0]. *)
Definition initial_opacity (el : NodeId) (w : World) : float :=
  or_zero (parseFloat (stored_opacity el w)).

(** The world just after a fade on one node was started. *)
Definition started (k : FadeKind) (el : NodeId) (toOpacity delay : float) (w : World)
    : World :=
  mkWorld (document w)
          (<[next_timer w := mkInterval (mkHandler k el (initial_opacity el w)
                                                   (clamp toOpacity) (next_promise w))
                                        delay]> (intervals w))
          (Pos.succ (next_timer w))
          (<[next_promise w := Pending]> (promises w))
          (Pos.succ (next_promise w))
          (log w).

(** Either fade, and the default of its [toOpacity]. *)
Definition fade `{host : Host} (k : FadeKind)
    : Elements → option float → option float → M PromiseId :=
  match k with FadingIn => fadeIn | FadingOut => fadeOut end.

Definition default_target (k : FadeKind) : float :=
  match k with FadingIn => 1%float | FadingOut => 0%float end.

(** The [i]-th identifier handed out after [base]. *)
Definition offset (base : positive) (i : nat) : positive := Nat.iter i Pos.succ base.

(** The world after a fade was started on each node in turn. *)
Definition started_all (k : FadeKind) (ns : list NodeId) (toOpacity delay : float)
    (w : World) : World :=
  fold_left (λ w' el, started k el toOpacity delay w') ns w.

Definition fade_element_of `{host : Host} (k : FadeKind) : NodeId → float → float → M PromiseId :=
  match k with FadingIn => fadeIn_element | FadingOut => fadeOut_element end.





Definition demo_element (tag id : string) (classes : list string)
    (opacity : option float) : Element :=
  mkElement tag id classes opacity [] EmptyString.

Definition demo_template (id content : string) : Element :=
  mkElement "template" id [] None [] content.

(** [<body><ul id="menu" class="list"><li class="item">..</li></ul>
    <li class="item d-none" style="opacity: 1">..</li>
    <template id="greeting">Hello, ${name}!</template></body>]. *)
Definition demo_document : Document :=
  mkDocument
    (Node 1%positive [Node 2%positive [Node 3%positive []]; Node 4%positive [];
                      Node 5%positive []])
    (<[1%positive := demo_element "body" EmptyString [] None]>
       (<[2%positive := demo_element "ul" "menu" ["list"] None]>
          (<[3%positive := demo_element "li" EmptyString ["item"] None]>
             (<[4%positive := demo_element "li" EmptyString ["item"; "d-none"]
                                           (Some 1%float)]>
                (<[5%positive := demo_template "greeting" "Hello, ${name}!"]> ∅))))).

(** The world after [hide] or [show] was applied to each node in turn. *)
Definition hide_all (items : list NodeId) (w : World) : World :=
  fold_left (λ w' el,
    with_document (update_node el (set_classList (classList_add hidden_class))) w')
    items w.

Definition show_all (items : list NodeId) (w : World) : World :=
  fold_left (λ w' el,
    with_document (update_node el (set_classList (classList_remove hidden_class))) w')
    items w.

Definition demo_world : World :=
  mkWorld demo_document ∅ 1%positive ∅ 1%positive [].

(** A node whose stored opacity is far outside [0, 1]. *)
Definition far_world : World :=
  mkWorld (mkDocument (Node 1%positive [])
                      (<[1%positive := demo_element "body" EmptyString []
                                                    (Some 1e17%float)]> ∅))
          ∅ 1%positive ∅ 1%positive [].

(** A node whose stored opacity is as far below the range. *)
Definition deep_world : World :=
  mkWorld (mkDocument (Node 1%positive [])
                      (<[1%positive := demo_element "body" EmptyString []
                                                    (Some (-1e17)%float)]> ∅))
          ∅ 1%positive ∅ 1%positive [].

(** The same fade but for the opacity it tracks. *)
Definition same_fade (i j : Interval) : Prop :=
  h_kind (handler j) = h_kind (handler i)
  ∧ h_element (handler j) = h_element (handler i)
  ∧ h_toOpacity (handler j) = h_toOpacity (handler i)
  ∧ h_resolve (handler j) = h_resolve (handler i)
  ∧ period j = period i.

(** What a fade may change of a node: the hidden class and the stored
    opacity, nothing else. *)
Definition same_but_visibility (e e' : Element) : Prop :=
  tagName e' = tagName e ∧ idAttr e' = idAttr e
  ∧ attributes e' = attributes e ∧ innerHTML e' = innerHTML e
  ∧ ∀ c, c ≠ hidden_class → c ∈ classList e' ↔ c ∈ classList e.

(** The timers of a schedule that act on a node, and those that resolve
    a promise. *)
Definition acts_on (ts : list TimerId) (el : NodeId) (w : World) : Prop :=
  ∃ t i, t ∈ ts ∧ intervals w !! t = Some i ∧ h_element (handler i) = el.

Definition resolves (ts : list TimerId) (p : PromiseId) (w : World) : Prop :=
  ∃ t i, t ∈ ts ∧ intervals w !! t = Some i ∧ h_resolve (handler i) = p.

(** The bookkeeping of timers and promises: identifiers lie below the
    counters that hand them out; a running fade owns a pending promise,
    and owns it alone; a pending promise has a running fade that owns it;
    a promise whose [resolve] was called is fulfilled, and [resolve] was
    called at most once on it. *)
Record well_formed (w : World) : Prop := mk_well_formed {
  wf_timers : ∀ t i, intervals w !! t = Some i → (t < next_timer w)%positive;
  wf_promises : ∀ p s, promises w !! p = Some s → (p < next_promise w)%positive;
  wf_owned : ∀ t i, intervals w !! t = Some i →
                    promises w !! h_resolve (handler i) = Some Pending;
  wf_alone : ∀ t t' i i', intervals w !! t = Some i → intervals w !! t' = Some i' →
                          h_resolve (handler i) = h_resolve (handler i') → t = t';
  wf_pending : ∀ p, promises w !! p = Some Pending →
                    ∃ t i, intervals w !! t = Some i ∧ h_resolve (handler i) = p;
  wf_resolved : ∀ p, EvResolve p ∈ log w → promises w !! p = Some Fulfilled;
  wf_once : ∀ p, (count_event (EvResolve p) (log w) ≤ 1)%nat
}.

(** What can happen to a page: a call of a fade, of [hide] or of [show],
    or the host firing an interval timer. *)
Inductive Call : Type :=
| CallFade (k : FadeKind) (element : Elements) (toOpacity delay : option float)
| CallHide (element : Elements)
| CallShow (element : Elements)
| TimerFires (t : TimerId).

Definition after `{host : Host} (c : Call) (w : World) : World :=
  match c with
  | CallFade k element toOpacity delay => (fade k element toOpacity delay w).2
  | CallHide element => (hide element w).2
  | CallShow element => (show element w).2
  | TimerFires t => fire t w
  end.

Definition history `{host : Host} (cs : list Call) (w : World) : World :=
  fold_left (λ w' c, after c w') cs w.

(** A callback that raises on one node and records the others. *)
Definition stop_at (bad : NodeId) : NodeId → M NodeId :=
  λ el, if Pos.eqb el bad then throw (Error "stop") else traced id el.




(** A string made of the given sequences only. *)
Inductive run_of (seqs : list string) : string → Prop :=
| run_nil : run_of seqs EmptyString
| run_cons p s : p ∈ seqs → run_of seqs s → run_of seqs (p +:+ s).

Definition white_space_only : string → Prop := run_of white_space.

(** The bytes with which an encoding of white space starts. *)
Definition white_lead (c : ascii) : bool :=
  existsb (λ p, match p with String a _ => Ascii.eqb a c | EmptyString => false end)
          white_space.

(** The white space of ASCII: blank, tab, line feed, vertical tab, form
    feed and carriage return. *)
Definition is_trim_space (c : ascii) : bool :=
  is_space c || (nat_of_ascii c =? 13)%nat.

(** White space of ASCII only. *)
Fixpoint all_trim_space (s : string) : bool :=
  match s with
  | EmptyString => true
  | String c s' => is_trim_space c && all_trim_space s'
  end.

(** Whether a listener with that type, callback and capture is
    registered on a node, and on the document. *)
Definition registered (type : string) (fn : CallbackId) (capture : bool)
    (el : NodeId) (p : Page) : bool :=
  existsb (same_listener type fn capture) (listeners_of el p).

Definition registered_on_document (type : string) (fn : CallbackId) (capture : bool)
    (p : Page) : bool :=
  existsb (same_listener type fn capture) (document_listeners p).

(** The page after a change of the listener list of each node in turn. *)
Definition with_listeners_all (f : list Listener → list Listener) (ns : list NodeId)
    (p : Page) : Page :=
  fold_left (λ p' el, with_listeners el f p') ns p.

(** How often a callback was entered. *)
Definition calls_of (fn : CallbackId) (p : Page) : nat :=
  length (List.filter (Pos.eqb fn) (called p)).

(** The listener that [ready] registers. *)
Definition ready_listener (fn : CallbackId) : Listener :=
  mkListener DOMContentLoaded fn false false None None.

(** A page still loading, with one listener waiting for the end of
    parsing, and a callback that hides node 3. *)
Definition loading_page : Page :=
  mkPage demo_world ∅ [ready_listener 7%positive] Loading [] ∅.

(** A page on which signal 2 is aborted. *)
Definition aborted_page : Page :=
  mkPage demo_world ∅ [] Complete [] {[2%positive]}.

Definition demo_effect `{host : Host} (fn : CallbackId) : M unit :=
  if Pos.eqb fn 9%positive then throw (Error "failed")
  else hide (AnElement 3%positive).

(** The page with the listener of [ready] at the end of the document's
    list. *)
Definition waiting (fn : CallbackId) (p : Page) : Page :=
  with_document_listeners (λ ls, ls ++ [ready_listener fn]) p.

(** How often the host fires timer [t] in a history. *)
Fixpoint firings (t : TimerId) (cs : list Call) : nat :=
  match cs with
  | [] => 0
  | TimerFires t' :: rest => if Pos.eqb t t' then S (firings t rest) else firings t rest
  | _ :: rest => firings t rest
  end.

(** ** The real value of a binary64 number *)

Definition F2R (m e : Z) : R := (IZR m * powerRZ 2 e)%R.

Definition SF2R (x : spec_float) : R :=
  match x with
  | S754_finite s m e => F2R (cond_Zopp s (Zpos m)) e
  | _ => 0%R
  end.

Definition B2R (x : float) : R := SF2R (Prim2SF x).

Definition is_finite_SF (x : spec_float) : bool :=
  match x with
  | S754_finite _ _ _ | S754_zero _ => true
  | _ => false
  end.

Definition is_finite (x : float) : bool := is_finite_SF (Prim2SF x).

(** Where [v] lies in the interval from [lo] to [hi], as the rounding
    code records it. *)
Definition inbetween (lo hi v : R) (l : location) : Prop :=
  match l with
  | loc_Exact => v = lo
  | loc_Inexact c =>
      (lo < v < hi)%R
      ∧ match c with
        | Lt => (v < (lo + hi) / 2)%R
        | Eq => v = ((lo + hi) / 2)%R
        | Gt => ((lo + hi) / 2 < v)%R
        end
  end.

Definition located (v : R) (m e : Z) (l : location) : Prop :=
  inbetween (F2R m e) (F2R (m + 1) e) v l.

(** How far a tick moves, with its sign: positive steps up for [fadeIn],
    down for [fadeOut]. *)
Definition stride (k : FadeKind) (r : R) : R :=
  match k with FadingIn => r | FadingOut => - r end.

(** Case analysis on the membership in a list that is given in full. *)
Ltac each_of Hin :=
  vm_compute in Hin;
  repeat (apply elem_of_cons in Hin as [->|Hin]);
  [..|by apply elem_of_nil in Hin].

(** * Properties *)

(** ** The class list *)

Lemma classList_add_present token l :
  token ∈ l → classList_add token l = l.
Proof.
  intros Hin. unfold classList_add. by rewrite bool_decide_eq_true_2.
Qed.

Lemma classList_add_elem token l : token ∈ classList_add token l.
Proof.
  unfold classList_add. destruct (decide (token ∈ l)) as [Hin|Hout].
  - by rewrite bool_decide_eq_true_2.
  - rewrite bool_decide_eq_false_2 by done.
    apply elem_of_app. right. by apply list_elem_of_singleton.
Qed.

Lemma classList_remove_absent token l :
  token ∉ l → classList_remove token l = l.
Proof.
  unfold classList_remove. induction l as [|c l IH]; intros Hnot; [done|].
  apply not_elem_of_cons in Hnot as [Hne Hl].
  rewrite filter_cons_True by congruence. f_equal. by apply IH.
Qed.

Lemma classList_remove_not_elem token l : token ∉ classList_remove token l.
Proof.
  unfold classList_remove. rewrite list_elem_of_filter. by intros [? _].
Qed.

Lemma classList_remove_add token l :
  classList_remove token (classList_add token l) = classList_remove token l.
Proof.
  unfold classList_add, classList_remove.
  destruct (decide (token ∈ l)) as [Hin|Hout].
  - by rewrite bool_decide_eq_true_2.
  - rewrite bool_decide_eq_false_2 by done.
    rewrite filter_app, filter_cons_False, filter_nil, app_nil_r; [done|].
    by intros Hne.
Qed.

Lemma classList_remove_idem token l :
  classList_remove token (classList_remove token l) = classList_remove token l.
Proof.
  apply classList_remove_absent, classList_remove_not_elem.
Qed.

Lemma classList_add_other token c l :
  c ≠ token → c ∈ classList_add token l ↔ c ∈ l.
Proof.
  intros Hne. unfold classList_add.
  destruct (decide (token ∈ l)) as [Hin|Hout].
  - by rewrite bool_decide_eq_true_2.
  - rewrite bool_decide_eq_false_2 by done.
    rewrite elem_of_app, list_elem_of_singleton. tauto.
Qed.

Lemma classList_remove_other token c l :
  c ≠ token → c ∈ classList_remove token l ↔ c ∈ l.
Proof.
  intros Hne. unfold classList_remove. rewrite list_elem_of_filter. tauto.
Qed.

Lemma set_classList_id f e :
  f (classList e) = classList e → set_classList f e = e.
Proof. intros Heq. destruct e. unfold set_classList. simpl in *. by rewrite Heq. Qed.

Lemma with_document_id (f : Document → Document) w :
  f (document w) = document w → with_document f w = w.
Proof. intros Heq. destruct w. unfold with_document. simpl in *. by rewrite Heq. Qed.

Lemma update_node_id el f d :
  (∀ e, nodes d !! el = Some e → f e = e) → update_node el f d = d.
Proof.
  intros Hf. destruct d as [b m]. unfold update_node. simpl in *.
  by rewrite alter_id.
Qed.

Lemma update_node_idem el f d :
  (∀ e, f (f e) = f e) → update_node el f (update_node el f d) = update_node el f d.
Proof.
  intros Hf. destruct d as [b m]. unfold update_node. simpl. f_equal.
  apply map_eq. intros i. destruct (decide (el = i)) as [->|Hne].
  - rewrite !lookup_alter_eq. destruct (m !! i); simpl; [by rewrite Hf|done].
  - by rewrite !lookup_alter_ne.
Qed.

Lemma set_classList_idem f e :
  (∀ l, f (f l) = f l) → set_classList f (set_classList f e) = set_classList f e.
Proof. intros Hf. unfold set_classList. simpl. by rewrite Hf. Qed.

Lemma node_of_update el f w :
  node_of el (with_document (update_node el f) w) = f <$> node_of el w.
Proof. unfold node_of. simpl. apply lookup_alter_eq. Qed.

Lemma node_of_update_ne el el' f w :
  el ≠ el' → node_of el' (with_document (update_node el f) w) = node_of el' w.
Proof. intros Hne. unfold node_of. simpl. by apply lookup_alter_ne. Qed.

Lemma classList_of_update el f w :
  f [] = [] →
  classList_of el (with_document (update_node el (set_classList f)) w)
  = f (classList_of el w).
Proof.
  intros Hnil. unfold classList_of. rewrite node_of_update.
  destruct (node_of el w) as [e|]; simpl; [done|by rewrite Hnil].
Qed.

Section Visibility.
Context `{host : Host}.

Lemma hide_element_world el w :
  hide (AnElement el) w
  = (Return tt, with_document (update_node el (set_classList (classList_add hidden_class))) w).
Proof. reflexivity. Qed.

Lemma show_element_world el w :
  show (AnElement el) w
  = (Return tt, with_document (update_node el (set_classList (classList_remove hidden_class))) w).
Proof. reflexivity. Qed.

(** C8.  On a single node [hide] and [show] never raise; [hide] on a node
    that carries the hidden class and [show] on a node that does not
    leave the whole world, hence the class list, as it was; doing either
    twice is the same as doing it once; and after [hide] then [show] the
    node does not carry the hidden class. *)
Theorem hide_show_idempotent_inverse (el : NodeId) (w : World) :
  (is_hidden el w → hide (AnElement el) w = (Return tt, w))
  ∧ (¬ is_hidden el w → show (AnElement el) w = (Return tt, w))
  ∧ hide (AnElement el) (hide (AnElement el) w).2 = hide (AnElement el) w
  ∧ show (AnElement el) (show (AnElement el) w).2 = show (AnElement el) w
  ∧ (hide (AnElement el) w).1 = Return tt
  ∧ (show (AnElement el) (hide (AnElement el) w).2).1 = Return tt
  ∧ ¬ is_hidden el (show (AnElement el) (hide (AnElement el) w).2).2.
Proof.
  assert (Hhide : ∀ w', is_hidden el w' → hide (AnElement el) w' = (Return tt, w')).
  { intros w' Hin. rewrite hide_element_world. f_equal.
    apply with_document_id, update_node_id. intros e He.
    apply set_classList_id, classList_add_present.
    unfold is_hidden, classList_of, node_of in Hin. by rewrite He in Hin. }
  assert (Hshow : ∀ w', ¬ is_hidden el w' → show (AnElement el) w' = (Return tt, w')).
  { intros w' Hin. rewrite show_element_world. f_equal.
    apply with_document_id, update_node_id. intros e He.
    apply set_classList_id, classList_remove_absent.
    unfold is_hidden, classList_of, node_of in Hin. by rewrite He in Hin. }
  assert (Hshown : ∀ w', ¬ is_hidden el (show (AnElement el) w').2).
  { intros w'. rewrite show_element_world. simpl. unfold is_hidden.
    rewrite classList_of_update by done. apply classList_remove_not_elem. }
  split_and!.
  - apply Hhide.
  - apply Hshow.
  - rewrite !hide_element_world. simpl. f_equal.
    unfold with_document. simpl. f_equal.
    apply update_node_idem. intros e. apply set_classList_idem. intros l.
    apply classList_add_present, classList_add_elem.
  - rewrite !show_element_world. simpl. f_equal.
    unfold with_document. simpl. f_equal.
    apply update_node_idem. intros e. apply set_classList_idem. intros l.
    apply classList_remove_idem.
  - reflexivity.
  - reflexivity.
  - apply Hshown.
Qed.

(** C10.  [hide] and [show] on a node change nothing but the membership
    of the hidden class in that node's class list: the other classes stay
    (in their order), and so do the node's tag, id, style, other
    attributes and content, every other node, the tree, the timers, the
    promises and the event log.  [hide] leaves the class present, [show]
    absent. *)
Theorem hide_show_frame (el : NodeId) (w : World) :
  let wh := (hide (AnElement el) w).2 in
  let ws := (show (AnElement el) w).2 in
  (∀ e, node_of el w = Some e →
     ∃ eh es, node_of el wh = Some eh ∧ node_of el ws = Some es
       ∧ hidden_class ∈ classList eh ∧ (hidden_class ∉ classList es)
       ∧ classList_remove hidden_class (classList eh)
         = classList_remove hidden_class (classList e)
       ∧ classList_remove hidden_class (classList es)
         = classList_remove hidden_class (classList e)
       ∧ (∀ c, c ≠ hidden_class →
            (c ∈ classList eh ↔ c ∈ classList e) ∧ (c ∈ classList es ↔ c ∈ classList e))
       ∧ tagName eh = tagName e ∧ tagName es = tagName e
       ∧ idAttr eh = idAttr e ∧ idAttr es = idAttr e
       ∧ style_opacity eh = style_opacity e ∧ style_opacity es = style_opacity e
       ∧ attributes eh = attributes e ∧ attributes es = attributes e
       ∧ innerHTML eh = innerHTML e ∧ innerHTML es = innerHTML e)
  ∧ (node_of el w = None → wh = w ∧ ws = w)
  ∧ (∀ other, other ≠ el →
       node_of other wh = node_of other w ∧ node_of other ws = node_of other w)
  ∧ body (document wh) = body (document w) ∧ body (document ws) = body (document w)
  ∧ intervals wh = intervals w ∧ intervals ws = intervals w
  ∧ promises wh = promises w ∧ promises ws = promises w
  ∧ next_timer wh = next_timer w ∧ next_timer ws = next_timer w
  ∧ next_promise wh = next_promise w ∧ next_promise ws = next_promise w
  ∧ log wh = log w ∧ log ws = log w.
Proof.
  intros wh ws. subst wh ws. rewrite hide_element_world, show_element_world. simpl.
  split_and!; try reflexivity.
  - intros e He.
    exists (set_classList (classList_add hidden_class) e),
           (set_classList (classList_remove hidden_class) e).
    rewrite !node_of_update, He. simpl.
    split_and!; try reflexivity.
    + apply classList_add_elem.
    + apply classList_remove_not_elem.
    + apply classList_remove_add.
    + apply classList_remove_idem.
    + intros c Hc. split.
      * by apply classList_add_other.
      * by apply classList_remove_other.
  - intros Hnone. unfold node_of in Hnone.
    split; apply with_document_id, update_node_id; intros e He; congruence.
  - intros other Hne. by rewrite !node_of_update_ne.
Qed.

End Visibility.

(** ** Query helpers and element normalisation *)

(** The first element that passes a test and the ones before it. *)
Lemma head_filter_Some {A} (f : A → bool) (l : list A) (x : A) :
  head (List.filter f l) = Some x →
  ∃ before after, l = before ++ x :: after ∧ f x = true
                  ∧ ∀ y, y ∈ before → f y = false.
Proof.
  induction l as [|a l IH]; simpl; [done|].
  destruct (f a) eqn:Hfa; simpl.
  - intros [= ->]. exists [], l. split_and!; [done|done|].
    intros y Hy. by apply elem_of_nil in Hy.
  - intros Hhead. destruct (IH Hhead) as (before & after & -> & Hx & Hbefore).
    exists (a :: before), after. split_and!; [done|done|].
    intros y Hy. apply elem_of_cons in Hy as [->|Hy]; auto.
Qed.

Lemma head_filter_None {A} (f : A → bool) (l : list A) :
  head (List.filter f l) = None → ∀ y, y ∈ l → f y = false.
Proof.
  induction l as [|a l IH]; simpl; intros Hhead y Hy.
  - by apply elem_of_nil in Hy.
  - destruct (f a) eqn:Hfa; simpl in Hhead; [done|].
    apply elem_of_cons in Hy as [->|Hy]; auto.
Qed.

Lemma emit_all_nil w : emit_all [] w = w.
Proof. destruct w. unfold emit_all. simpl. by rewrite app_nil_r. Qed.

Lemma emit_all_cons e es w : emit_all es (emit e w) = emit_all (e :: es) w.
Proof. unfold emit_all, emit. simpl. by rewrite <- app_assoc. Qed.

Section Queries.
Context `{host : Host}.

Lemma for_of_map_in_order {R} (callback : NodeId → M R) ns acc w :
  for_of ns callback acc w
  = match map_in_order callback ns w with
    | (Return rs, w') => (Return (acc ++ rs), w')
    | (Throw e, w') => (Throw e, w')
    end.
Proof.
  revert acc w. induction ns as [|el rest IH]; intros acc w; simpl.
  - unfold_monad. by rewrite app_nil_r.
  - unfold_monad. destruct (callback el w) as [[r|e] w1]; [|done].
    rewrite IH. destruct (map_in_order callback rest w1) as [[rs|e] w2]; [|done].
    by rewrite <- app_assoc.
Qed.

Lemma findAll_pure selector scope w : (findAll selector scope w).2 = w.
Proof.
  unfold findAll, or_body, querySelectorAll. unfold_monad.
  destruct scope, (parse_selector selector); reflexivity.
Qed.

Lemma elementMap_normalize {R} elements (callback : NodeId → M R) w :
  elementMap elements callback w
  = match normalize elements w with
    | Return ns => map_in_order callback ns w
    | Throw e => (Throw e, w)
    end.
Proof.
  destruct elements as [el|selector|items|]; simpl.
  - unfold_monad. destruct (callback el w) as [[r|e] w1]; [|done].
    unfold_monad. reflexivity.
  - unfold_monad. pose proof (findAll_pure selector None w) as Hpure.
    destruct (findAll selector None w) as [[ns|e] w1]; simpl in *; subst w1; [|done].
    rewrite for_of_map_in_order.
    by destruct (map_in_order callback ns w) as [[rs|e] w2].
  - unfold_monad. rewrite for_of_map_in_order.
    by destruct (map_in_order callback items w) as [[rs|e] w2].
  - reflexivity.
Qed.

Lemma map_in_order_traced {R} (f : NodeId → R) ns w :
  map_in_order (traced f) ns w = (Return (map f ns), emit_all (map EvCallback ns) w).
Proof.
  revert w. induction ns as [|el rest IH]; intros w; simpl.
  - unfold_monad. by rewrite emit_all_nil.
  - unfold_monad. unfold traced at 1. rewrite IH. by rewrite emit_all_cons.
Qed.

(** C5.  [elementMap] is the in-order traversal of the normalised input:
    for any callback, effects and exceptions included, it equals
    [map_in_order] over the resolved nodes.  With a callback that traces
    its invocations: a single node gives one invocation and a one-element
    result; a selector with matches [ns] (tree order) gives the
    invocations [ns] and the results [map f ns], so [n] matches give [n]
    invocations; an empty collection, and any input that is neither a
    node, a string nor an iterable, gives no invocation, the empty result
    and no exception. *)
Theorem elementMap_in_order {R} (f : NodeId → R) (w : World) :
  (∀ elements (callback : NodeId → M R),
     elementMap elements callback w
     = match normalize elements w with
       | Return ns => map_in_order callback ns w
       | Throw e => (Throw e, w)
       end)
  ∧ (∀ el, elementMap (AnElement el) (traced f) w
           = (Return [f el], emit_all [EvCallback el] w))
  ∧ (∀ selector s,
       parse_selector selector = Some s →
       let ns := List.filter (selector_matches s (document w) (body (document w)))
                             (descendants (body (document w))) in
       elementMap (ASelector selector) (traced f) w
       = (Return (map f ns), emit_all (map EvCallback ns) w)
       ∧ length (map f ns) = length ns
       ∧ length (map EvCallback ns) = length ns)
  ∧ (∀ items, elementMap (ACollection items) (traced f) w
              = (Return (map f items), emit_all (map EvCallback items) w))
  ∧ elementMap (ACollection []) (traced f) w = (Return [], w)
  ∧ elementMap Other (traced f) w = (Return [], w).
Proof.
  split_and!.
  - intros elements callback. apply elementMap_normalize.
  - intros el. rewrite elementMap_normalize. cbn [normalize].
    by rewrite map_in_order_traced.
  - intros selector s Hs ns. split_and!; [|by rewrite length_map..].
    rewrite elementMap_normalize. cbn [normalize].
    unfold findAll, or_body, querySelectorAll. rewrite Hs. unfold_monad. simpl.
    by rewrite map_in_order_traced.
  - intros items. rewrite elementMap_normalize. cbn [normalize].
    by rewrite map_in_order_traced.
  - rewrite elementMap_normalize. simpl. unfold_monad. reflexivity.
  - reflexivity.
Qed.

End Queries.

(** ** Which exceptions the library raises *)

Lemma string_append_assoc (a b c : string) : (a +:+ b) +:+ c = a +:+ (b +:+ c).
Proof.
  induction a as [|x a IH]; [done|].
  change (String x ((a +:+ b) +:+ c) = String x (a +:+ (b +:+ c))).
  by rewrite IH.
Qed.

Lemma append_cons c (s t : string) : String c s +:+ t = String c (s +:+ t).
Proof. reflexivity. Qed.

Lemma append_empty_r (s : string) : s +:+ EmptyString = s.
Proof.
  induction s as [|c s IH]; [done|]. by rewrite append_cons, IH.
Qed.

Lemma rev_string_append (s t acc : string) :
  rev_string (s +:+ t) acc = rev_string t (rev_string s acc).
Proof.
  revert acc. induction s as [|c s IH]; intros acc; [done|].
  rewrite append_cons. simpl. apply IH.
Qed.

Lemma rev_string_twice (s acc acc' : string) :
  rev_string (rev_string s acc) acc' = rev_string acc (s +:+ acc').
Proof.
  revert acc acc'. induction s as [|c s IH]; intros acc acc'; [done|].
  simpl. by rewrite IH.
Qed.

Lemma rev_string_involutive (s : string) :
  rev_string (rev_string s EmptyString) EmptyString = s.
Proof. rewrite rev_string_twice. simpl. apply append_empty_r. Qed.


Lemma raises_Error_Throw {A} (e : JsError) :
  @raises_Error A (Throw e) ↔ ∃ message, e = Error message.
Proof.
  unfold raises_Error. split; intros [m Hm]; exists m; congruence.
Qed.

Lemma raises_Error_retype {A B} (e : JsError) :
  @raises_Error A (Throw e) → @raises_Error B (Throw e).
Proof. rewrite !raises_Error_Throw. auto. Qed.

Lemma raises_Error_Return {A} (a : A) : ¬ raises_Error (Return a).
Proof. by intros [m Hm]. Qed.

Section Exceptions.
Context `{host : Host}.

Lemma querySelectorAll_result selector scope w :
  querySelectorAll selector scope w
  = match parse_selector selector with
    | Some s => (Return (List.filter (selector_matches s (document w) scope)
                                     (descendants scope)), w)
    | None => (Throw (SyntaxError selector), w)
    end.
Proof. unfold querySelectorAll. by destruct (parse_selector selector). Qed.

Lemma find_result selector scope w :
  find selector scope w
  = let t := default (body (document w)) scope in
    match parse_selector selector with
    | Some s => (Return (head (List.filter (selector_matches s (document w) t)
                                           (descendants t))), w)
    | None => (Throw (SyntaxError selector), w)
    end.
Proof.
  unfold find, or_body, querySelector. unfold_monad.
  destruct scope as [t|]; simpl; rewrite querySelectorAll_result;
    by destruct (parse_selector selector).
Qed.

Lemma findAll_result selector scope w :
  findAll selector scope w
  = let t := default (body (document w)) scope in
    match parse_selector selector with
    | Some s => (Return (List.filter (selector_matches s (document w) t)
                                     (descendants t)), w)
    | None => (Throw (SyntaxError selector), w)
    end.
Proof.
  unfold findAll, or_body. unfold_monad.
  destruct scope as [t|]; simpl; rewrite querySelectorAll_result;
    by destruct (parse_selector selector).
Qed.

Lemma get_result selector scope w :
  get selector scope w
  = match find selector scope w with
    | (Return (Some el), w') => (Return el, w')
    | (Return None, w') => (Throw (Error (not_found_message selector)), w')
    | (Throw e, w') => (Throw e, w')
    end.
Proof.
  unfold get. unfold_monad.
  by destruct (find selector scope w) as [[[el|]|e] w'].
Qed.

Lemma find_no_Error selector scope w : ¬ raises_Error (find selector scope w).1.
Proof.
  rewrite find_result. simpl. destruct (parse_selector selector); by intros [m Hm].
Qed.

Lemma findAll_no_Error selector scope w : ¬ raises_Error (findAll selector scope w).1.
Proof.
  rewrite findAll_result. simpl. destruct (parse_selector selector); by intros [m Hm].
Qed.

Lemma map_in_order_no_Error {R} (callback : NodeId → M R) ns w :
  (∀ el w', ¬ raises_Error (callback el w').1) →
  ¬ raises_Error (map_in_order callback ns w).1.
Proof.
  intros Hcb. revert w. induction ns as [|el rest IH]; intros w; simpl.
  - by intros [m Hm].
  - unfold_monad. specialize (Hcb el w).
    destruct (callback el w) as [[r|e] w1]; simpl in *.
    2: { intros Hr. apply Hcb. revert Hr. apply raises_Error_retype. }
    specialize (IH w1).
    destruct (map_in_order callback rest w1) as [[rs|e] w2]; simpl in *.
    2: { intros Hr. apply IH. revert Hr. apply raises_Error_retype. }
    apply raises_Error_Return.
Qed.

Lemma elementMap_no_Error {R} elements (callback : NodeId → M R) w :
  (∀ el w', ¬ raises_Error (callback el w').1) →
  ¬ raises_Error (elementMap elements callback w).1.
Proof.
  intros Hcb. rewrite elementMap_normalize.
  destruct (normalize elements w) as [ns|e] eqn:Hn.
  - by apply map_in_order_no_Error.
  - destruct elements as [el|selector|items|]; simpl in Hn; try done.
    pose proof (findAll_no_Error selector None w) as Hno. rewrite Hn in Hno.
    simpl. intros Hr. apply Hno. revert Hr. apply raises_Error_retype.
Qed.

Lemma bind_unit_no_Error {A} (m : M A) w :
  ¬ raises_Error (m w).1 → ¬ raises_Error ((_ ← m; mret tt) w).1.
Proof.
  unfold_monad. destruct (m w) as [[a|e] w1]; simpl.
  - intros _. apply raises_Error_Return.
  - intros Hno Hr. apply Hno. revert Hr. apply raises_Error_retype.
Qed.

Lemma hide_no_Error element w : ¬ raises_Error (hide element w).1.
Proof.
  destruct element as [el|selector|items|];
    [by intros [m Hm] | apply bind_unit_no_Error, elementMap_no_Error ..];
    by intros el w' [m Hm].
Qed.

Lemma show_no_Error element w : ¬ raises_Error (show element w).1.
Proof.
  destruct element as [el|selector|items|];
    [by intros [m Hm] | apply bind_unit_no_Error, elementMap_no_Error ..];
    by intros el w' [m Hm].
Qed.

Lemma fadeIn_element_returns el toOpacity delay w :
  ∃ p w', fadeIn_element el toOpacity delay w = (Return p, w').
Proof. unfold fadeIn_element, read_style_opacity. unfold_monad. simpl. eauto. Qed.

Lemma fadeOut_element_returns el toOpacity delay w :
  ∃ p w', fadeOut_element el toOpacity delay w = (Return p, w').
Proof. unfold fadeOut_element, read_style_opacity. unfold_monad. simpl. eauto. Qed.

Lemma bind_Promise_resolve_no_Error {A} (m : M A) w :
  ¬ raises_Error (m w).1 → ¬ raises_Error ((_ ← m; Promise_resolve) w).1.
Proof.
  unfold_monad. destruct (m w) as [[a|e] w1]; simpl.
  - intros _. apply raises_Error_Return.
  - intros Hno Hr. apply Hno. revert Hr. apply raises_Error_retype.
Qed.

Lemma fadeIn_no_Error element toOpacity delay w :
  ¬ raises_Error (fadeIn element toOpacity delay w).1.
Proof.
  unfold fadeIn.
  destruct element as [el|selector|items|];
    [ destruct (fadeIn_element_returns el (default 1%float toOpacity)
                  (default 50%float delay) w) as (p & w' & ->); by intros [m Hm]
    | apply bind_Promise_resolve_no_Error, elementMap_no_Error .. ];
    intros el w';
    destruct (fadeIn_element_returns el (default 1%float toOpacity)
                (default 50%float delay) w') as (p & w'' & ->); by intros [m Hm].
Qed.

Lemma fadeOut_no_Error element toOpacity delay w :
  ¬ raises_Error (fadeOut element toOpacity delay w).1.
Proof.
  unfold fadeOut.
  destruct element as [el|selector|items|];
    [ destruct (fadeOut_element_returns el (default 0%float toOpacity)
                  (default 50%float delay) w) as (p & w' & ->); by intros [m Hm]
    | apply bind_Promise_resolve_no_Error, elementMap_no_Error .. ];
    intros el w';
    destruct (fadeOut_element_returns el (default 0%float toOpacity)
                (default 50%float delay) w') as (p & w'' & ->); by intros [m Hm].
Qed.

Lemma htmlToElement_no_Error html wrapperTag :
  ¬ raises_Error (htmlToElement html wrapperTag).
Proof.
  unfold htmlToElement, createElement.
  destruct (valid_element_name (default "template" wrapperTag)).
  - destruct (truthy wrapperTag); [by intros [m Hm]|].
    destruct (instanceof_HTMLTemplateElement _); by intros [m Hm].
  - by intros [m Hm].
Qed.

(** The only exception that evaluating an expression of the fragment can
    raise is the ReferenceError of a name that nothing binds. *)
Lemma eval_expr_Throw bound e err :
  eval_expr bound e = Some (Throw err) →
  ∃ x, err = ReferenceError x ∧ resolve_name x bound = None.
Proof.
  induction e as [x|z|a IHa b IHb]; simpl.
  - destruct (resolve_name x bound) eqn:Hx; [done|]. intros [= <-]. eauto.
  - done.
  - destruct (eval_expr bound a) as [[va|ea]|]; [|auto|done].
    destruct (eval_expr bound b) as [[vb|eb]|]; [|auto|done].
    simpl. by destruct (js_add va vb).
Qed.

Lemma eval_template_Throw bound parts out err :
  eval_template bound parts out = Some (Throw err) →
  ∃ x, err = ReferenceError x ∧ resolve_name x bound = None.
Proof.
  revert out. induction parts as [|[text|e] rest IH]; intros out; simpl.
  - done.
  - apply IH.
  - destruct (eval_expr bound e) as [[v|ee]|] eqn:He; [| |done].
    + destruct (ToString v); simpl; [apply IH|done].
    + intros [= <-]. by apply eval_expr_Throw in He.
Qed.

Lemma interpolate_no_Error str params r :
  interpolate str params = Some r → ¬ raises_Error r.
Proof.
  unfold interpolate, call_new_Function.
  destruct (forallb is_identifier_name (map fst params)); [|done].
  destruct (existsb is_reserved (map fst params)).
  - intros [= <-] [m Hm]. done.
  - destruct (forallb _ _); [|done].
    destruct (parse_body _) as [parts|]; simpl; [|done].
    intros Heval [m ->]. apply eval_template_Throw in Heval as (x & Hx & _). done.
Qed.

(** C6.  For a selector [selector] (a string the host's selector parser
    accepts) and a scope: [find] does not raise and does not change the
    world; it returns the first descendant of the scope, in tree order,
    that matches, and no node exactly when none matches.  [get] returns
    the same node, and when there is none raises [Error] with a message
    that contains the selector text.  [loadTemplate] raises that same
    error, with the selector [#id], when the template is missing.  No
    other function of the library raises an [Error]: for any input
    [find], [findAll], [hide], [show], [fadeIn], [fadeOut],
    [htmlToElement] and [interpolate] raise none, and [get] and
    [loadTemplate] raise none but the one above. *)
Theorem find_get_not_found (selector : string) (s : Selector)
    (scope : option Tree) (w : World) :
  parse_selector selector = Some s →
  let t := default (body (document w)) scope in
  let matching := selector_matches s (document w) t in
  (∃ r, find selector scope w = (Return r, w)
     ∧ match r with
       | Some el =>
           (∃ before after, descendants t = before ++ el :: after
              ∧ matching el = true ∧ ∀ y, y ∈ before → matching y = false)
           ∧ get selector scope w = (Return el, w)
       | None =>
           (∀ y, y ∈ descendants t → matching y = false)
           ∧ get selector scope w = (Throw (Error (not_found_message selector)), w)
       end)
  ∧ (∃ pre post, not_found_message selector = pre +:+ selector +:+ post)
  ∧ (∀ id sid params,
       parse_selector ("#" +:+ id) = Some sid →
       (∀ y, y ∈ descendants (body (document w)) →
             selector_matches sid (document w) (body (document w)) y = false) →
       loadTemplate id params w
       = Some (Throw (Error (not_found_message ("#" +:+ id))), w))
  ∧ (∀ sel sc w' m, (get sel sc w').1 = Throw (Error m) → m = not_found_message sel)
  ∧ (∀ id params w' w'' m,
       loadTemplate id params w' = Some (Throw (Error m), w'') →
       m = not_found_message ("#" +:+ id))
  ∧ (∀ sel sc w', ¬ raises_Error (find sel sc w').1)
  ∧ (∀ sel sc w', ¬ raises_Error (findAll sel sc w').1)
  ∧ (∀ element w', ¬ raises_Error (hide element w').1)
  ∧ (∀ element w', ¬ raises_Error (show element w').1)
  ∧ (∀ element toOpacity delay w',
       ¬ raises_Error (fadeIn element toOpacity delay w').1)
  ∧ (∀ element toOpacity delay w',
       ¬ raises_Error (fadeOut element toOpacity delay w').1)
  ∧ (∀ html wrapperTag, ¬ raises_Error (htmlToElement html wrapperTag))
  ∧ (∀ str params r, interpolate str params = Some r → ¬ raises_Error r).
Proof.
  intros Hs t matching.
  assert (Hget : ∀ sel sc w' m,
            (get sel sc w').1 = Throw (Error m) → m = not_found_message sel).
  { intros sel sc w' m. rewrite get_result.
    pose proof (find_no_Error sel sc w') as Hno.
    destruct (find sel sc w') as [[[el|]|e] w1]; simpl in *; [done| |].
    - by intros [= <-].
    - intros [= ->]. destruct Hno. by eexists. }
  split_and!.
  - exists (head (List.filter matching (descendants t))). split.
    { rewrite find_result. simpl. by rewrite Hs. }
    rewrite get_result, find_result. simpl. rewrite Hs. fold t. fold matching.
    destruct (head (List.filter matching (descendants t))) as [el|] eqn:Hhead.
    + split; [|done]. by apply head_filter_Some.
    + split; [|done]. by apply head_filter_None.
  - exists ("The " +:+ dquote), (dquote +:+ " element was not found").
    unfold not_found_message. by rewrite !string_append_assoc.
  - intros id sid params Hsid Hnone. unfold loadTemplate.
    rewrite get_result, find_result. simpl. rewrite Hsid.
    destruct (head _) as [el|] eqn:Hhead; [|done].
    apply head_filter_Some in Hhead as (before & after & Hd & Hm & _).
    rewrite Hnone in Hm; [done|]. rewrite Hd. apply elem_of_app. right. left.
  - apply Hget.
  - intros id params w' w'' m. unfold loadTemplate.
    destruct (get ("#" +:+ id) None w') as [[template|e] w1] eqn:Hg.
    + destruct (interpolate _ params) as [r|] eqn:Hi; simpl; [|done].
      intros [= -> _]. apply interpolate_no_Error in Hi. destruct Hi. by eexists.
    + intros [= -> _]. apply (Hget ("#" +:+ id) None w'). by rewrite Hg.
  - apply find_no_Error.
  - apply findAll_no_Error.
  - apply hide_no_Error.
  - apply show_no_Error.
  - apply fadeIn_no_Error.
  - apply fadeOut_no_Error.
  - apply htmlToElement_no_Error.
  - apply interpolate_no_Error.
Qed.

End Exceptions.

(** ** Fades *)

Lemma update_node_compose el f g d :
  update_node el g (update_node el f d) = update_node el (g ∘ f) d.
Proof.
  destruct d as [b m]. unfold update_node. simpl. f_equal.
  apply map_eq. intros i. destruct (decide (el = i)) as [->|Hne].
  - rewrite !lookup_alter_eq. by destruct (m !! i).
  - by rewrite !lookup_alter_ne.
Qed.

Lemma update_node_ext el f g d :
  (∀ e, f e = g e) → update_node el f d = update_node el g d.
Proof.
  intros Hfg. destruct d as [b m]. unfold update_node. simpl. f_equal.
  apply map_eq. intros i. destruct (decide (el = i)) as [->|Hne].
  - rewrite !lookup_alter_eq. destruct (m !! i); simpl; [by rewrite Hfg|done].
  - by rewrite !lookup_alter_ne.
Qed.

Lemma alter_set_tracked_twice x y t (m : gmap TimerId Interval) :
  alter (set_tracked y) t (alter (set_tracked x) t m) = alter (set_tracked y) t m.
Proof.
  apply map_eq. intros i. destruct (decide (t = i)) as [->|Hne].
  - rewrite !lookup_alter_eq. by destruct (m !! i).
  - by rewrite !lookup_alter_ne.
Qed.

Lemma delete_alter_same {A} (f : A → A) t (m : gmap TimerId A) :
  delete t (alter f t m) = delete t m.
Proof.
  apply map_eq. intros i. destruct (decide (t = i)) as [->|Hne].
  - by rewrite !lookup_delete_eq.
  - by rewrite !lookup_delete_ne, lookup_alter_ne.
Qed.

Lemma continue_node_twice k c x y e :
  continue_node k c y (continue_node k c x e) = continue_node k c y e.
Proof.
  destruct k; simpl; [|done]. destruct (js_gt c 0); [|done].
  unfold set_style_opacity, set_classList. simpl. by rewrite classList_remove_idem.
Qed.

Lemma tracked_succ_r k n x : tracked k (S n) x = tracked k n (fade_step k x).
Proof. unfold tracked. apply Nat.iter_succ_r. Qed.

Section Ticks.
Context `{host : Host}.

Lemma fire_cleared t w : intervals w !! t = None → fire t w = w.
Proof. intros Hnone. unfold fire. by rewrite Hnone. Qed.

Lemma fire_n_cleared n t w : intervals w !! t = None → fire_n n t w = w.
Proof.
  intros Hnone. induction n as [|n IH]; simpl; [done|]. by rewrite fire_cleared.
Qed.

Lemma fire_n_succ_r n t w : fire_n (S n) t w = fire t (fire_n n t w).
Proof.
  revert w. induction n as [|n IH]; intros w; [done|].
  change (fire_n (S (S n)) t w) with (fire_n (S n) t (fire t w)). by rewrite IH.
Qed.

(** A tick that does not cross the target. *)
Lemma fire_continue k t el x c p d w :
  intervals w !! t = Some (mkInterval (mkHandler k el x c p) d) →
  crossed k (fade_step k x) c = false →
  fire t w
  = mkWorld (update_node el (continue_node k c (fade_step k x)) (document w))
            (alter (set_tracked (fade_step k x)) t (intervals w))
            (next_timer w) (promises w) (next_promise w) (log w ++ [EvTick t]).
Proof.
  intros Ht Hcross. unfold fire. rewrite Ht.
  destruct k; simpl in *; unfold run_handler; simpl.
  - unfold fadeIn_tick. simpl. rewrite Hcross. unfold_monad.
    unfold assign_opacity, write_style_opacity, String_of_number. unfold_monad.
    unfold continue_node, show, show_element. unfold_monad.
    destruct (js_gt c 0); simpl; unfold with_document, with_intervals, emit; simpl;
      [by rewrite update_node_compose|done].
  - unfold fadeOut_tick. simpl. rewrite Hcross. unfold_monad.
    unfold assign_opacity, write_style_opacity, String_of_number. unfold_monad.
    reflexivity.
Qed.

(** The tick that crosses the target. *)
Lemma fire_finish k t el x c p d w :
  intervals w !! t = Some (mkInterval (mkHandler k el x c p) d) →
  crossed k (fade_step k x) c = true →
  fire t w
  = mkWorld (update_node el (finish_node k c) (document w))
            (delete t (intervals w))
            (next_timer w) (alter (λ _, Fulfilled) p (promises w)) (next_promise w)
            (log w ++ [EvTick t; EvResolve p; EvClearInterval t]).
Proof.
  intros Ht Hcross. unfold fire. rewrite Ht.
  destruct k; simpl in *; unfold run_handler; simpl.
  - unfold fadeIn_tick. simpl. rewrite Hcross. unfold_monad.
    unfold assign_opacity, resolve, clearInterval. unfold_monad.
    unfold finish_node, show, show_element. unfold_monad.
    destruct (js_gt c 0); simpl;
      unfold with_document, with_intervals, with_promises, emit; simpl;
      rewrite delete_alter_same, <- !app_assoc; simpl; [done|].
    f_equal. symmetry. apply update_node_id. done.
  - unfold fadeOut_tick. simpl. rewrite Hcross. unfold_monad.
    unfold assign_opacity, resolve, clearInterval. unfold_monad. simpl.
    unfold with_document, with_intervals, with_promises, emit; simpl.
    by rewrite delete_alter_same, <- !app_assoc.
Qed.

(** [n + 1] ticks none of which crosses the target. *)
Lemma fire_n_running k t el c p d (n : nat) x w :
  intervals w !! t = Some (mkInterval (mkHandler k el x c p) d) →
  (∀ i : nat, (i ≤ n)%nat → crossed k (tracked k (S i) x) c = false) →
  fire_n (S n) t w
  = mkWorld (update_node el (continue_node k c (tracked k (S n) x)) (document w))
            (alter (set_tracked (tracked k (S n) x)) t (intervals w))
            (next_timer w) (promises w) (next_promise w)
            (log w ++ repeat (EvTick t) (S n)).
Proof.
  revert x w. induction n as [|n IH]; intros x w Ht Hno.
  - simpl fire_n. apply (fire_continue k t el x c p d w Ht). apply (Hno 0). lia.
  - change (fire_n (S (S n)) t w) with (fire_n (S n) t (fire t w)).
    assert (Hfirst : crossed k (fade_step k x) c = false) by (apply (Hno 0); lia).
    rewrite (fire_continue k t el x c p d w Ht Hfirst).
    rewrite (IH (fade_step k x)).
    + simpl. rewrite update_node_compose, alter_set_tracked_twice, <- app_assoc.
      rewrite <- !tracked_succ_r. f_equal.
      apply update_node_ext. intros e. apply continue_node_twice.
    + simpl. rewrite lookup_alter_eq, Ht. reflexivity.
    + intros i Hi. rewrite <- tracked_succ_r. apply Hno. lia.
Qed.

End Ticks.

(** ** Order facts on binary64 numbers *)

Lemma lex_lt_true (e1 e2 : Z) (m1 m2 : positive) :
  is_Lt (match (e1 ?= e2)%Z with
         | Eq => (m1 ?= m2)%positive | Lt => Lt | Gt => Gt
         end) = true
  ↔ (e1 < e2)%Z ∨ (e1 = e2 ∧ (m1 < m2)%positive).
Proof.
  destruct (Z.compare_spec e1 e2); simpl.
  - unfold Pos.lt. destruct (m1 ?= m2)%positive; simpl;
      intuition (try discriminate; try lia).
  - intuition lia.
  - intuition (try discriminate; try lia).
Qed.

Lemma lex_lt_false (e1 e2 : Z) (m1 m2 : positive) :
  is_Lt (match (e1 ?= e2)%Z with
         | Eq => (m1 ?= m2)%positive | Lt => Lt | Gt => Gt
         end) = false
  ↔ (e2 < e1)%Z ∨ (e1 = e2 ∧ (m2 <= m1)%positive).
Proof.
  destruct (Z.compare_spec e1 e2); simpl.
  - unfold Pos.le. rewrite (Pos.compare_antisym m1 m2).
    destruct (m1 ?= m2)%positive; simpl; intuition (try discriminate; try lia).
  - intuition (try discriminate; try lia).
  - intuition lia.
Qed.

Lemma Prim2SF_one : Prim2SF 1 = S754_finite false 4503599627370496 (-52).
Proof. reflexivity. Qed.

Lemma Prim2SF_zero : Prim2SF 0 = S754_zero false.
Proof. reflexivity. Qed.

(** [c <= 1 < y] gives [c < y]. *)
Lemma below_one_lt (c y : float) :
  PrimFloat.ltb 1 c = false → PrimFloat.eqb c c = true →
  PrimFloat.ltb 1 y = true → PrimFloat.ltb c y = true.
Proof.
  rewrite !FloatAxioms.ltb_spec, FloatAxioms.eqb_spec, Prim2SF_one.
  unfold SFltb, SFeqb.
  destruct (Prim2SF c) as [sc|sc| |sc mc ec], (Prim2SF y) as [sy|sy| |sy my ey];
    cbn [SFcompare].
  all: try discriminate.
  all: try (destruct sc); try (destruct sy).
  all: try discriminate.
  all: try (intros _ _ _; reflexivity).
  change (Pos.compare_cont Eq ?a ?b) with (Pos.compare a b).
  fold (is_Lt (match (-52 ?= ec)%Z with
               | Eq => (4503599627370496 ?= mc)%positive | Lt => Lt | Gt => Gt
               end)).
  fold (is_Lt (match (-52 ?= ey)%Z with
               | Eq => (4503599627370496 ?= my)%positive | Lt => Lt | Gt => Gt
               end)).
  fold (is_Lt (match (ec ?= ey)%Z with
               | Eq => (mc ?= my)%positive | Lt => Lt | Gt => Gt
               end)).
  rewrite lex_lt_false, !lex_lt_true.
  generalize 4503599627370496%positive (-52)%Z. intros m1 e1 H1 _ H2. lia.
Qed.

(** [y < 0 <= c] gives [y < c]. *)
Lemma above_zero_lt (c y : float) :
  PrimFloat.ltb c 0 = false → PrimFloat.eqb c c = true →
  PrimFloat.ltb y 0 = true → PrimFloat.ltb y c = true.
Proof.
  rewrite !FloatAxioms.ltb_spec, FloatAxioms.eqb_spec, Prim2SF_zero.
  unfold SFltb, SFeqb.
  destruct (Prim2SF c) as [sc|sc| |sc mc ec], (Prim2SF y) as [sy|sy| |sy my ey];
    cbn [SFcompare].
  all: try discriminate.
  all: try (destruct sc); try (destruct sy).
  all: try discriminate.
  all: try (intros _ _ _; reflexivity).
Qed.

Lemma clamp_in_unit_range (toOpacity : float) :
  PrimFloat.is_nan toOpacity = false → in_unit_range (clamp toOpacity).
Proof.
  intros Hnan. unfold PrimFloat.is_nan in Hnan. apply negb_false_iff in Hnan.
  unfold in_unit_range, clamp, js_gt, js_lt.
  destruct (PrimFloat.ltb 1 toOpacity) eqn:H1.
  - replace (PrimFloat.ltb 1 0) with false by reflexivity. split_and!; reflexivity.
  - destruct (PrimFloat.ltb toOpacity 0) eqn:H0.
    + split_and!; reflexivity.
    + split_and!; assumption.
Qed.

(** A target that is no number compares false with everything. *)
Lemma nan_unordered (c x : float) :
  PrimFloat.is_nan c = true → PrimFloat.ltb x c = false ∧ PrimFloat.ltb c x = false.
Proof.
  unfold PrimFloat.is_nan. rewrite negb_true_iff.
  rewrite !FloatAxioms.ltb_spec, FloatAxioms.eqb_spec. unfold SFltb, SFeqb.
  destruct (Prim2SF c) as [sc|sc| |sc mc ec]; cbn [SFcompare].
  - discriminate.
  - destruct sc; discriminate.
  - intros _. by destruct (Prim2SF x).
  - destruct sc; rewrite Z.compare_refl.
    + change (Pos.compare_cont Eq mc mc) with (mc ?= mc)%positive.
      rewrite Pos.compare_refl. discriminate.
    + change (Pos.compare_cont Eq mc mc) with (mc ?= mc)%positive.
      rewrite Pos.compare_refl. discriminate.
Qed.

Lemma clamp_nan (c : float) : PrimFloat.is_nan c = true → clamp c = c.
Proof.
  intros Hnan. unfold clamp, js_gt, js_lt.
  destruct (nan_unordered c 1 Hnan) as [-> _].
  by destruct (nan_unordered c 0 Hnan) as [_ ->].
Qed.

Lemma crossed_nan k x c : PrimFloat.is_nan c = true → crossed k x c = false.
Proof.
  intros Hnan. destruct k; simpl; unfold js_gt, js_lt.
  - by destruct (nan_unordered c x Hnan) as [_ ->].
  - by destruct (nan_unordered c x Hnan) as [-> _].
Qed.

(** ** Binary64 arithmetic and the real numbers *)

(** The value of a binary64 number as a real number, and how far the
    rounded result of [*], [+], [-] and [/] lies from the exact one:
    every result of absolute value at most [2^K] is within [2^(K-50)] of
    the exact value. *)

Section Powers.
Local Open Scope R_scope.

Lemma bpow_pos e : 0 < powerRZ 2 e.
Proof. apply powerRZ_lt. lra. Qed.

Lemma bpow_add a b : powerRZ 2 (a + b) = powerRZ 2 a * powerRZ 2 b.
Proof. apply powerRZ_add. lra. Qed.

Lemma bpow_succ e : powerRZ 2 (e + 1) = 2 * powerRZ 2 e.
Proof. rewrite bpow_add. simpl. lra. Qed.

Lemma bpow_ge_1 k : (0 <= k)%Z -> 1 <= powerRZ 2 k.
Proof.
  intros Hk. rewrite <- (Z2Nat.id k Hk), <- pow_powerRZ.
  apply pow_R1_Rle. lra.
Qed.

Lemma bpow_le a b : (a <= b)%Z -> powerRZ 2 a <= powerRZ 2 b.
Proof.
  intros Hab. replace b with (a + (b - a))%Z by lia. rewrite bpow_add.
  pose proof (bpow_pos a). pose proof (bpow_ge_1 (b - a) ltac:(lia)). nra.
Qed.

Lemma bpow_lt a b : (a < b)%Z -> powerRZ 2 a < powerRZ 2 b.
Proof.
  intros Hab. replace b with ((a + 1) + (b - a - 1))%Z by lia.
  rewrite bpow_add, bpow_succ.
  pose proof (bpow_pos a). pose proof (bpow_ge_1 (b - a - 1) ltac:(lia)). nra.
Qed.

Lemma bpow_lt_inv a b : powerRZ 2 a < powerRZ 2 b -> (a < b)%Z.
Proof.
  intros Hlt. destruct (Z_lt_le_dec a b) as [|Hle]; [assumption|].
  apply bpow_le in Hle. lra.
Qed.

Lemma IZR_pow2 k : (0 <= k)%Z -> IZR (2 ^ k) = powerRZ 2 k.
Proof.
  intros Hk. rewrite <- (Z2Nat.id k Hk), <- pow_powerRZ, <- pow_IZR. reflexivity.
Qed.

End Powers.

Lemma digits2_bounds p :
  (2 ^ (Zpos (digits2_pos p) - 1) <= Zpos p < 2 ^ Zpos (digits2_pos p))%Z.
Proof.
  induction p as [p IH|p IH|]; simpl digits2_pos.
  - rewrite Pos2Z.inj_succ.
    replace (Z.succ (Zpos (digits2_pos p)) - 1)%Z with (Z.succ (Zpos (digits2_pos p) - 1)) by lia.
    rewrite !Z.pow_succ_r by lia. lia.
  - rewrite Pos2Z.inj_succ.
    replace (Z.succ (Zpos (digits2_pos p)) - 1)%Z with (Z.succ (Zpos (digits2_pos p) - 1)) by lia.
    rewrite !Z.pow_succ_r by lia. lia.
  - simpl. lia.
Qed.

Section Magnitude.
Local Open Scope R_scope.

Lemma F2R_digits p e :
  powerRZ 2 (Zpos (digits2_pos p) + e - 1) <= F2R (Zpos p) e
  < powerRZ 2 (Zpos (digits2_pos p) + e).
Proof.
  destruct (digits2_bounds p) as [Hlo Hhi]. unfold F2R.
  replace (Zpos (digits2_pos p) + e - 1)%Z with ((Zpos (digits2_pos p) - 1) + e)%Z by lia.
  rewrite !bpow_add.
  rewrite <- (IZR_pow2 (Zpos (digits2_pos p) - 1)) by lia.
  rewrite <- (IZR_pow2 (Zpos (digits2_pos p))) by lia.
  apply IZR_le in Hlo. apply IZR_lt in Hhi. pose proof (bpow_pos e). split.
  - apply Rmult_le_compat_r; [lra|exact Hlo].
  - apply Rmult_lt_compat_r; [lra|exact Hhi].
Qed.

End Magnitude.

Section Shift.
Local Open Scope R_scope.

Lemma shr_record_of_loc_back m l :
  loc_of_shr_record (shr_record_of_loc m l) = l
  /\ shr_m (shr_record_of_loc m l) = m.
Proof. destruct l as [|[]]; split; reflexivity. Qed.

Lemma shr_1_located mrs e v :
  (0 <= shr_m mrs)%Z ->
  located v (shr_m mrs) e (loc_of_shr_record mrs) ->
  (0 <= shr_m (shr_1 mrs))%Z
  /\ located v (shr_m (shr_1 mrs)) (e + 1) (loc_of_shr_record (shr_1 mrs)).
Proof.
  destruct mrs as [m r s]. simpl shr_m. intros Hm Hloc.
  unfold located, F2R in *. rewrite bpow_succ.
  pose proof (bpow_pos e) as HP. set (P := powerRZ 2 e) in *.
  destruct m as [|p|p]; [| |lia].
  - simpl in *. split; [lia|].
    destruct r, s; simpl in *; repeat split; lra.
  - destruct p as [p|p|].
    + rewrite Pos2Z.inj_xI, !plus_IZR, !mult_IZR in Hloc.
      simpl shr_1. simpl shr_m. rewrite plus_IZR. split; [lia|].
      destruct r, s; simpl in *; repeat split; lra.
    + rewrite Pos2Z.inj_xO, !plus_IZR, !mult_IZR in Hloc.
      simpl shr_1. simpl shr_m. rewrite plus_IZR. split; [lia|].
      destruct r, s; simpl in *; repeat split; lra.
    + simpl shr_1. simpl shr_m. rewrite !plus_IZR in *. split; [lia|].
      destruct r, s; simpl in *; repeat split; lra.
Qed.

Lemma shr_iter_located p mrs e v :
  (0 <= shr_m mrs)%Z ->
  located v (shr_m mrs) e (loc_of_shr_record mrs) ->
  (0 <= shr_m (SpecFloat.iter_pos shr_1 p mrs))%Z
  /\ located v (shr_m (SpecFloat.iter_pos shr_1 p mrs)) (e + Zpos p)
             (loc_of_shr_record (SpecFloat.iter_pos shr_1 p mrs)).
Proof.
  revert mrs e. induction p as [p IH|p IH|]; intros mrs e Hm Hloc; simpl SpecFloat.iter_pos.
  - destruct (shr_1_located mrs e v Hm Hloc) as [H1 L1].
    destruct (IH _ _ H1 L1) as [H2 L2].
    destruct (IH _ _ H2 L2) as [H3 L3].
    split; [exact H3|].
    replace (e + Zpos p~1)%Z with (e + 1 + Zpos p + Zpos p)%Z by lia. exact L3.
  - destruct (IH _ _ Hm Hloc) as [H2 L2].
    destruct (IH _ _ H2 L2) as [H3 L3].
    split; [exact H3|].
    replace (e + Zpos p~0)%Z with (e + Zpos p + Zpos p)%Z by lia. exact L3.
  - apply shr_1_located; assumption.
Qed.

(** A shift keeps the location; the exponent after it is the larger of
    the two. *)
Lemma shr_fexp_located m e l v :
  (0 <= m)%Z -> located v m e l ->
  let '(mrs, e') := shr_fexp prec emax m e l in
  (0 <= shr_m mrs)%Z
  /\ located v (shr_m mrs) e' (loc_of_shr_record mrs)
  /\ e' = Z.max e (fexp prec emax (Zdigits2 m + e))
  /\ ((fexp prec emax (Zdigits2 m + e) <= e)%Z ->
      shr_m mrs = m /\ loc_of_shr_record mrs = l).
Proof.
  intros Hm Hloc. unfold shr_fexp, shr.
  destruct (shr_record_of_loc_back m l) as [Hl Hsm].
  destruct (fexp prec emax (Zdigits2 m + e) - e)%Z as [|n|n] eqn:Hn.
  - rewrite Hl, Hsm. repeat split; [assumption|assumption|lia].
  - destruct (shr_iter_located n (shr_record_of_loc m l) e v) as [H1 L1].
    + rewrite Hsm. assumption.
    + rewrite Hl, Hsm. assumption.
    + repeat split; [assumption|exact L1|lia|lia|lia].
  - rewrite Hl, Hsm. repeat split; [assumption|assumption|lia].
Qed.

End Shift.

Section Rounding.
Local Open Scope R_scope.

Lemma F2R_succ m e : F2R (m + 1) e = F2R m e + powerRZ 2 e.
Proof. unfold F2R. rewrite plus_IZR. ring. Qed.

Lemma located_bounds v m e l :
  located v m e l -> F2R m e <= v < F2R (m + 1) e.
Proof.
  unfold located. rewrite F2R_succ. pose proof (bpow_pos e).
  destruct l as [|c]; simpl; [intros ->; lra|]. intros [Hin _]. lra.
Qed.

Lemma round_nearest_even_near m l e v :
  (0 <= m)%Z -> located v m e l ->
  (0 <= round_nearest_even m l)%Z
  /\ v - powerRZ 2 e / 2 <= F2R (round_nearest_even m l) e <= v + powerRZ 2 e / 2
  /\ (l = loc_Exact -> F2R (round_nearest_even m l) e = v).
Proof.
  intros Hm. unfold located. rewrite F2R_succ. pose proof (bpow_pos e).
  destruct l as [|[| |]]; simpl.
  - intros ->. repeat split; [assumption|lra|lra].
  - intros [Hin Heq]. destruct (Z.even m); rewrite ?F2R_succ;
      repeat split; try lia; try lra; discriminate.
  - intros [Hin Hlt]. repeat split; [assumption|lra|lra|discriminate].
  - intros [Hin Hgt]. rewrite F2R_succ. repeat split; [lia|lra|lra|discriminate].
Qed.

(** The bounds below are for values of absolute value at most [2^K]; the
    rounded result is then within [2^(K-50)] of the exact one. *)
Variable K : Z.
Hypothesis K_range : (-1000 <= K <= 900)%Z.

Lemma fexp_small (x : Z) : (x <= K + 2)%Z -> (fexp prec emax x <= K - 51)%Z.
Proof. unfold fexp, emin, prec, emax. lia. Qed.

Lemma fexp_zero_digits e : (e < fexp prec emax (0 + e))%Z -> fexp prec emax (0 + e) = (-1074)%Z.
Proof. unfold fexp, emin, prec, emax. lia. Qed.

(** The exponent that the first shift gives to a value below [2^(K+1)]. *)
Lemma shift_exponent_small m e :
  (0 <= m)%Z -> F2R m e < powerRZ 2 (K + 1) ->
  (e < fexp prec emax (Zdigits2 m + e))%Z ->
  (fexp prec emax (Zdigits2 m + e) <= K - 51)%Z.
Proof.
  intros Hm Hv Hshift. destruct m as [|p|p]; [| |lia].
  - simpl Zdigits2 in *. rewrite (fexp_zero_digits e Hshift). lia.
  - simpl Zdigits2. apply fexp_small.
    destruct (F2R_digits p e) as [Hlo _].
    assert (Hlt : powerRZ 2 (Zpos (digits2_pos p) + e - 1) < powerRZ 2 (K + 1)) by lra.
    apply bpow_lt_inv in Hlt. lia.
Qed.

(** Rounding a value of at most [2^K] gives a finite number within
    [2^(K-50)] of it. *)
Lemma binary_round_aux_error sx m e l v :
  (0 <= m)%Z -> located v m e l ->
  l = loc_Exact \/ (e <= K - 51)%Z ->
  v <= powerRZ 2 K ->
  exists a,
    SF2R (binary_round_aux prec emax sx m e l) = (if sx then - a else a)
    /\ is_finite_SF (binary_round_aux prec emax sx m e l) = true
    /\ 0 <= a
    /\ v - powerRZ 2 (K - 50) <= a <= v + powerRZ 2 (K - 50).
Proof.
  intros Hm Hloc Hexp Hv. unfold binary_round_aux.
  pose proof (shr_fexp_located m e l v Hm Hloc) as H1.
  destruct (shr_fexp prec emax m e l) as [mrs1 e1].
  destruct H1 as (Hm1 & L1 & He1 & Hsame1).
  set (m1 := shr_m mrs1) in *. set (l1 := loc_of_shr_record mrs1) in *.
  destruct (round_nearest_even_near m1 l1 e1 v Hm1 L1) as (HM & Hnear & Hexact).
  set (M := round_nearest_even m1 l1) in *.
  destruct (located_bounds v m e l Hloc) as [Hvlo Hvhi].
  assert (Hv0 : 0 <= v).
  { unfold F2R in Hvlo. pose proof (bpow_pos e). apply IZR_le in Hm.
    assert (0 <= IZR m * powerRZ 2 e) by (apply Rmult_le_pos; lra). lra. }
  (* the powers of two at hand *)
  assert (Hp51 : powerRZ 2 (K - 51) = 2 * powerRZ 2 (K - 52))
    by (rewrite <- bpow_succ; f_equal; lia).
  assert (Hp50 : powerRZ 2 (K - 50) = 2 * powerRZ 2 (K - 51))
    by (rewrite <- bpow_succ; f_equal; lia).
  assert (HpK1 : powerRZ 2 (K + 1) = 2 * powerRZ 2 K) by apply bpow_succ.
  pose proof (bpow_pos (K - 52)) as Hpos52.
  pose proof (bpow_lt (K - 52) K ltac:(lia)) as Hlt52.
  (* the first shift *)
  assert (He1small : l1 <> loc_Exact -> (e1 <= K - 51)%Z).
  { intros Hl1. destruct (Z_lt_le_dec e (fexp prec emax (Zdigits2 m + e))) as [Hs|Hs].
    - rewrite He1, Z.max_r by lia. apply shift_exponent_small; [assumption| |assumption].
      lra.
    - destruct (Hsame1 Hs) as [_ Hl]. fold l1 in Hl.
      destruct Hexp as [->|He]; [congruence|]. lia. }
  assert (Herr1 : v - powerRZ 2 (K - 52) <= F2R M e1 <= v + powerRZ 2 (K - 52)).
  { destruct l1 as [|c] eqn:El1.
    - rewrite (Hexact eq_refl). lra.
    - assert (He : (e1 <= K - 51)%Z) by (apply He1small; discriminate).
      apply bpow_le in He. lra. }
  (* the second shift *)
  assert (L0 : located (F2R M e1) M e1 loc_Exact) by reflexivity.
  pose proof (shr_fexp_located M e1 loc_Exact (F2R M e1) HM L0) as H2.
  destruct (shr_fexp prec emax M e1 loc_Exact) as [mrs2 e2].
  destruct H2 as (Hm2 & L2 & He2 & Hsame2).
  destruct (located_bounds _ _ _ _ L2) as [Halo Hahi]. rewrite F2R_succ in Hahi.
  set (m2 := shr_m mrs2) in *.
  assert (HMsmall : F2R M e1 < powerRZ 2 (K + 1)) by lra.
  assert (Herr2 : F2R M e1 - powerRZ 2 (K - 51) <= F2R m2 e2).
  { destruct (Z_lt_le_dec e1 (fexp prec emax (Zdigits2 M + e1))) as [Hs|Hs].
    - assert (He : (e2 <= K - 51)%Z).
      { rewrite He2, Z.max_r by lia. apply shift_exponent_small; assumption. }
      apply bpow_le in He. lra.
    - destruct (Hsame2 Hs) as [Hm2' _]. fold m2 in Hm2'. rewrite Hm2'.
      assert (e2 = e1) as -> by lia. lra. }
  assert (Ha0 : 0 <= F2R m2 e2).
  { unfold F2R. pose proof (bpow_pos e2). apply IZR_le in Hm2.
    apply Rmult_le_pos; lra. }
  exists (F2R m2 e2).
  assert (Hbounds : v - powerRZ 2 (K - 50) <= F2R m2 e2 <= v + powerRZ 2 (K - 50))
    by lra.
  destruct m2 as [|p|p] eqn:Em2; [| |lia].
  - assert (Hz : F2R 0 e2 = 0) by (unfold F2R; ring).
    rewrite Hz in *. cbn [SF2R is_finite_SF]. repeat split; try lra.
    destruct sx; lra.
  - assert (He2fin : (e2 <= emax - prec)%Z).
    { destruct (F2R_digits p e2) as [Hlo _].
      assert (Hone : powerRZ 2 e2 <= F2R (Zpos p) e2).
      { unfold F2R. pose proof (bpow_pos e2).
        assert (1 <= IZR (Zpos p)) by (apply IZR_le; lia). nra. }
      assert (Hlt : powerRZ 2 e2 < powerRZ 2 (K + 1)) by lra.
      apply bpow_lt_inv in Hlt. unfold emax, prec. lia. }
    apply Z.leb_le in He2fin. rewrite He2fin. cbn [SF2R is_finite_SF].
    repeat split; try lra.
    destruct sx; cbn [cond_Zopp]; unfold F2R; [|reflexivity].
    change (- Zpos p)%Z with (Zneg p). change (Zneg p) with (- Zpos p)%Z.
    rewrite opp_IZR. ring.
Qed.

End Rounding.

Lemma iter_xO_pow m d : Zpos (Pos.iter xO m d) = (Zpos m * 2 ^ Zpos d)%Z.
Proof.
  induction d as [|d IH] using Pos.peano_ind.
  - simpl. lia.
  - rewrite Pos.iter_succ, Pos2Z.inj_xO, IH, Pos2Z.inj_succ, Z.pow_succ_r by lia. lia.
Qed.

Section Operations.
Local Open Scope R_scope.

Lemma F2R_shift m k e : (0 <= k)%Z -> F2R (m * 2 ^ k) (e - k) = F2R m e.
Proof.
  intros Hk. unfold F2R. rewrite mult_IZR, IZR_pow2 by assumption.
  replace e with ((e - k) + k)%Z at 2 by lia. rewrite bpow_add. ring.
Qed.

Lemma shl_align_value m e e' :
  F2R (Zpos (fst (shl_align m e e'))) (snd (shl_align m e e')) = F2R (Zpos m) e.
Proof.
  unfold shl_align. destruct (e' - e)%Z as [|d|d] eqn:Hd; [reflexivity|reflexivity|].
  simpl fst. simpl snd. rewrite iter_xO_pow.
  replace e' with (e - Zpos d)%Z by lia. apply F2R_shift. lia.
Qed.

Lemma shl_align_snd m e e' : (e' <= e)%Z -> snd (shl_align m e e') = e'.
Proof.
  intros Hle. unfold shl_align.
  destruct (e' - e)%Z as [|d|d] eqn:Hd; simpl; lia.
Qed.

Lemma SF2R_finite s m e :
  SF2R (S754_finite s m e) = (if s then - F2R (Zpos m) e else F2R (Zpos m) e).
Proof.
  destruct s; simpl; unfold F2R; [|reflexivity].
  change (Zneg m) with (- Zpos m)%Z. rewrite opp_IZR. ring.
Qed.

Lemma F2R_pos m e : 0 < F2R (Zpos m) e.
Proof.
  unfold F2R. apply Rmult_lt_0_compat; [apply IZR_lt; lia|apply bpow_pos].
Qed.

Lemma F2R_cond_Zopp s m e :
  F2R (cond_Zopp s m) e = (if s then - F2R m e else F2R m e).
Proof. destruct s; simpl; unfold F2R; [rewrite opp_IZR; ring|reflexivity]. Qed.

Lemma F2R_add a b e : F2R (a + b) e = F2R a e + F2R b e.
Proof. unfold F2R. rewrite plus_IZR. ring. Qed.

Lemma F2R_sub a b e : F2R (a - b) e = F2R a e - F2R b e.
Proof. unfold F2R. rewrite minus_IZR. ring. Qed.

Lemma F2R_opp a e : F2R (- a) e = - F2R a e.
Proof. unfold F2R. rewrite opp_IZR. ring. Qed.

Variable K : Z.
Hypothesis K_range : (-1000 <= K <= 900)%Z.

(** Rounding an integer multiple of a power of two. *)
Lemma binary_normalize_error m e :
  - powerRZ 2 K <= F2R m e <= powerRZ 2 K ->
  is_finite_SF (binary_normalize prec emax m e false) = true
  /\ F2R m e - powerRZ 2 (K - 50) <= SF2R (binary_normalize prec emax m e false)
     <= F2R m e + powerRZ 2 (K - 50).
Proof.
  intros Hv. pose proof (bpow_pos (K - 50)) as Hd.
  assert (Hround : forall s p,
            F2R (Zpos p) e <= powerRZ 2 K ->
            exists a, SF2R (binary_round prec emax s p e) = (if s then - a else a)
                      /\ is_finite_SF (binary_round prec emax s p e) = true
                      /\ F2R (Zpos p) e - powerRZ 2 (K - 50) <= a
                         <= F2R (Zpos p) e + powerRZ 2 (K - 50)).
  { intros s p Hp. unfold binary_round.
    pose proof (shl_align_value p e (fexp prec emax (Zpos (digits2_pos p) + e))) as Hval.
    destruct (shl_align p e (fexp prec emax (Zpos (digits2_pos p) + e))) as [mz ez].
    simpl fst in Hval. simpl snd in Hval.
    destruct (binary_round_aux_error K K_range s (Zpos mz) ez loc_Exact
                (F2R (Zpos p) e))
      as (a & Ha & Hfin & _ & Hb).
    - lia.
    - unfold located. simpl. symmetry. exact Hval.
    - left. reflexivity.
    - exact Hp.
    - exists a. repeat split; assumption || lra. }
  destruct m as [|p|p]; cbn [binary_normalize].
  - assert (Hz : F2R 0 e = 0) by (unfold F2R; ring). rewrite Hz.
    cbn [SF2R is_finite_SF]. repeat split; lra.
  - destruct (Hround false p) as (a & Ha & Hfin & Hb); [lra|].
    rewrite Ha. repeat split; assumption || lra.
  - change (Zneg p) with (- Zpos p)%Z in *. rewrite F2R_opp in *.
    destruct (Hround true p) as (a & Ha & Hfin & Hb); [lra|].
    rewrite Ha. repeat split; assumption || lra.
Qed.

Lemma SFmul_error sx mx ex sy my ey :
  F2R (Zpos mx) ex * F2R (Zpos my) ey <= powerRZ 2 K ->
  let r := SFmul prec emax (S754_finite sx mx ex) (S754_finite sy my ey) in
  is_finite_SF r = true
  /\ SF2R (S754_finite sx mx ex) * SF2R (S754_finite sy my ey) - powerRZ 2 (K - 50)
     <= SF2R r
     <= SF2R (S754_finite sx mx ex) * SF2R (S754_finite sy my ey) + powerRZ 2 (K - 50).
Proof.
  intros Hv r. unfold r. cbn [SFmul].
  destruct (binary_round_aux_error K K_range (xorb sx sy) (Zpos (mx * my)) (ex + ey)
              loc_Exact (F2R (Zpos mx) ex * F2R (Zpos my) ey))
    as (a & Ha & Hfin & _ & Hb).
  - lia.
  - unfold located. simpl. unfold F2R. rewrite Pos2Z.inj_mul, mult_IZR, bpow_add. ring.
  - left. reflexivity.
  - exact Hv.
  - rewrite Ha, !SF2R_finite. split; [assumption|].
    destruct sx, sy; cbn [xorb] in *; lra.
Qed.

Lemma SFadd_error sx mx ex sy my ey :
  - powerRZ 2 K <= SF2R (S754_finite sx mx ex) + SF2R (S754_finite sy my ey)
    <= powerRZ 2 K ->
  let r := SFadd prec emax (S754_finite sx mx ex) (S754_finite sy my ey) in
  is_finite_SF r = true
  /\ SF2R (S754_finite sx mx ex) + SF2R (S754_finite sy my ey) - powerRZ 2 (K - 50)
     <= SF2R r
     <= SF2R (S754_finite sx mx ex) + SF2R (S754_finite sy my ey) + powerRZ 2 (K - 50).
Proof.
  intros Hv r. unfold r. cbn [SFadd].
  set (ez := Z.min ex ey).
  pose proof (shl_align_value mx ex ez) as Hx.
  pose proof (shl_align_value my ey ez) as Hy.
  rewrite (shl_align_snd mx ex ez) in Hx by (unfold ez; lia).
  rewrite (shl_align_snd my ey ez) in Hy by (unfold ez; lia).
  assert (Hsum : F2R (cond_Zopp sx (Zpos (fst (shl_align mx ex ez)))
                      + cond_Zopp sy (Zpos (fst (shl_align my ey ez)))) ez
                 = SF2R (S754_finite sx mx ex) + SF2R (S754_finite sy my ey)).
  { rewrite F2R_add, !F2R_cond_Zopp, Hx, Hy, !SF2R_finite. reflexivity. }
  rewrite <- Hsum in *. apply binary_normalize_error. exact Hv.
Qed.

Lemma SFsub_error sx mx ex sy my ey :
  - powerRZ 2 K <= SF2R (S754_finite sx mx ex) - SF2R (S754_finite sy my ey)
    <= powerRZ 2 K ->
  let r := SFsub prec emax (S754_finite sx mx ex) (S754_finite sy my ey) in
  is_finite_SF r = true
  /\ SF2R (S754_finite sx mx ex) - SF2R (S754_finite sy my ey) - powerRZ 2 (K - 50)
     <= SF2R r
     <= SF2R (S754_finite sx mx ex) - SF2R (S754_finite sy my ey) + powerRZ 2 (K - 50).
Proof.
  intros Hv r. unfold r. cbn [SFsub].
  set (ez := Z.min ex ey).
  pose proof (shl_align_value mx ex ez) as Hx.
  pose proof (shl_align_value my ey ez) as Hy.
  rewrite (shl_align_snd mx ex ez) in Hx by (unfold ez; lia).
  rewrite (shl_align_snd my ey ez) in Hy by (unfold ez; lia).
  assert (Hsum : F2R (cond_Zopp sx (Zpos (fst (shl_align mx ex ez)))
                      - cond_Zopp sy (Zpos (fst (shl_align my ey ez)))) ez
                 = SF2R (S754_finite sx mx ex) - SF2R (S754_finite sy my ey)).
  { rewrite F2R_sub, !F2R_cond_Zopp, Hx, Hy, !SF2R_finite. reflexivity. }
  rewrite <- Hsum in *. apply binary_normalize_error. exact Hv.
Qed.

End Operations.

Section Division.
Local Open Scope R_scope.

Lemma new_location_located (m2 q r : Z) (e : Z) (v : R) :
  (0 < m2)%Z -> (0 <= r < m2)%Z ->
  v = (IZR q + IZR r / IZR m2) * powerRZ 2 e ->
  located v q e (new_location m2 r).
Proof.
  intros Hm2 Hr ->. unfold located, inbetween. rewrite F2R_succ. unfold F2R.
  pose proof (bpow_pos e) as HP. set (P := powerRZ 2 e) in *.
  assert (HD : 0 < IZR m2) by (apply IZR_lt; lia).
  set (D := IZR m2) in *. set (Q := IZR q).
  assert (Hrho : forall c : R, (IZR r / D) * P < c * P <-> IZR r < c * D).
  { intros c. split; intros H.
    - assert (IZR r / D < c) by nra.
      apply (Rmult_lt_compat_r D) in H0; [|assumption].
      unfold Rdiv in H0. rewrite Rmult_assoc, Rinv_l in H0; lra.
    - assert (IZR r / D < c).
      { apply (Rmult_lt_reg_r D); [assumption|].
        unfold Rdiv. rewrite Rmult_assoc, Rinv_l; lra. }
      nra. }
  assert (Hrho' : forall c : R, c * P < (IZR r / D) * P <-> c * D < IZR r).
  { intros c. split; intros H.
    - assert (c < IZR r / D) by nra.
      apply (Rmult_lt_compat_r D) in H0; [|assumption].
      unfold Rdiv in H0. rewrite Rmult_assoc, Rinv_l in H0; lra.
    - assert (c < IZR r / D).
      { apply (Rmult_lt_reg_r D); [assumption|].
        unfold Rdiv. rewrite Rmult_assoc, Rinv_l; lra. }
      nra. }
  assert (Hlt1 : (IZR r / D) * P < 1 * P)
    by (apply Hrho; rewrite Rmult_1_l; apply IZR_lt; lia).
  unfold new_location, new_location_even, new_location_odd.
  destruct (Z.eq_dec r 0%Z) as [->|Hr0].
  - assert (Hexact : (Q + 0 / D) * P = Q * P) by (unfold Rdiv; ring).
    destruct (Z.even m2); simpl; exact Hexact.
  - assert (Hz : (r =? 0)%Z = false) by (apply Z.eqb_neq; exact Hr0).
    assert (Hpos : 0 * P < (IZR r / D) * P)
      by (apply Hrho'; rewrite Rmult_0_l; apply IZR_lt; lia).
    assert (Hin : Q * P < (Q + IZR r / D) * P < Q * P + P) by lra.
    assert (Hbelow : (2 * r < m2)%Z -> (IZR r / D) * P < (1 / 2) * P).
    { intros Hlt. apply Hrho. apply IZR_lt in Hlt. rewrite mult_IZR in Hlt.
      fold D in Hlt. lra. }
    assert (Habove : (m2 < 2 * r)%Z -> (1 / 2) * P < (IZR r / D) * P).
    { intros Hgt. apply Hrho'. apply IZR_lt in Hgt. rewrite mult_IZR in Hgt.
      fold D in Hgt. lra. }
    destruct (Z.even m2) eqn:Heven; rewrite Hz; cbn [inbetween].
    + split; [exact Hin|].
      destruct (Z.compare_spec (2 * r) m2) as [Heq|Hlt|Hgt].
      * assert (IZR r / D = 1 / 2).
        { apply (Rmult_eq_reg_r D); [|lra].
          unfold Rdiv. rewrite Rmult_assoc, Rinv_l by lra.
          unfold D. rewrite <- Heq, mult_IZR. lra. }
        rewrite H. lra.
      * specialize (Hbelow Hlt). lra.
      * specialize (Habove Hgt). lra.
    + assert (Hodd : (2 * r <> m2)%Z).
      { intros <-. rewrite Z.even_mul in Heven. discriminate. }
      split; [exact Hin|].
      destruct (Z.compare_spec (2 * r + 1) m2) as [Heq|Hlt|Hgt].
      * specialize (Hbelow ltac:(lia)). lra.
      * specialize (Hbelow ltac:(lia)). lra.
      * specialize (Habove ltac:(lia)). lra.
Qed.

Lemma SFdiv_core_located m1 e1 m2 e2 :
  let '(q, e', l) := SFdiv_core_binary prec emax (Zpos m1) e1 (Zpos m2) e2 in
  (0 <= q)%Z
  /\ located (F2R (Zpos m1) e1 / F2R (Zpos m2) e2) q e' l
  /\ (e' <= fexp prec emax (Zpos (digits2_pos m1) + e1 - (Zpos (digits2_pos m2) + e2)))%Z.
Proof.
  unfold SFdiv_core_binary. cbn [Zdigits2].
  set (e' := Z.min (fexp prec emax (Zpos (digits2_pos m1) + e1
                                    - (Zpos (digits2_pos m2) + e2))) (e1 - e2)).
  set (s := (e1 - e2 - e')%Z).
  assert (Hs : (0 <= s)%Z) by (unfold s, e'; lia).
  set (m' := match s with
             | Zpos _ => Z.shiftl (Zpos m1) s
             | Z0 => Zpos m1
             | Zneg _ => 0%Z
             end).
  assert (Hm' : m' = (Zpos m1 * 2 ^ s)%Z).
  { unfold m'. destruct s as [|p|p] eqn:Es.
    - simpl. lia.
    - apply Z.shiftl_mul_pow2. lia.
    - lia. }
  pose proof (Z_div_mod m' (Zpos m2) ltac:(lia)) as Hdiv.
  destruct (Z.div_eucl m' (Zpos m2)) as [q r]. destruct Hdiv as [Heq Hr].
  assert (Hq : (0 <= q)%Z).
  { assert (0 <= m')%Z by (rewrite Hm'; apply Z.mul_nonneg_nonneg; [lia|apply Z.pow_nonneg; lia]).
    nia. }
  split; [exact Hq|]. split; [|unfold e'; lia].
  apply new_location_located; [lia|exact Hr|].
  assert (HD : 0 < IZR (Zpos m2)) by (apply IZR_lt; lia).
  pose proof (bpow_pos e2) as HP2.
  unfold F2R.
  replace e1 with (s + e' + e2)%Z by (unfold s; lia).
  rewrite !bpow_add, <- (IZR_pow2 s) by assumption.
  assert (Hreal : IZR (Zpos m1) * IZR (2 ^ s) = IZR (Zpos m2) * IZR q + IZR r).
  { rewrite <- !mult_IZR, <- plus_IZR, <- Hm', Heq. reflexivity. }
  field_simplify_eq; [|lra].
  rewrite Hreal. ring.
Qed.

Variable K : Z.
Hypothesis K_range : (-1000 <= K <= 900)%Z.

Lemma SFdiv_error sx mx ex sy my ey :
  F2R (Zpos mx) ex <= powerRZ 2 K -> 1 <= F2R (Zpos my) ey ->
  let r := SFdiv prec emax (S754_finite sx mx ex) (S754_finite sy my ey) in
  is_finite_SF r = true
  /\ SF2R (S754_finite sx mx ex) / SF2R (S754_finite sy my ey) - powerRZ 2 (K - 50)
     <= SF2R r
     <= SF2R (S754_finite sx mx ex) / SF2R (S754_finite sy my ey) + powerRZ 2 (K - 50).
Proof.
  intros Hx Hy r. unfold r. cbn [SFdiv].
  pose proof (SFdiv_core_located mx ex my ey) as Hcore.
  destruct (SFdiv_core_binary prec emax (Zpos mx) ex (Zpos my) ey) as [[q e'] l].
  destruct Hcore as (Hq & Hloc & He').
  pose proof (F2R_pos mx ex) as Hxpos. pose proof (F2R_pos my ey) as Hypos.
  pose proof (bpow_pos K) as HK.
  assert (Hquot : F2R (Zpos mx) ex / F2R (Zpos my) ey <= powerRZ 2 K).
  { apply (Rmult_le_reg_r (F2R (Zpos my) ey)); [assumption|].
    unfold Rdiv. rewrite Rmult_assoc, Rinv_l by lra. nra. }
  assert (Hsmall : (e' <= K - 51)%Z).
  { destruct (F2R_digits mx ex) as [Hxlo _]. destruct (F2R_digits my ey) as [_ Hyhi].
    pose proof (bpow_lt K (K + 1) ltac:(lia)) as HK1.
    assert (H1 : powerRZ 2 (Zpos (digits2_pos mx) + ex - 1) < powerRZ 2 (K + 1)) by lra.
    apply bpow_lt_inv in H1.
    assert (H2 : powerRZ 2 0 < powerRZ 2 (Zpos (digits2_pos my) + ey))
      by (change (powerRZ 2 0) with 1; lra).
    apply bpow_lt_inv in H2.
    assert (fexp prec emax (Zpos (digits2_pos mx) + ex - (Zpos (digits2_pos my) + ey))
            <= K - 51)%Z by (apply (fexp_small K K_range); lia).
    lia. }
  destruct (binary_round_aux_error K K_range (xorb sx sy) q e' l
              (F2R (Zpos mx) ex / F2R (Zpos my) ey) Hq Hloc (or_intror Hsmall) Hquot)
    as (a & Ha & Hfin & _ & Hb).
  rewrite Ha, !SF2R_finite. split; [assumption|].
  destruct sx, sy; cbn [xorb] in *.
  - replace (- F2R (Zpos mx) ex / - F2R (Zpos my) ey)
      with (F2R (Zpos mx) ex / F2R (Zpos my) ey) by (field; lra). lra.
  - replace (- F2R (Zpos mx) ex / F2R (Zpos my) ey)
      with (- (F2R (Zpos mx) ex / F2R (Zpos my) ey)) by (field; lra). lra.
  - replace (F2R (Zpos mx) ex / - F2R (Zpos my) ey)
      with (- (F2R (Zpos mx) ex / F2R (Zpos my) ey)) by (field; lra). lra.
  - lra.
Qed.

End Division.


(** ** The four operations on binary64 numbers of moderate size *)

Section FloatOperations.
Local Open Scope R_scope.

Lemma is_finite_cases x :
  is_finite x = true ->
  (exists s, Prim2SF x = S754_zero s) \/ (exists s m e, Prim2SF x = S754_finite s m e).
Proof.
  unfold is_finite. destruct (Prim2SF x) as [s|s| |s m e]; simpl; try discriminate.
  - intros _. left. by exists s.
  - intros _. right. by exists s, m, e.
Qed.

Lemma SF2R_abs s m e :
  - F2R (Zpos m) e <= SF2R (S754_finite s m e) <= F2R (Zpos m) e
  /\ (SF2R (S754_finite s m e) = F2R (Zpos m) e
      \/ SF2R (S754_finite s m e) = - F2R (Zpos m) e).
Proof.
  rewrite SF2R_finite. pose proof (F2R_pos m e). destruct s; split; try lra; auto.
Qed.

Variable K : Z.
Hypothesis K_range : (-1000 <= K <= 900)%Z.

Lemma mul_error (x y : float) :
  is_finite x = true -> is_finite y = true ->
  - powerRZ 2 K <= B2R x * B2R y <= powerRZ 2 K ->
  is_finite (x * y) = true
  /\ B2R x * B2R y - powerRZ 2 (K - 50) <= B2R (x * y)
     <= B2R x * B2R y + powerRZ 2 (K - 50).
Proof.
  intros Hx Hy Hv. unfold is_finite, B2R in *. rewrite mul_spec.
  pose proof (bpow_pos (K - 50)) as Hd.
  destruct (Prim2SF x) as [sx|sx| |sx mx ex]; try discriminate;
    destruct (Prim2SF y) as [sy|sy| |sy my ey]; try discriminate.
  1-3: cbn [SF64mul SFmul SF2R is_finite_SF]; split; [reflexivity|lra].
  apply (SFmul_error K K_range).
  rewrite !SF2R_finite in Hv.
  pose proof (F2R_pos mx ex). pose proof (F2R_pos my ey).
  destruct sx, sy; lra.
Qed.

Lemma SFadd_zero_l s y :
  is_finite_SF y = true ->
  is_finite_SF (SFadd prec emax (S754_zero s) y) = true
  /\ SF2R (SFadd prec emax (S754_zero s) y) = SF2R y.
Proof.
  destruct y as [sy|sy| |sy my ey]; try discriminate; intros _; cbn [SFadd].
  - destruct s, sy; split; reflexivity.
  - split; reflexivity.
Qed.

Lemma add_error (x y : float) :
  is_finite x = true -> is_finite y = true ->
  - powerRZ 2 K <= B2R x + B2R y <= powerRZ 2 K ->
  is_finite (x + y) = true
  /\ B2R x + B2R y - powerRZ 2 (K - 50) <= B2R (x + y)
     <= B2R x + B2R y + powerRZ 2 (K - 50).
Proof.
  intros Hx Hy Hv. unfold is_finite, B2R in *. rewrite add_spec.
  pose proof (bpow_pos (K - 50)) as Hd. unfold SF64add.
  destruct (Prim2SF x) as [sx|sx| |sx mx ex]; try discriminate.
  - destruct (SFadd_zero_l sx (Prim2SF y) Hy) as [Hfin Hval].
    split; [exact Hfin|]. rewrite Hval. cbn [SF2R]. lra.
  - destruct (Prim2SF y) as [sy|sy| |sy my ey]; try discriminate.
    + cbn [SFadd SF2R is_finite_SF] in *. split; [reflexivity|]. lra.
    + apply (SFadd_error K K_range). exact Hv.
Qed.

Lemma sub_error (x y : float) :
  is_finite x = true -> is_finite y = true ->
  - powerRZ 2 K <= B2R x - B2R y <= powerRZ 2 K ->
  is_finite (x - y) = true
  /\ B2R x - B2R y - powerRZ 2 (K - 50) <= B2R (x - y)
     <= B2R x - B2R y + powerRZ 2 (K - 50).
Proof.
  intros Hx Hy Hv. unfold is_finite, B2R in *. rewrite sub_spec.
  pose proof (bpow_pos (K - 50)) as Hd. unfold SF64sub.
  destruct (Prim2SF x) as [sx|sx| |sx mx ex]; try discriminate;
    destruct (Prim2SF y) as [sy|sy| |sy my ey]; try discriminate.
  - cbn [SFsub]. destruct sx, sy; cbn [Bool.eqb negb SF2R is_finite_SF];
      split; try reflexivity; lra.
  - cbn [SFsub is_finite_SF]. split; [reflexivity|].
    rewrite !SF2R_finite. cbn [SF2R]. destruct sy; cbn [negb]; lra.
  - cbn [SFsub SF2R is_finite_SF] in *. split; [reflexivity|]. lra.
  - apply (SFsub_error K K_range). exact Hv.
Qed.

Lemma div_error (x y : float) :
  is_finite x = true -> is_finite y = true ->
  - powerRZ 2 K <= B2R x <= powerRZ 2 K -> 1 <= B2R y ->
  is_finite (x / y) = true
  /\ B2R x / B2R y - powerRZ 2 (K - 50) <= B2R (x / y)
     <= B2R x / B2R y + powerRZ 2 (K - 50).
Proof.
  intros Hx Hy Hv Hw. unfold is_finite, B2R in *. rewrite div_spec.
  pose proof (bpow_pos (K - 50)) as Hd. unfold SF64div.
  destruct (Prim2SF y) as [sy|sy| |sy my ey]; try discriminate.
  { cbn [SF2R] in Hw. lra. }
  destruct (Prim2SF x) as [sx|sx| |sx mx ex]; try discriminate.
  - cbn [SFdiv SF2R is_finite_SF]. split; [reflexivity|].
    unfold Rdiv. rewrite Rmult_0_l. lra.
  - pose proof (F2R_pos mx ex). pose proof (F2R_pos my ey).
    rewrite !SF2R_finite in Hv, Hw.
    apply (SFdiv_error K K_range).
    + destruct sx; lra.
    + destruct sy; lra.
Qed.

End FloatOperations.

(** ** Comparisons of binary64 numbers and of their real values *)

Section Comparisons.
Local Open Scope R_scope.

(** Of two canonical mantissas the one with the smaller exponent is the
    smaller number. *)
Lemma canonical_lt m1 e1 m2 e2 :
  bounded prec emax m1 e1 = true -> bounded prec emax m2 e2 = true ->
  (e1 < e2)%Z -> F2R (Zpos m1) e1 < F2R (Zpos m2) e2.
Proof.
  unfold bounded, canonical_mantissa, fexp, emin.
  rewrite !andb_true_iff, !Z.eqb_eq, !Z.leb_le.
  intros [H1 _] [H2 _] Hlt.
  destruct (F2R_digits m1 e1) as [_ Hhi]. destruct (F2R_digits m2 e2) as [Hlo _].
  assert (Hd : (Zpos (digits2_pos m1) + e1 <= Zpos (digits2_pos m2) + e2 - 1)%Z).
  { revert H1 H2. unfold prec, emax.
    generalize (Zpos (digits2_pos m1)) (Zpos (digits2_pos m2)). intros d1 d2. lia. }
  pose proof (bpow_le _ _ Hd). lra.
Qed.

Lemma same_exponent_lt m1 m2 e :
  (m1 < m2)%positive -> F2R (Zpos m1) e < F2R (Zpos m2) e.
Proof.
  intros Hlt. unfold F2R. apply Rmult_lt_compat_r; [apply bpow_pos|].
  apply IZR_lt. lia.
Qed.

(** The comparison of two positive canonical numbers. *)
Lemma compare_finite m1 e1 m2 e2 :
  bounded prec emax m1 e1 = true -> bounded prec emax m2 e2 = true ->
  match (match (e1 ?= e2)%Z with
         | Eq => Pos.compare_cont Eq m1 m2 | Lt => Lt | Gt => Gt
         end) with
  | Lt => F2R (Zpos m1) e1 < F2R (Zpos m2) e2
  | Eq => F2R (Zpos m1) e1 = F2R (Zpos m2) e2
  | Gt => F2R (Zpos m2) e2 < F2R (Zpos m1) e1
  end.
Proof.
  intros H1 H2. destruct (Z.compare_spec e1 e2) as [->|Hlt|Hgt].
  - change (Pos.compare_cont Eq m1 m2) with (m1 ?= m2)%positive.
    destruct (Pos.compare_spec m1 m2) as [->|Hlt|Hgt].
    + reflexivity.
    + by apply same_exponent_lt.
    + by apply same_exponent_lt.
  - by apply canonical_lt.
  - by apply canonical_lt.
Qed.

Lemma SFcompare_finite s1 m1 e1 s2 m2 e2 :
  bounded prec emax m1 e1 = true -> bounded prec emax m2 e2 = true ->
  match SFcompare (S754_finite s1 m1 e1) (S754_finite s2 m2 e2) with
  | Some Lt => SF2R (S754_finite s1 m1 e1) < SF2R (S754_finite s2 m2 e2)
  | Some Eq => SF2R (S754_finite s1 m1 e1) = SF2R (S754_finite s2 m2 e2)
  | Some Gt => SF2R (S754_finite s2 m2 e2) < SF2R (S754_finite s1 m1 e1)
  | None => False
  end.
Proof.
  intros H1 H2. rewrite !SF2R_finite.
  pose proof (F2R_pos m1 e1). pose proof (F2R_pos m2 e2).
  pose proof (compare_finite m1 e1 m2 e2 H1 H2) as Hc.
  destruct s1, s2; cbn [SFcompare]; try lra.
  - destruct (e1 ?= e2)%Z; [|lra|lra].
    destruct (Pos.compare_cont Eq m1 m2); cbn [CompOpp]; lra.
  - destruct (e1 ?= e2)%Z; [|lra|lra].
    destruct (Pos.compare_cont Eq m1 m2); lra.
Qed.

(** On finite numbers [<] is the order of the real values. *)
Lemma ltb_real (x y : float) :
  is_finite x = true -> is_finite y = true ->
  PrimFloat.ltb x y = true <-> B2R x < B2R y.
Proof.
  intros Hx Hy. rewrite FloatAxioms.ltb_spec. unfold is_finite, B2R, SFltb in *.
  pose proof (Prim2SF_valid x) as Vx. pose proof (Prim2SF_valid y) as Vy.
  destruct (Prim2SF x) as [sx|sx| |sx mx ex]; try discriminate;
    destruct (Prim2SF y) as [sy|sy| |sy my ey]; try discriminate.
  - cbn [SFcompare SF2R]. split; [discriminate|lra].
  - rewrite SF2R_finite. pose proof (F2R_pos my ey).
    cbn [SFcompare SF2R]. destruct sy; split; try discriminate; try lra; done.
  - rewrite SF2R_finite. pose proof (F2R_pos mx ex).
    cbn [SFcompare SF2R]. destruct sx; split; try discriminate; try lra; done.
  - cbn [valid_binary] in Vx, Vy.
    pose proof (SFcompare_finite sx mx ex sy my ey Vx Vy) as Hc.
    destruct (SFcompare (S754_finite sx mx ex) (S754_finite sy my ey)) as [[| |]|];
      split; try discriminate; try lra; try done.
Qed.

Lemma F2R_scaled (n k : Z) : (0 <= k)%Z -> F2R (n * 2 ^ k) (- k) = IZR n.
Proof.
  intros Hk. unfold F2R. rewrite mult_IZR, IZR_pow2 by assumption.
  rewrite Rmult_assoc, <- bpow_add. replace (k + - k)%Z with 0%Z by lia.
  simpl. ring.
Qed.

Lemma B2R_zero : B2R 0 = 0.
Proof. reflexivity. Qed.

Lemma B2R_one : B2R 1 = 1.
Proof.
  unfold B2R. change (Prim2SF 1) with (S754_finite false 4503599627370496 (-52)).
  cbn [SF2R cond_Zopp].
  change (Zpos 4503599627370496) with (1 * 2 ^ 52)%Z.
  change (-52)%Z with (- (52))%Z. apply F2R_scaled. lia.
Qed.

Lemma B2R_ten : B2R 10 = 10.
Proof.
  unfold B2R. change (Prim2SF 10) with (S754_finite false 5629499534213120 (-49)).
  cbn [SF2R cond_Zopp].
  change (Zpos 5629499534213120) with (10 * 2 ^ 49)%Z.
  change (-49)%Z with (- (49))%Z. apply F2R_scaled. lia.
Qed.

Lemma B2R_big : B2R 1099511627776 = powerRZ 2 40.
Proof.
  unfold B2R.
  change (Prim2SF 1099511627776) with (S754_finite false 4503599627370496 (-12)).
  cbn [SF2R cond_Zopp]. unfold F2R.
  change (Zpos 4503599627370496) with (2 ^ 52)%Z.
  rewrite IZR_pow2, <- bpow_add by lia. reflexivity.
Qed.

Lemma B2R_minus_big : B2R (-1099511627776) = - powerRZ 2 40.
Proof.
  unfold B2R.
  change (Prim2SF (-1099511627776)) with (S754_finite true 4503599627370496 (-12)).
  cbn [SF2R cond_Zopp]. unfold F2R.
  change (- Zpos 4503599627370496)%Z with (- (2 ^ 52))%Z.
  rewrite opp_IZR, IZR_pow2 by lia.
  replace 40%Z with (52 + -12)%Z by lia. rewrite bpow_add. ring.
Qed.

(** A number of moderate size is finite, of absolute value below [2^40]. *)
Lemma moderate_real (x : float) :
  moderate x -> is_finite x = true /\ - powerRZ 2 40 < B2R x < powerRZ 2 40.
Proof.
  intros [Hlo Hhi].
  assert (Hfin : is_finite x = true).
  { revert Hlo Hhi. rewrite !FloatAxioms.ltb_spec.
    unfold is_finite, SFltb.
    change (Prim2SF 1099511627776) with (S754_finite false 4503599627370496 (-12)).
    change (Prim2SF (-1099511627776))
      with (S754_finite true 4503599627370496 (-12)).
    destruct (Prim2SF x) as [s|s| |s m e]; cbn [SFcompare is_finite_SF]; try done.
    destruct s; discriminate. }
  split; [exact Hfin|].
  apply (ltb_real (-1099511627776) x) in Hlo; [|reflexivity|exact Hfin].
  apply (ltb_real x 1099511627776) in Hhi; [|exact Hfin|reflexivity].
  rewrite B2R_minus_big in Hlo. rewrite B2R_big in Hhi. lra.
Qed.

(** A number in the range of the opacities is finite, and its value lies
    between 0 and 1. *)
Lemma in_unit_range_real (c : float) :
  in_unit_range c -> is_finite c = true /\ 0 <= B2R c <= 1.
Proof.
  unfold in_unit_range, js_gt, js_lt. intros (H1 & H0 & Hc).
  assert (Hfin : is_finite c = true).
  { revert H1 H0 Hc. rewrite !FloatAxioms.ltb_spec, FloatAxioms.eqb_spec.
    unfold is_finite, SFltb, SFeqb.
    change (Prim2SF 1) with (S754_finite false 4503599627370496 (-52)).
    change (Prim2SF 0) with (S754_zero false).
    destruct (Prim2SF c) as [s|s| |s m e]; cbn [SFcompare is_finite_SF]; try done.
    destruct s; discriminate. }
  split; [exact Hfin|].
  assert (F1 : is_finite 1 = true) by reflexivity.
  assert (F0 : is_finite 0 = true) by reflexivity.
  split.
  - destruct (Rle_or_lt 0 (B2R c)) as [?|Hlt]; [assumption|].
    rewrite <- B2R_zero in Hlt. apply (ltb_real c 0 Hfin F0) in Hlt. congruence.
  - destruct (Rle_or_lt (B2R c) 1) as [?|Hlt]; [assumption|].
    rewrite <- B2R_one in Hlt. apply (ltb_real 1 c F1 Hfin) in Hlt. congruence.
Qed.

End Comparisons.

(** ** One step of a fade, on the real values *)

Section Steps.
Local Open Scope R_scope.

Section StepError.
Variable K : Z.
Hypothesis K_range : (2 <= K <= 900)%Z.

Lemma K_range_wide : (-1000 <= K <= 900)%Z.
Proof. lia. Qed.

(** The powers of two that bound a step on values up to [2^(K-4)]. *)
Lemma step_powers :
  powerRZ 2 K = 16 * powerRZ 2 (K - 4)
  /\ / 4 <= powerRZ 2 (K - 4)
  /\ 0 < powerRZ 2 (K - 50) <= powerRZ 2 (K - 4) / 64.
Proof.
  split_and!.
  - replace K with ((K - 4) + 4)%Z at 1 by lia. rewrite bpow_add. simpl. lra.
  - pose proof (bpow_le (-2) (K - 4) ltac:(lia)) as H.
    assert (H2 : powerRZ 2 (-2) = / 4) by (unfold powerRZ; simpl; f_equal; lra).
    lra.
  - apply bpow_pos.
  - pose proof (bpow_le (K - 50) (K - 10) ltac:(lia)) as H.
    replace (K - 10)%Z with ((K - 4) + (-6))%Z in H by lia.
    rewrite bpow_add in H.
    assert (H6 : powerRZ 2 (-6) = / 64) by (unfold powerRZ; simpl; f_equal; lra).
    rewrite H6 in H. lra.
Qed.

Lemma step_in_error (x : float) :
  is_finite x = true -> - powerRZ 2 (K - 4) <= B2R x <= powerRZ 2 (K - 4) ->
  is_finite (step_in x) = true
  /\ B2R x + / 10 - 12 / 10 * powerRZ 2 (K - 50) <= B2R (step_in x)
     <= B2R x + / 10 + 12 / 10 * powerRZ 2 (K - 50).
Proof.
  intros Hx Hv. unfold step_in.
  destruct step_powers as (HK & HP & Hd0 & Hd).
  assert (F1 : is_finite 1 = true) by reflexivity.
  assert (F10 : is_finite 10 = true) by reflexivity.
  destruct (mul_error K K_range_wide x 10 Hx F10) as [Fa Ha]; [rewrite B2R_ten; lra|].
  rewrite B2R_ten in Ha.
  destruct (add_error K K_range_wide (x * 10) 1 Fa F1) as [Fb Hb];
    [rewrite B2R_one; lra|].
  rewrite B2R_one in Hb.
  destruct (div_error K K_range_wide (x * 10 + 1) 10 Fb F10) as [Fc Hc];
    [lra|rewrite B2R_ten; lra|].
  rewrite B2R_ten in Hc. split; [exact Fc|]. lra.
Qed.

Lemma step_out_error (x : float) :
  is_finite x = true -> - powerRZ 2 (K - 4) <= B2R x <= powerRZ 2 (K - 4) ->
  is_finite (step_out x) = true
  /\ B2R x - / 10 - 12 / 10 * powerRZ 2 (K - 50) <= B2R (step_out x)
     <= B2R x - / 10 + 12 / 10 * powerRZ 2 (K - 50).
Proof.
  intros Hx Hv. unfold step_out.
  destruct step_powers as (HK & HP & Hd0 & Hd).
  assert (F1 : is_finite 1 = true) by reflexivity.
  assert (F10 : is_finite 10 = true) by reflexivity.
  destruct (mul_error K K_range_wide x 10 Hx F10) as [Fa Ha]; [rewrite B2R_ten; lra|].
  rewrite B2R_ten in Ha.
  destruct (sub_error K K_range_wide (x * 10) 1 Fa F1) as [Fb Hb];
    [rewrite B2R_one; lra|].
  rewrite B2R_one in Hb.
  destruct (div_error K K_range_wide (x * 10 - 1) 10 Fb F10) as [Fc Hc];
    [lra|rewrite B2R_ten; lra|].
  rewrite B2R_ten in Hc. split; [exact Fc|]. lra.
Qed.

End StepError.

Lemma rounding_unit_small : powerRZ 2 (-44) <= / 16384.
Proof.
  pose proof (bpow_le (-44) (-14) ltac:(lia)) as H.
  assert (H14 : powerRZ 2 (-14) = / 16384).
  { unfold powerRZ. simpl. f_equal. lra. }
  lra.
Qed.

(** Near the range of the opacities a step is a tenth, up to a
    ten-thousandth. *)
Lemma step_in_real (x : float) :
  is_finite x = true -> -4 <= B2R x <= 4 ->
  is_finite (step_in x) = true
  /\ B2R x + 999 / 10000 <= B2R (step_in x) <= B2R x + 1001 / 10000.
Proof.
  intros Hx Hv. pose proof rounding_unit_small as Hd.
  destruct (step_in_error 6 ltac:(lia) x Hx) as [Hf Hb].
  { change (6 - 4)%Z with 2%Z. simpl. lra. }
  change (6 - 50)%Z with (-44)%Z in Hb. split; [exact Hf|]. lra.
Qed.

Lemma step_out_real (x : float) :
  is_finite x = true -> -4 <= B2R x <= 4 ->
  is_finite (step_out x) = true
  /\ B2R x - 1001 / 10000 <= B2R (step_out x) <= B2R x - 999 / 10000.
Proof.
  intros Hx Hv. pose proof rounding_unit_small as Hd.
  destruct (step_out_error 6 ltac:(lia) x Hx) as [Hf Hb].
  { change (6 - 4)%Z with 2%Z. simpl. lra. }
  change (6 - 50)%Z with (-44)%Z in Hb. split; [exact Hf|]. lra.
Qed.

(** Up to [2^42] a step is a tenth, up to three fortieths. *)
Lemma step_in_wide (x : float) :
  is_finite x = true -> - powerRZ 2 42 <= B2R x <= powerRZ 2 42 ->
  is_finite (step_in x) = true
  /\ B2R x + / 40 <= B2R (step_in x) <= B2R x + 7 / 40.
Proof.
  intros Hx Hv.
  destruct (step_in_error 46 ltac:(lia) x Hx) as [Hf Hb].
  { change (46 - 4)%Z with 42%Z. exact Hv. }
  change (46 - 50)%Z with (-4)%Z in Hb.
  assert (H4 : powerRZ 2 (-4) = / 16) by (unfold powerRZ; simpl; f_equal; lra).
  split; [exact Hf|]. lra.
Qed.

Lemma step_out_wide (x : float) :
  is_finite x = true -> - powerRZ 2 42 <= B2R x <= powerRZ 2 42 ->
  is_finite (step_out x) = true
  /\ B2R x - 7 / 40 <= B2R (step_out x) <= B2R x - / 40.
Proof.
  intros Hx Hv.
  destruct (step_out_error 46 ltac:(lia) x Hx) as [Hf Hb].
  { change (46 - 4)%Z with 42%Z. exact Hv. }
  change (46 - 50)%Z with (-4)%Z in Hb.
  assert (H4 : powerRZ 2 (-4) = / 16) by (unfold powerRZ; simpl; f_equal; lra).
  split; [exact Hf|]. lra.
Qed.

End Steps.

(** ** Fades that start on the hundredths *)

Lemma beyond_crossed k y c :
  in_unit_range c → beyond k y = true → crossed k y c = true.
Proof.
  intros (H1 & H0 & Hc) Hy. destruct k; simpl in *; unfold js_gt, js_lt in *.
  - by apply below_one_lt.
  - by apply above_zero_lt.
Qed.



(** The first tick that crosses, when some tick does. *)
Lemma first_crossing k x c (N : nat) :
  crossed k (tracked k (S N) x) c = true →
  ∃ n : nat, (n ≤ N)%nat
    ∧ (∀ i : nat, (i < n)%nat → crossed k (tracked k (S i) x) c = false)
    ∧ crossed k (tracked k (S n) x) c = true.
Proof.
  induction N as [|N IH]; intros Hcross.
  - exists 0%nat. split_and!; [lia| |done]. intros i Hi. lia.
  - destruct (crossed k (tracked k (S N) x) c) eqn:Hprev.
    + destruct (IH eq_refl) as (n & Hn & Hbefore & Hat).
      exists n. split_and!; [lia|done|done].
    + assert (Hall : ∀ j : nat, (j ≤ S N)%nat →
                (∀ i : nat, (i < j)%nat → crossed k (tracked k (S i) x) c = false)
                ∨ ∃ n : nat, (n < j)%nat
                    ∧ (∀ i : nat, (i < n)%nat → crossed k (tracked k (S i) x) c = false)
                    ∧ crossed k (tracked k (S n) x) c = true).
      { induction j as [|j IHj]; intros Hj.
        - left. intros i Hi. lia.
        - destruct IHj as [Hnone|(n & Hn & Hb & Ha)]; [lia| |].
          + destruct (crossed k (tracked k (S j) x) c) eqn:Hj'.
            * right. exists j. split_and!; [lia|done|done].
            * left. intros i Hi. destruct (decide (i = j)) as [->|Hne]; [done|].
              apply Hnone. lia.
          + right. exists n. split_and!; [lia|done|done]. }
      destruct (Hall (S N) ltac:(lia)) as [Hnone|(n & Hn & Hb & Ha)].
      * exists (S N). split_and!; [lia|done|done].
      * exists n. split_and!; [lia|done|done].
Qed.


(** ** Fades that start in the range of the opacities *)

Section UnitRange.
Local Open Scope R_scope.

Lemma fade_step_real k (x : float) :
  is_finite x = true -> -4 <= B2R x <= 4 ->
  is_finite (fade_step k x) = true
  /\ 999 / 10000 <= stride k (B2R (fade_step k x) - B2R x) <= 1001 / 10000.
Proof.
  intros Hx Hv. destruct k; cbn [fade_step stride].
  - destruct (step_in_real x Hx Hv) as [Hf Hb]. split; [exact Hf|lra].
  - destruct (step_out_real x Hx Hv) as [Hf Hb]. split; [exact Hf|lra].
Qed.

Lemma strictly_real k (a b : float) :
  is_finite a = true -> is_finite b = true ->
  0 < stride k (B2R b - B2R a) -> strictly k a b = true.
Proof.
  intros Ha Hb Hlt. destruct k; cbn [strictly stride] in *; unfold js_lt, js_gt.
  - apply ltb_real; [assumption..|lra].
  - apply ltb_real; [assumption..|lra].
Qed.

Lemma beyond_real k (x0 y : float) :
  is_finite y = true -> 0 <= B2R x0 <= 1 ->
  1 < stride k (B2R y - B2R x0) -> beyond k y = true.
Proof.
  intros Hy Hv Hlt. destruct k; cbn [beyond stride] in *; unfold js_lt, js_gt.
  - apply ltb_real; [reflexivity|assumption|]. rewrite B2R_one. lra.
  - apply ltb_real; [assumption|reflexivity|]. rewrite B2R_zero. lra.
Qed.

(** A tick that does not cross leaves the tracked opacity on the near
    side of the target. *)
Lemma not_crossed_real k (y c : float) :
  is_finite y = true -> is_finite c = true ->
  crossed k y c = false -> stride k (B2R y - B2R c) <= 0.
Proof.
  intros Hy Hc Hno. destruct k; cbn [crossed stride] in *; unfold js_lt, js_gt in *.
  - destruct (Rle_or_lt (B2R y) (B2R c)) as [?|Hlt]; [lra|].
    apply (ltb_real c y Hc Hy) in Hlt. congruence.
  - destruct (Rle_or_lt (B2R c) (B2R y)) as [?|Hlt]; [lra|].
    apply (ltb_real y c Hy Hc) in Hlt. congruence.
Qed.

Lemma INR_le_12 (n : nat) : (n <= 12)%nat -> INR n <= 12.
Proof. intros H. apply le_INR in H. simpl in H. lra. Qed.

Lemma tracked_real k (x0 : float) (n : nat) :
  is_finite x0 = true -> 0 <= B2R x0 <= 1 -> (n <= 12)%nat ->
  is_finite (tracked k n x0) = true
  /\ INR n * (999 / 10000) <= stride k (B2R (tracked k n x0) - B2R x0)
     <= INR n * (1001 / 10000).
Proof.
  intros Hx Hv. induction n as [|n IH]; intros Hn.
  - change (tracked k 0 x0) with x0. change (INR 0) with 0.
    split; [exact Hx|]. destruct k; cbn [stride]; lra.
  - destruct IH as [Hf Hb]; [lia|].
    assert (Hn' : INR n <= 12) by (apply INR_le_12; lia).
    rewrite S_INR.
    change (tracked k (S n) x0) with (fade_step k (tracked k n x0)).
    set (y := tracked k n x0) in *.
    destruct (fade_step_real k y Hf) as [Hf' Hb'].
    { destruct k; cbn [stride] in Hb; lra. }
    split; [exact Hf'|]. destruct k; cbn [stride] in *; lra.
Qed.

(** A fade that starts in the range of the opacities, towards a clamped
    target in range, crosses its target within eleven ticks. *)
Lemma unit_schedule k x0 c :
  in_unit_range x0 → in_unit_range c →
  ∃ n : nat, (n ≤ 10)%nat
    ∧ (∀ i : nat, (i < n)%nat → crossed k (tracked k (S i) x0) c = false)
    ∧ crossed k (tracked k (S n) x0) c = true.
Proof.
  intros Hx Hc. apply in_unit_range_real in Hx as [Hfin Hv].
  destruct (first_crossing k x0 c 10) as (n & Hn & Hbefore & Hat).
  { apply beyond_crossed; [exact Hc|].
    destruct (tracked_real k x0 11 Hfin Hv) as [Hf Hb]; [lia|].
    apply (beyond_real k x0); [exact Hf|exact Hv|].
    replace (INR 11) with 11 in Hb by (simpl; lra). lra. }
  exists n. split_and!; [exact Hn|exact Hbefore|exact Hat].
Qed.

End UnitRange.

(** ** Fades that start from a number of moderate size *)

(** The first index at which a test holds, among the first [N + 1]. *)
Lemma first_true (f : nat → bool) (N : nat) :
  (∀ i : nat, (i ≤ N)%nat → f i = false)
  ∨ ∃ n : nat, (n ≤ N)%nat ∧ (∀ i : nat, (i < n)%nat → f i = false) ∧ f n = true.
Proof.
  induction N as [|N IH].
  - destruct (f 0%nat) eqn:H0.
    + right. exists 0%nat. split_and!; [lia| |done]. intros i Hi. lia.
    + left. intros i Hi. by replace i with 0%nat by lia.
  - destruct IH as [Hnone|(n & Hn & Hb & Ha)].
    + destruct (f (S N)) eqn:HS.
      * right. exists (S N). split_and!; [lia| |done]. intros i Hi. apply Hnone. lia.
      * left. intros i Hi. destruct (decide (i = S N)) as [->|Hne]; [done|].
        apply Hnone. lia.
    + right. exists n. split_and!; [lia|done|done].
Qed.

Section ModerateRange.
Local Open Scope R_scope.

Lemma fade_step_wide k (x : float) :
  is_finite x = true -> - powerRZ 2 42 <= B2R x <= powerRZ 2 42 ->
  is_finite (fade_step k x) = true
  /\ / 40 <= stride k (B2R (fade_step k x) - B2R x) <= 7 / 40.
Proof.
  intros Hx Hv. destruct k; cbn [fade_step stride].
  - destruct (step_in_wide x Hx Hv) as [Hf Hb]. split; [exact Hf|lra].
  - destruct (step_out_wide x Hx Hv) as [Hf Hb]. split; [exact Hf|lra].
Qed.

Lemma moderate_powers : 1 < powerRZ 2 40 /\ powerRZ 2 40 < powerRZ 2 42.
Proof.
  split.
  - pose proof (bpow_lt 0 40 ltac:(lia)) as H. change (powerRZ 2 0) with 1 in H. lra.
  - apply bpow_lt. lia.
Qed.

(** A tick moves every number of moderate size strictly. *)
Lemma fade_step_strict k (x : float) :
  moderate x -> strictly k x (fade_step k x) = true.
Proof.
  intros Hx. destruct (moderate_real x Hx) as [Hfin Hv].
  destruct moderate_powers as [_ Hp].
  destruct (fade_step_wide k x Hfin) as [Hfin' Hb]; [lra|].
  apply strictly_real; [exact Hfin|exact Hfin'|lra].
Qed.

(** While no tick has crossed the target, the tracked opacity is a
    number of moderate size that has moved by at least a fortieth per
    tick and, after the first tick, lies on the near side of the
    target. *)
Lemma running_real k (x0 c : float) (n : nat) :
  moderate x0 → in_unit_range c →
  (∀ i : nat, (i < n)%nat → crossed k (tracked k (S i) x0) c = false) →
  is_finite (tracked k n x0) = true
  /\ INR n / 40 <= stride k (B2R (tracked k n x0) - B2R x0)
  /\ ((1 <= n)%nat -> stride k (B2R (tracked k n x0) - B2R c) <= 0)
  /\ - powerRZ 2 40 < B2R (tracked k n x0) < powerRZ 2 40.
Proof.
  intros Hx Hc. destruct (moderate_real x0 Hx) as [Hfin Hv].
  destruct (in_unit_range_real c Hc) as [Hfc Hvc].
  destruct moderate_powers as [Hp1 Hp2].
  induction n as [|n IH]; intros Hno.
  - change (tracked k 0 x0) with x0. change (INR 0) with 0.
    split_and!; [exact Hfin| |lia|lra|lra]. destruct k; cbn [stride]; lra.
  - destruct IH as (Hf & Hprog & _ & Hrange); [intros i Hi; apply Hno; lia|].
    specialize (Hno n ltac:(lia)). rewrite S_INR.
    change (tracked k (S n) x0) with (fade_step k (tracked k n x0)) in *.
    set (y := tracked k n x0) in *.
    destruct (fade_step_wide k y Hf) as [Hf' Hb']; [lra|].
    pose proof (not_crossed_real k (fade_step k y) c Hf' Hfc Hno) as Hnear.
    split_and!; [exact Hf'| |done| |]; destruct k; cbn [stride] in *; lra.
Qed.

(** A fade that starts from a number of moderate size, towards a
    clamped target in range, crosses its target at some tick; its tracked
    opacity is finite and moves strictly at every tick up to that one;
    from a start in the range of the opacities the crossing tick is among
    the first eleven. *)
Lemma moderate_schedule k x0 c :
  moderate x0 → in_unit_range c →
  ∃ n : nat,
    (∀ i : nat, (i < n)%nat → crossed k (tracked k (S i) x0) c = false)
    ∧ crossed k (tracked k (S n) x0) c = true
    ∧ (∀ i : nat, (i ≤ n)%nat →
         is_finite (tracked k i x0) = true
         ∧ strictly k (tracked k i x0) (tracked k (S i) x0) = true)
    ∧ (in_unit_range x0 → (n ≤ 10)%nat).
Proof.
  intros Hx Hc. destruct (moderate_real x0 Hx) as [Hfin Hv].
  destruct (in_unit_range_real c Hc) as [Hfc Hvc].
  destruct moderate_powers as [Hp1 Hp2].
  (* a number of ticks that would carry the fade past any target *)
  destruct (archimed (40 * (powerRZ 2 40 + 2))) as [Hup _].
  set (z := up (40 * (powerRZ 2 40 + 2))) in *.
  assert (Hz : (0 < z)%Z) by (apply lt_IZR; lra).
  set (N := Z.to_nat z).
  assert (HN : INR N = IZR z) by (unfold N; rewrite INR_IZR_INZ, Z2Nat.id; [done|lia]).
  destruct (first_true (λ i, crossed k (tracked k (S i) x0) c) N)
    as [Hnone|(n & Hn & Hbefore & Hat)].
  { exfalso.
    destruct (running_real k x0 c (S N) Hx Hc) as (_ & Hprog & Hnear & _).
    { intros i Hi. apply Hnone. lia. }
    specialize (Hnear ltac:(lia)). rewrite S_INR, HN in Hprog.
    destruct k; cbn [stride] in *; lra. }
  exists n. split_and!; [exact Hbefore|exact Hat| |].
  - intros i Hi.
    destruct (running_real k x0 c i Hx Hc) as (Hf & _ & _ & Hrange).
    { intros j Hj. apply Hbefore. lia. }
    split; [exact Hf|].
    change (tracked k (S i) x0) with (fade_step k (tracked k i x0)).
    destruct (fade_step_wide k (tracked k i x0) Hf) as [Hf' Hb']; [lra|].
    apply strictly_real; [exact Hf|exact Hf'|lra].
  - intros Hunit.
    destruct (unit_schedule k x0 c Hunit Hc) as (n' & Hn' & Hbefore' & Hat').
    destruct (Nat.lt_trichotomy n n') as [Hlt|[->|Hgt]]; [lia|lia|].
    specialize (Hbefore n' Hgt). congruence.
Qed.

(** What [fadeIn] has stored is not above the target, so it is not above
    the target plus one step either. *)
Lemma stored_below_step (y c : float) :
  is_finite y = true → in_unit_range c →
  js_gt y c = false →
  js_lt c (step_in c) = true ∧ js_gt y (step_in c) = false.
Proof.
  intros Hfy Hc Hno.
  apply in_unit_range_real in Hc as [Hfc Hvc].
  destruct (step_in_real c Hfc) as [Hfs Hbs]; [lra|].
  unfold js_gt, js_lt in *. split.
  - apply ltb_real; [assumption..|lra].
  - destruct (PrimFloat.ltb (step_in c) y) eqn:Hpast; [|done].
    apply ltb_real in Hpast; [|assumption..].
    assert (Hle : ¬ B2R c < B2R y).
    { intros Hlt. apply (ltb_real c _ Hfc Hfy) in Hlt. congruence. }
    lra.
Qed.

End ModerateRange.

(** ** Runs of a single fade *)

Lemma count_event_app e l1 l2 :
  count_event e (l1 ++ l2) = (count_event e l1 + count_event e l2)%nat.
Proof. unfold count_event. by rewrite filter_app, length_app. Qed.

Lemma count_event_repeat_ne e e' (n : nat) :
  e' ≠ e → count_event e (repeat e' n) = 0%nat.
Proof.
  intros Hne. unfold count_event. induction n as [|n IH]; [done|].
  simpl. by rewrite filter_cons_False.
Qed.

Lemma style_opacity_finish k c e :
  style_opacity (finish_node k c e) = style_opacity e.
Proof. destruct k; simpl; [by destruct (js_gt c 0)|done]. Qed.

Lemma style_opacity_continue k c x e :
  style_opacity (continue_node k c x e) = Some x.
Proof. by destruct k. Qed.


Lemma classList_continue_in c x e :
  js_gt c 0 = true → hidden_class ∉ classList (continue_node FadingIn c x e).
Proof. intros Hc. simpl. rewrite Hc. simpl. apply classList_remove_not_elem. Qed.

Lemma classList_finish_in c e :
  js_gt c 0 = true → hidden_class ∉ classList (finish_node FadingIn c e).
Proof. intros Hc. simpl. rewrite Hc. simpl. apply classList_remove_not_elem. Qed.

Lemma classList_running_in_guard c (j : nat) x e :
  js_gt c 0 = false → classList (running_node FadingIn c j x e) = classList e.
Proof. intros Hc. destruct j; simpl; [done|]. by rewrite Hc. Qed.

Lemma classList_settled_in_guard c (n : nat) x e :
  js_gt c 0 = false → classList (settled_node FadingIn c n x e) = classList e.
Proof. intros Hc. destruct n; simpl; by rewrite Hc. Qed.

Section Runs.
Context `{host : Host}.

Lemma fadeIn_element_started el toOpacity delay w :
  fadeIn_element el toOpacity delay w
  = (Return (next_promise w), started FadingIn el toOpacity delay w).
Proof. reflexivity. Qed.

Lemma fadeOut_element_started el toOpacity delay w :
  fadeOut_element el toOpacity delay w
  = (Return (next_promise w), started FadingOut el toOpacity delay w).
Proof. reflexivity. Qed.

(** The crossing tick, after [n] ticks that did not cross. *)
Lemma fire_n_settles k t el c p d (n : nat) x w :
  intervals w !! t = Some (mkInterval (mkHandler k el x c p) d) →
  (∀ i : nat, (i < n)%nat → crossed k (tracked k (S i) x) c = false) →
  crossed k (tracked k (S n) x) c = true →
  fire_n (S n) t w
  = mkWorld (update_node el (settled_node k c n x) (document w))
            (delete t (intervals w))
            (next_timer w) (alter (λ _, Fulfilled) p (promises w)) (next_promise w)
            (log w ++ repeat (EvTick t) n ++ [EvTick t; EvResolve p; EvClearInterval t]).
Proof.
  intros Ht Hno Hcross. rewrite fire_n_succ_r. destruct n as [|n].
  - simpl fire_n. by rewrite (fire_finish k t el x c p d w Ht Hcross).
  - rewrite (fire_n_running k t el c p d n x w Ht) by (intros i Hi; apply Hno; lia).
    erewrite fire_finish.
    + simpl. rewrite update_node_compose, delete_alter_same, <- app_assoc. reflexivity.
    + simpl. rewrite lookup_alter_eq, Ht. reflexivity.
    + exact Hcross.
Qed.

(** The state of a fade at each tick of its run, from the world in which
    it was started: still running through tick [n], settled at tick
    [n + 1] and inert afterwards. *)
Lemma fade_run k el toOpacity delay (n : nat) w :
  let t := next_timer w in
  let p := next_promise w in
  let x0 := initial_opacity el w in
  let c := clamp toOpacity in
  let w0 := started k el toOpacity delay w in
  (∀ i : nat, (i < n)%nat → crossed k (tracked k (S i) x0) c = false) →
  crossed k (tracked k (S n) x0) c = true →
  (∀ j : nat, (j ≤ n)%nat →
     intervals (fire_n j t w0) !! t
     = Some (mkInterval (mkHandler k el (tracked k j x0) c p) delay)
     ∧ promises (fire_n j t w0) !! p = Some Pending
     ∧ log (fire_n j t w0) = log w ++ repeat (EvTick t) j
     ∧ node_of el (fire_n j t w0) = running_node k c j x0 <$> node_of el w)
  ∧ (let ws := fire_n (S n) t w0 in
     intervals ws !! t = None
     ∧ promises ws !! p = Some Fulfilled
     ∧ log ws = log w ++ repeat (EvTick t) n
                      ++ [EvTick t; EvResolve p; EvClearInterval t]
     ∧ node_of el ws = settled_node k c n x0 <$> node_of el w
     ∧ ∀ m : nat, fire_n m t ws = ws).
Proof.
  intros t p x0 c w0 Hno Hcross.
  assert (Ht : intervals w0 !! t = Some (mkInterval (mkHandler k el x0 c p) delay)).
  { unfold w0, started. simpl. apply lookup_insert_eq. }
  split.
  - intros j Hj. destruct j as [|j].
    + simpl. split_and!.
      * exact Ht.
      * unfold w0, started. simpl. apply lookup_insert_eq.
      * by rewrite app_nil_r.
      * unfold node_of. simpl. by destruct (nodes (document w) !! el).
    + rewrite (fire_n_running k t el c p delay j x0 w0 Ht)
        by (intros i Hi; apply Hno; lia).
      simpl. split_and!.
      * rewrite lookup_alter_eq. unfold t. by rewrite lookup_insert_eq.
      * apply lookup_insert_eq.
      * done.
      * unfold node_of. simpl. apply lookup_alter_eq.
  - intros ws. unfold ws.
    rewrite (fire_n_settles k t el c p delay n x0 w0 Ht Hno Hcross).
    simpl. split_and!.
    + apply lookup_delete_eq.
    + by rewrite lookup_alter_eq, lookup_insert_eq.
    + done.
    + unfold node_of. simpl. apply lookup_alter_eq.
    + intros m. apply fire_n_cleared. simpl. apply lookup_delete_eq.
Qed.

(** Firing any interval leaves a cleared interval cleared and adds no
    tick of it to the log. *)
Lemma fire_keeps_cleared t t' w :
  intervals w !! t = None →
  intervals (fire t' w) !! t = None
  ∧ count_event (EvTick t) (log (fire t' w)) = count_event (EvTick t) (log w).
Proof.
  intros Hnone. destruct (intervals w !! t') as [[[k el x c p] d]|] eqn:Ht'.
  - assert (Hne : t' ≠ t) by (intros ->; congruence).
    destruct (crossed k (fade_step k x) c) eqn:Hcross.
    + rewrite (fire_finish k t' el x c p d w Ht' Hcross). simpl.
      rewrite lookup_delete_ne by done. split; [done|].
      rewrite count_event_app. unfold count_event at 2.
      rewrite filter_cons_False by congruence.
      rewrite filter_cons_False by congruence.
      rewrite filter_cons_False by congruence.
      simpl. lia.
    + rewrite (fire_continue k t' el x c p d w Ht' Hcross). simpl.
      rewrite lookup_alter_ne by done. split; [done|].
      rewrite count_event_app. unfold count_event at 2.
      rewrite filter_cons_False by congruence. simpl. lia.
  - by rewrite fire_cleared.
Qed.


End Runs.

(** ** Fades on a single node *)

Lemma stored_running k c (j : nat) x0 el e w w' :
  node_of el w = Some e →
  node_of el w' = running_node k c j x0 <$> node_of el w →
  stored_opacity el w'
  = match j with O => style_opacity e | S _ => Some (tracked k j x0) end.
Proof.
  intros He Hnode. unfold stored_opacity. rewrite Hnode, He. simpl.
  destruct j; [done|]. simpl. apply style_opacity_continue.
Qed.

Lemma stored_settled k c (n : nat) x0 el e w w' :
  node_of el w = Some e →
  node_of el w' = settled_node k c n x0 <$> node_of el w →
  stored_opacity el w'
  = match n with O => style_opacity e | S _ => Some (tracked k n x0) end.
Proof.
  intros He Hnode. unfold stored_opacity. rewrite Hnode, He. simpl.
  destruct n; simpl; rewrite style_opacity_finish; [done|].
  apply style_opacity_continue.
Qed.

Lemma fadeIn_example_tick (n : nat) :
  (n ≤ 10)%nat →
  (∀ i : nat, (i < n)%nat → crossed FadingIn (tracked FadingIn (S i) 0) (clamp 1) = false) →
  crossed FadingIn (tracked FadingIn (S n) 0) (clamp 1) = true →
  n = 10%nat.
Proof.
  intros Hle _ Hcross.
  do 10 (destruct n as [|n]; [vm_compute in Hcross; discriminate|]).
  lia.
Qed.

Section SingleNode.
Context `{host : Host}.

Lemma fade_element k el toOpacity delay w :
  fade k (AnElement el) toOpacity delay w
  = (Return (next_promise w),
     started k el (default (default_target k) toOpacity) (default 50%float delay) w).
Proof. by destruct k. Qed.

Lemma fadeIn_single el toOpacity delay w :
  fadeIn (AnElement el) toOpacity delay w
  = (Return (next_promise w),
     started FadingIn el (default 1%float toOpacity) (default 50%float delay) w).
Proof. reflexivity. Qed.


(** C1, amended.  [fadeIn] on one node whose stored opacity is a number
    of moderate size (of absolute value below [2^40]; unset reads as 0),
    with a target that is a number: the returned promise is pending and
    the timer runs through some tick [n], with [n <= 10] when the stored
    opacity lies from 0 to 1; at tick [n + 1] the tracked opacity exceeds
    the clamped target, the promise is fulfilled and the timer is gone.
    That last tick writes nothing.  When [n >= 1] the stored opacity at
    settlement is the value stored by tick [n], the last tracked value
    not above the target, hence not above the target plus one step, while
    the tracked value one step further is above the target; nothing sets
    the stored opacity to the target.  When [n = 0] the first tick
    crosses already, no tick has written, and the node keeps the style it
    had, however far above the target that is.  When the clamped target
    is positive the node carries no hidden class after any tick; when it
    is not, no tick touches the class list, so a hidden node settles
    hidden.  For [fadeIn(el, 1, delay)] from opacity 0 the settling tick
    is the eleventh and the stored opacity is then 1. *)
Theorem fadeIn_settles (el : NodeId) (e : Element) (toOpacity delay : option float)
    (w : World) :
  node_of el w = Some e →
  moderate (initial_opacity el w) →
  PrimFloat.is_nan (default 1%float toOpacity) = false →
  let t := next_timer w in
  let p := next_promise w in
  let x0 := initial_opacity el w in
  let c := clamp (default 1%float toOpacity) in
  let r := fadeIn (AnElement el) toOpacity delay w in
  r.1 = Return p
  ∧ ∃ n : nat, (in_unit_range x0 → (n ≤ 10)%nat)
    ∧ (∀ j : nat, (j ≤ n)%nat →
         is_Some (intervals (fire_n j t r.2) !! t)
         ∧ promises (fire_n j t r.2) !! p = Some Pending)
    ∧ (let ws := fire_n (S n) t r.2 in
       intervals ws !! t = None
       ∧ promises ws !! p = Some Fulfilled
       ∧ stored_opacity el ws = stored_opacity el (fire_n n t r.2)
       ∧ match n with
         | O => stored_opacity el ws = style_opacity e
         | S _ => stored_opacity el ws = Some (tracked FadingIn n x0)
                  ∧ js_gt (tracked FadingIn n x0) c = false
                  ∧ js_lt c (step_in c) = true
                  ∧ js_gt (tracked FadingIn n x0) (step_in c) = false
         end
       ∧ js_gt (step_in (tracked FadingIn n x0)) c = true
       ∧ ∀ m : nat, fire_n m t ws = ws)
    ∧ (js_gt c 0 = true →
       ∀ j : nat, (1 ≤ j ≤ S n)%nat → ¬ is_hidden el (fire_n j t r.2))
    ∧ (js_gt c 0 = false →
       ∀ j : nat, (j ≤ S n)%nat → classList_of el (fire_n j t r.2) = classList e)
    ∧ (x0 = 0%float → default 1%float toOpacity = 1%float →
       n = 10%nat
       ∧ stored_opacity el (fire_n 11 t r.2) = Some 1%float
       ∧ ∀ j : nat, (1 ≤ j ≤ 11)%nat → ¬ is_hidden el (fire_n j t r.2)).
Proof.
  intros He Hx Hnan t p x0 c r. subst t p.
  unfold r. rewrite fadeIn_single. cbn [fst snd].
  pose proof (clamp_in_unit_range _ Hnan) as Hrange. fold c in Hrange.
  split; [done|].
  destruct (moderate_schedule FadingIn x0 c Hx Hrange)
    as (n & Hno & Hcross & Hmono & Hn).
  destruct (fade_run FadingIn el (default 1%float toOpacity) (default 50%float delay)
              n w Hno Hcross) as [Hrun Hend].
  cbn zeta in Hend. destruct Hend as (Hgone & Hdone & Hlog & Hnode & Hinert).
  assert (Hvisible : js_gt c 0 = true →
            ∀ j : nat, (1 ≤ j ≤ S n)%nat →
              ¬ is_hidden el (fire_n j (next_timer w)
                                (started FadingIn el (default 1%float toOpacity)
                                         (default 50%float delay) w))).
  { intros Hc j Hj. unfold is_hidden, classList_of.
    destruct (decide (j = S n)) as [->|Hne].
    - rewrite Hnode, He. simpl. destruct n; simpl; by apply classList_finish_in.
    - destruct (Hrun j ltac:(lia)) as (_ & _ & _ & Hnode_j).
      rewrite Hnode_j, He. simpl. destruct j as [|j]; [lia|].
      by apply classList_continue_in. }
  exists n. split; [done|]. split; [|split; [|split; [|split]]].
  - intros j Hj. destruct (Hrun j Hj) as (Hi & Hp & _ & _). split; [|done].
    rewrite Hi. by eexists.
  - cbn zeta. split_and!.
    + done.
    + done.
    + destruct (Hrun n ltac:(lia)) as (_ & _ & _ & Hnode_n).
      rewrite (stored_settled FadingIn c n x0 el e w _ He Hnode).
      by rewrite (stored_running FadingIn c n x0 el e w _ He Hnode_n).
    + rewrite (stored_settled FadingIn c n x0 el e w _ He Hnode).
      destruct n as [|n]; [done|].
      assert (Hbelow : js_gt (tracked FadingIn (S n) x0) c = false)
        by (apply (Hno n); lia).
      destruct (Hmono (S n) ltac:(lia)) as [Hfinite _].
      destruct (stored_below_step _ c Hfinite Hrange Hbelow) as [Hstep Hbound].
      by split_and!.
    + exact Hcross.
    + exact Hinert.
  - exact Hvisible.
  - intros Hc j Hj. unfold classList_of.
    destruct (decide (j = S n)) as [->|Hne].
    + rewrite Hnode, He. simpl. by apply classList_settled_in_guard.
    + destruct (Hrun j ltac:(lia)) as (_ & _ & _ & Hnode_j).
      rewrite Hnode_j, He. simpl. by apply classList_running_in_guard.
  - intros Hzero Hone. fold x0 in Hno, Hcross. fold c in Hno, Hcross.
    assert (Hc1 : c = clamp 1) by (unfold c; by rewrite Hone).
    assert (Hten : (n ≤ 10)%nat)
      by (apply Hn; rewrite Hzero; split_and!; reflexivity).
    rewrite Hzero, Hc1 in Hno, Hcross.
    pose proof (fadeIn_example_tick n Hten Hno Hcross) as ->.
    split_and!.
    + done.
    + rewrite (stored_settled FadingIn c 10 x0 el e w _ He Hnode).
      rewrite Hzero. vm_compute. reflexivity.
    + apply Hvisible. rewrite Hc1. reflexivity.
Qed.


(** C4, amended.  Each tick sets the tracked opacity to
    [(opacity * 10 + 1) / 10] (fadeIn) or [(opacity * 10 - 1) / 10]
    (fadeOut) in binary64 arithmetic, and the tick that crosses the target
    removes the timer.  Such a step moves every number of moderate size
    (of absolute value below [2^40]) strictly, up for fadeIn and down for
    fadeOut.  For a fade that starts from a stored opacity of moderate
    size (unset reads as 0), with a target that is a number, the tracked
    opacity moves strictly at every tick up to and including the tick
    [n + 1] that crosses the target, which is among the first eleven when
    the stored opacity lies from 0 to 1; that tick calls [clearInterval]
    once and no later firing calls it again. *)
Theorem fade_steps_monotone (k : FadeKind) (el : NodeId) (e : Element)
    (toOpacity delay : option float) (w : World) :
  node_of el w = Some e →
  moderate (initial_opacity el w) →
  PrimFloat.is_nan (default (default_target k) toOpacity) = false →
  let t := next_timer w in
  let x0 := initial_opacity el w in
  let c := clamp (default (default_target k) toOpacity) in
  let w0 := (fade k (AnElement el) toOpacity delay w).2 in
  (∀ x, fade_step FadingIn x = ((x * 10) + 1) / 10
        ∧ fade_step FadingOut x = ((x * 10) - 1) / 10)%float
  ∧ (∀ k' x, moderate x → strictly k' x (fade_step k' x) = true)
  ∧ (∀ w' t' k' el' x c' p' d,
       intervals w' !! t' = Some (mkInterval (mkHandler k' el' x c' p') d) →
       if crossed k' (fade_step k' x) c'
       then intervals (fire t' w') !! t' = None
       else tracked_opacity t' (fire t' w') = Some (fade_step k' x))
  ∧ ∃ n : nat, (in_unit_range x0 → (n ≤ 10)%nat)
    ∧ (∀ j : nat, (j ≤ n)%nat →
         tracked_opacity t (fire_n j t w0) = Some (tracked k j x0)
         ∧ strictly k (tracked k j x0) (tracked k (S j) x0) = true)
    ∧ (∀ j : nat, (j < n)%nat → crossed k (tracked k (S j) x0) c = false)
    ∧ crossed k (tracked k (S n) x0) c = true
    ∧ (let ws := fire_n (S n) t w0 in
       intervals ws !! t = None
       ∧ count_event (EvClearInterval t) (log ws)
         = S (count_event (EvClearInterval t) (log w))
       ∧ ∀ m : nat, fire_n m t ws = ws).
Proof.
  intros He Hx Hnan t x0 c w0. subst t. split_and!.
  - intros x. split; reflexivity.
  - intros k' x. apply fade_step_strict.
  - intros w' t' k' el' x c' p' d Ht'.
    destruct (crossed k' (fade_step k' x) c') eqn:Hcross.
    + rewrite (fire_finish k' t' el' x c' p' d w' Ht' Hcross). simpl.
      apply lookup_delete_eq.
    + rewrite (fire_continue k' t' el' x c' p' d w' Ht' Hcross).
      unfold tracked_opacity. simpl. by rewrite lookup_alter_eq, Ht'.
  - unfold w0. rewrite fade_element. cbn [fst snd].
    destruct (moderate_schedule k x0 c Hx (clamp_in_unit_range _ Hnan))
      as (n & Hno & Hcross & Hmono & Hn).
    destruct (fade_run k el (default (default_target k) toOpacity)
                (default 50%float delay) n w Hno Hcross) as [Hrun Hend].
    cbn zeta in Hend. destruct Hend as (Hgone & Hdone & Hlog & Hnode & Hinert).
    exists n. split; [done|]. split; [|split; [done|split; [done|]]].
    + intros j Hj. destruct (Hrun j Hj) as (Hi & _).
      split; [|by destruct (Hmono j Hj)].
      unfold tracked_opacity. by rewrite Hi.
    + cbn zeta. split_and!.
      * done.
      * rewrite Hlog, !count_event_app, count_event_repeat_ne by done.
        unfold count_event at 2.
        rewrite filter_cons_False by done.
        rewrite filter_cons_False by done.
        rewrite filter_cons_True by done. simpl. lia.
      * exact Hinert.
Qed.

End SingleNode.

(** ** Fades on a collection *)

Lemma offset_succ base (i : nat) : offset (Pos.succ base) i = offset base (S i).
Proof. unfold offset. symmetry. apply Nat.iter_succ_r. Qed.

Lemma offset_to_nat base (i : nat) :
  Pos.to_nat (offset base i) = (Pos.to_nat base + i)%nat.
Proof.
  induction i as [|i IH]; simpl; [lia|].
  unfold offset in *. simpl. rewrite Pos2Nat.inj_succ, IH. lia.
Qed.

Lemma offset_lt base (i j : nat) : (i < j)%nat → (offset base i < offset base j)%positive.
Proof.
  intros Hij. apply Pos2Nat.inj_lt. rewrite !offset_to_nat. lia.
Qed.

Lemma initial_opacity_started k el el' toOpacity delay w :
  initial_opacity el (started k el' toOpacity delay w) = initial_opacity el w.
Proof. reflexivity. Qed.

Lemma started_all_document k ns toOpacity delay w :
  document (started_all k ns toOpacity delay w) = document w
  ∧ log (started_all k ns toOpacity delay w) = log w
  ∧ next_promise (started_all k ns toOpacity delay w)
    = offset (next_promise w) (length ns)
  ∧ next_timer (started_all k ns toOpacity delay w)
    = offset (next_timer w) (length ns).
Proof.
  revert w. induction ns as [|el ns IH]; intros w; [done|].
  simpl. destruct (IH (started k el toOpacity delay w)) as (Hd & Hl & Hp & Ht).
  rewrite Hd, Hl, Hp, Ht. simpl. by rewrite !offset_succ.
Qed.

Lemma started_all_below k ns toOpacity delay w q :
  ((q < next_promise w)%positive →
   promises (started_all k ns toOpacity delay w) !! q = promises w !! q)
  ∧ ((q < next_timer w)%positive →
     intervals (started_all k ns toOpacity delay w) !! q = intervals w !! q).
Proof.
  revert w. induction ns as [|el ns IH]; intros w; [done|].
  simpl. destruct (IH (started k el toOpacity delay w)) as [Hp Ht]. simpl in *.
  split; intros Hq.
  - rewrite Hp by lia. apply lookup_insert_ne. lia.
  - rewrite Ht by lia. apply lookup_insert_ne. lia.
Qed.

Lemma started_all_nth k ns toOpacity delay w (i : nat) el :
  ns !! i = Some el →
  promises (started_all k ns toOpacity delay w) !! offset (next_promise w) i
  = Some Pending
  ∧ intervals (started_all k ns toOpacity delay w) !! offset (next_timer w) i
    = Some (mkInterval (mkHandler k el (initial_opacity el w) (clamp toOpacity)
                                  (offset (next_promise w) i)) delay).
Proof.
  revert w i. induction ns as [|el' ns IH]; intros w i Hi; [done|].
  destruct i as [|i]; simpl in Hi.
  - injection Hi as ->. simpl.
    destruct (started_all_below k ns toOpacity delay
                (started k el toOpacity delay w) (next_promise w)) as [Hp _].
    destruct (started_all_below k ns toOpacity delay
                (started k el toOpacity delay w) (next_timer w)) as [_ Ht].
    simpl in *. rewrite Hp, Ht by lia. by rewrite !lookup_insert_eq.
  - destruct (IH (started k el' toOpacity delay w) i Hi) as [Hp Ht].
    change (next_promise (started k el' toOpacity delay w))
      with (Pos.succ (next_promise w)) in Hp, Ht.
    change (next_timer (started k el' toOpacity delay w))
      with (Pos.succ (next_timer w)) in Ht.
    rewrite !offset_succ in Hp, Ht.
    change (started_all k (el' :: ns) toOpacity delay w)
      with (started_all k ns toOpacity delay (started k el' toOpacity delay w)).
    split; [exact Hp|]. rewrite Ht, offset_succ. reflexivity.
Qed.

Section Collections.
Context `{host : Host}.

Lemma fade_element_of_started k el toOpacity delay w :
  fade_element_of k el toOpacity delay w
  = (Return (next_promise w), started k el toOpacity delay w).
Proof. by destruct k. Qed.

Lemma map_in_order_fade k toOpacity delay ns w :
  map_in_order (λ el, fade_element_of k el toOpacity delay) ns w
  = (Return (map (offset (next_promise w)) (seq 0 (length ns))),
     started_all k ns toOpacity delay w).
Proof.
  revert w. induction ns as [|el ns IH]; intros w; [done|].
  simpl. unfold_monad. rewrite fade_element_of_started, IH. simpl.
  do 3 f_equal. rewrite <- seq_shift, map_map.
  apply map_ext. intros i. apply offset_succ.
Qed.

Lemma fade_collection k elements toOpacity delay w :
  (∀ el, elements ≠ AnElement el) →
  fade k elements toOpacity delay w
  = (_ ← elementMap elements
           (λ el, fade_element_of k el (default (default_target k) toOpacity)
                                  (default 50%float delay));
     Promise_resolve) w.
Proof.
  intros Hnot. destruct k, elements as [el| | |]; try reflexivity;
    by destruct (Hnot el).
Qed.

(** C2.  [fadeIn] and [fadeOut] on a target that is not a single element
    and resolves to the nodes [ns]: the call starts one fade per node and
    returns a promise of its own that is already fulfilled in the world
    it returns.  The promises of the per-node fades are all still pending
    there, none of them is the returned one, their timers have been set
    but no tick has run (the log and the document are as before the
    call). *)
Theorem fade_collection_resolves_at_once (k : FadeKind) (elements : Elements)
    (ns : list NodeId) (toOpacity delay : option float) (w : World) :
  (∀ el, elements ≠ AnElement el) →
  normalize elements w = Return ns →
  let p0 := next_promise w in
  let t0 := next_timer w in
  let r := fade k elements toOpacity delay w in
  let returned := offset p0 (length ns) in
  r.1 = Return returned
  ∧ promises r.2 !! returned = Some Fulfilled
  ∧ (∀ (i : nat) el, ns !! i = Some el →
       promises r.2 !! offset p0 i = Some Pending
       ∧ offset p0 i ≠ returned
       ∧ intervals r.2 !! offset t0 i
         = Some (mkInterval
                   (mkHandler k el (initial_opacity el w)
                              (clamp (default (default_target k) toOpacity))
                              (offset p0 i))
                   (default 50%float delay)))
  ∧ log r.2 = log w
  ∧ document r.2 = document w.
Proof.
  intros Hnot Hns p0 t0 r returned. subst p0 t0 r returned.
  rewrite (fade_collection k elements toOpacity delay w Hnot).
  unfold_monad. rewrite elementMap_normalize, Hns, map_in_order_fade.
  unfold Promise_resolve.
  destruct (started_all_document k ns (default (default_target k) toOpacity)
              (default 50%float delay) w) as (Hd & Hl & Hp & Ht).
  cbn [fst snd]. rewrite Hp. simpl. split_and!.
  - done.
  - apply lookup_insert_eq.
  - intros i el Hi.
    destruct (started_all_nth k ns (default (default_target k) toOpacity)
                (default 50%float delay) w i el Hi) as [Hpi Hti].
    assert (Hlt : (offset (next_promise w) i
                   < offset (next_promise w) (length ns))%positive).
    { apply offset_lt. by apply lookup_lt_Some in Hi. }
    split_and!.
    + rewrite lookup_insert_ne by lia. exact Hpi.
    + lia.
    + exact Hti.
  - exact Hl.
  - exact Hd.
Qed.

End Collections.

(** ** Interpolation *)



Section Interpolation.
Context `{host : Host}.






End Interpolation.



Section InterpolationClaims.
Context `{host : Host}.




End InterpolationClaims.


(** ** HTML to element *)

(** *** Trimming *)

Lemma length_append (a b : string) :
  String.length (a +:+ b) = (String.length a + String.length b)%nat.
Proof. induction a as [|c a IH]; [done|]. rewrite append_cons. simpl. by rewrite IH. Qed.

Lemma length_rev_string (s acc : string) :
  String.length (rev_string s acc) = (String.length s + String.length acc)%nat.
Proof.
  revert acc. induction s as [|c s IH]; intros acc; [done|].
  simpl. rewrite IH. simpl. lia.
Qed.

Lemma strip_string_prefix_Some p s r :
  strip_string_prefix p s = Some r ↔ s = p +:+ r.
Proof.
  revert s. induction p as [|a p IH]; intros s; simpl.
  - split; [by intros [= ->]|by intros ->].
  - destruct s as [|b s]; [done|]. rewrite append_cons.
    destruct (Ascii.eqb_spec a b) as [->|Hne].
    + rewrite IH. split; [by intros ->|by intros [= ->]].
    + split; [done|]. intros [= Hab _]. by destruct Hne.
Qed.

Lemma skip_white_space_Some seqs s r :
  skip_white_space seqs s = Some r → ∃ p, p ∈ seqs ∧ s = p +:+ r.
Proof.
  induction seqs as [|p seqs IH]; simpl; [done|].
  destruct (strip_string_prefix p s) as [s'|] eqn:Hp.
  - intros [= ->]. exists p. split; [by left|]. by apply strip_string_prefix_Some.
  - intros Hrest. destruct (IH Hrest) as (q & Hq & Heq). exists q. split; [by right|done].
Qed.

Lemma skip_white_space_None seqs s p r :
  skip_white_space seqs s = None → p ∈ seqs → s ≠ p +:+ r.
Proof.
  induction seqs as [|q seqs IH]; simpl; intros Hnone Hin; [by apply elem_of_nil in Hin|].
  destruct (strip_string_prefix q s) as [s'|] eqn:Hq; [done|].
  apply elem_of_cons in Hin as [->|Hin]; [|by apply IH].
  intros Heq. apply strip_string_prefix_Some in Heq. congruence.
Qed.

Section Trimming.
Variable seqs : list string.
Hypothesis seqs_nonempty : ∀ p, p ∈ seqs → p ≠ EmptyString.
Hypothesis seqs_prefix :
  ∀ p s, p ∈ seqs → skip_white_space seqs (p +:+ s) = Some s.

Lemma skip_white_space_empty : skip_white_space seqs EmptyString = None.
Proof.
  destruct (skip_white_space seqs EmptyString) as [r|] eqn:Hskip; [|done].
  apply skip_white_space_Some in Hskip as (p & Hin & Heq).
  destruct p as [|c p]; [by destruct (seqs_nonempty _ Hin)|done].
Qed.

Lemma skip_white_space_shorter s r :
  skip_white_space seqs s = Some r → (String.length r < String.length s)%nat.
Proof.
  intros Hskip. apply skip_white_space_Some in Hskip as (p & Hin & ->).
  rewrite length_append. destruct p as [|c p]; [by destruct (seqs_nonempty _ Hin)|].
  simpl. lia.
Qed.

(** Any fuel from the length of the string on gives the same. *)
Lemma trim_with_fuel (n m : nat) s :
  (String.length s ≤ n)%nat → (String.length s ≤ m)%nat →
  trim_with n seqs s = trim_with m seqs s.
Proof.
  revert m s. induction n as [|n IH]; intros m s Hn Hm.
  - destruct s as [|c s]; [|simpl in Hn; lia].
    destruct m; simpl; [done|]. by rewrite skip_white_space_empty.
  - destruct m as [|m].
    + destruct s as [|c s]; [|simpl in Hm; lia].
      simpl. by rewrite skip_white_space_empty.
    + simpl. destruct (skip_white_space seqs s) as [r|] eqn:Hskip; [|done].
      apply skip_white_space_shorter in Hskip. apply IH; lia.
Qed.

(** What trimming removes is made of the sequences, and what it leaves
    does not start with one. *)
Lemma trim_with_spec (n : nat) s :
  (String.length s ≤ n)%nat →
  ∃ b, run_of seqs b ∧ s = b +:+ trim_with n seqs s
       ∧ skip_white_space seqs (trim_with n seqs s) = None.
Proof.
  revert s. induction n as [|n IH]; intros s Hn.
  - destruct s as [|c s]; [|simpl in Hn; lia].
    exists EmptyString. split_and!; [constructor|done|apply skip_white_space_empty].
  - simpl. destruct (skip_white_space seqs s) as [r|] eqn:Hskip.
    + pose proof (skip_white_space_shorter _ _ Hskip) as Hshort.
      apply skip_white_space_Some in Hskip as (p & Hin & ->).
      destruct (IH r ltac:(lia)) as (b & Hb & Hr & Hnone).
      exists (p +:+ b). split_and!; [by constructor| |done].
      by rewrite string_append_assoc, <- Hr.
    + exists EmptyString. split_and!; [constructor|done|done].
Qed.

Lemma trim_with_run b s :
  run_of seqs b →
  trim_with (String.length (b +:+ s)) seqs (b +:+ s)
  = trim_with (String.length s) seqs s.
Proof.
  induction 1 as [|p b Hin Hb IH]; [done|].
  rewrite string_append_assoc.
  destruct (String.length (p +:+ (b +:+ s))) as [|n] eqn:Hlen.
  - rewrite length_append in Hlen.
    destruct p as [|c p]; [by destruct (seqs_nonempty _ Hin)|done].
  - simpl. rewrite seqs_prefix by done. rewrite <- IH. apply trim_with_fuel; [|done].
    rewrite length_append in Hlen.
    destruct p as [|c p]; [by destruct (seqs_nonempty _ Hin)|]. simpl in Hlen. lia.
Qed.

Lemma trim_with_fixed (n : nat) s :
  skip_white_space seqs s = None → trim_with n seqs s = s.
Proof. intros Hnone. destruct n; simpl; [done|]. by rewrite Hnone. Qed.

Lemma run_of_app a b : run_of seqs a → run_of seqs b → run_of seqs (a +:+ b).
Proof.
  induction 1 as [|p a Hin Ha IH]; intros Hb; [done|].
  rewrite string_append_assoc. constructor; [done|by apply IH].
Qed.

Lemma run_of_one p : p ∈ seqs → run_of seqs p.
Proof. intros Hin. rewrite <- (append_empty_r p). constructor; [done|constructor]. Qed.

Lemma run_of_all b : run_of seqs b → trim_with (String.length b) seqs b = EmptyString.
Proof.
  intros Hb. pose proof (trim_with_run b EmptyString Hb) as Hrun.
  by rewrite append_empty_r in Hrun.
Qed.

End Trimming.

Lemma rev_string_acc (s acc : string) :
  rev_string s acc = rev_string s EmptyString +:+ acc.
Proof.
  revert acc. induction s as [|c s IH]; intros acc; [done|].
  simpl. rewrite (IH (String c acc)), (IH (String c EmptyString)).
  by rewrite string_append_assoc.
Qed.

Lemma rev_string_app (a b : string) :
  rev_string (a +:+ b) EmptyString
  = rev_string b EmptyString +:+ rev_string a EmptyString.
Proof. by rewrite rev_string_append, rev_string_acc. Qed.

Lemma run_of_reversed seqs b :
  run_of seqs b → run_of (reversed seqs) (rev_string b EmptyString).
Proof.
  induction 1 as [|p b Hin Hb IH]; [constructor|].
  rewrite rev_string_app. apply run_of_app; [done|].
  apply run_of_one. unfold reversed. apply list_elem_of_fmap. by exists p.
Qed.

Lemma reversed_involutive seqs : reversed (reversed seqs) = seqs.
Proof.
  unfold reversed. induction seqs as [|p seqs IH]; [done|].
  simpl. by rewrite rev_string_involutive, IH.
Qed.

(** *** The white space of ECMAScript *)

Lemma white_space_nonempty p : p ∈ white_space → p ≠ EmptyString.
Proof. intros Hin. each_of Hin; discriminate. Qed.

Lemma white_space_prefix p s :
  p ∈ white_space → skip_white_space white_space (p +:+ s) = Some s.
Proof. intros Hin. each_of Hin; reflexivity. Qed.

Lemma reversed_nonempty p : p ∈ reversed white_space → p ≠ EmptyString.
Proof. intros Hin. each_of Hin; discriminate. Qed.

Lemma reversed_prefix p s :
  p ∈ reversed white_space →
  skip_white_space (reversed white_space) (p +:+ s) = Some s.
Proof. intros Hin. each_of Hin; reflexivity. Qed.

(** A string that does not start with white space does not start with
    it either when a white-space character follows its end: no encoding
    of white space continues with a byte that starts one. *)
Lemma skip_white_space_extend r c a :
  r ≠ EmptyString → skip_white_space white_space r = None →
  white_lead c = true →
  skip_white_space white_space (r +:+ String c a) = None.
Proof.
  intros Hne Hnone Hc.
  destruct (skip_white_space white_space (r +:+ String c a)) as [x|] eqn:Hskip; [|done].
  exfalso. apply skip_white_space_Some in Hskip as (p & Hin & Heq).
  assert (Hno : ∀ q r', q ∈ white_space → r ≠ q +:+ r')
    by (intros q r' Hq; exact (skip_white_space_None white_space r q r' Hnone Hq)).
  assert (Hkeep : p ∈ white_space) by exact Hin.
  each_of Hin.
  all: destruct r as [|c1 [|c2 [|c3 r3]]]; [done|..].
  all: vm_compute in Heq; injection Heq as Heq; subst.
  all: try (vm_compute in Hc; discriminate).
  all: try (eapply (Hno _ _ Hkeep); reflexivity).
Qed.

Lemma white_space_only_lead a :
  white_space_only a →
  a = EmptyString ∨ ∃ c a', a = String c a' ∧ white_lead c = true.
Proof.
  destruct 1 as [|p s Hin Hs]; [by left|]. right.
  each_of Hin; eexists _, _; (split; [reflexivity|reflexivity]).
Qed.

Lemma all_trim_space_white pad : all_trim_space pad = true → white_space_only pad.
Proof.
  induction pad as [|c pad IH]; [constructor|].
  simpl. rewrite andb_true_iff. intros [Hc Hpad].
  change (String c pad) with (String c EmptyString +:+ pad).
  constructor; [|by apply IH].
  destruct c as [[] [] [] [] [] [] [] []]; try discriminate Hc.
  all: apply (bool_decide_unpack _); vm_compute; exact I.
Qed.

(** What [trim_start] removes is white space, and what it leaves does
    not start with white space. *)
Lemma trim_start_spec s :
  ∃ b, white_space_only b ∧ s = b +:+ trim_start s
       ∧ skip_white_space white_space (trim_start s) = None.
Proof.
  apply trim_with_spec; [apply white_space_nonempty|done].
Qed.

Lemma trim_start_run b s : white_space_only b → trim_start (b +:+ s) = trim_start s.
Proof.
  apply trim_with_run; [apply white_space_nonempty|apply white_space_prefix].
Qed.

Lemma trim_end_spec s :
  ∃ a, white_space_only a ∧ s = trim_end s +:+ a
       ∧ skip_white_space (reversed white_space) (rev_string (trim_end s) EmptyString)
         = None.
Proof.
  unfold trim_end.
  destruct (trim_with_spec (reversed white_space) reversed_nonempty
              (String.length s) (rev_string s EmptyString)) as (b & Hb & Heq & Hnone).
  { rewrite length_rev_string. simpl. lia. }
  exists (rev_string b EmptyString). split_and!.
  - unfold white_space_only. rewrite <- (reversed_involutive white_space).
    by apply run_of_reversed.
  - rewrite <- rev_string_app, <- Heq. by rewrite rev_string_involutive.
  - by rewrite rev_string_involutive.
Qed.

Lemma trim_end_run s a : white_space_only a → trim_end (s +:+ a) = trim_end s.
Proof.
  intros Ha. unfold trim_end. f_equal. rewrite rev_string_app.
  replace (String.length (s +:+ a))
    with (String.length (rev_string a EmptyString +:+ rev_string s EmptyString))
    by (rewrite !length_append, !length_rev_string; simpl; lia).
  replace (String.length s) with (String.length (rev_string s EmptyString))
    by (rewrite length_rev_string; simpl; lia).
  apply trim_with_run; [apply reversed_nonempty|apply reversed_prefix|].
  by apply run_of_reversed.
Qed.

(** [trim] gives the part of the string between the white space at its
    two ends. *)
Lemma trim_spec s :
  ∃ before after,
    s = before +:+ trim s +:+ after
    ∧ white_space_only before ∧ white_space_only after
    ∧ skip_white_space white_space (trim s) = None
    ∧ skip_white_space (reversed white_space) (rev_string (trim s) EmptyString) = None.
Proof.
  destruct (trim_start_spec s) as (b & Hb & Hs & Hstart).
  destruct (trim_end_spec (trim_start s)) as (a & Ha & Ht & Hend).
  exists b, a. fold (trim s) in Ht, Hend. split_and!; [|done|done| |done].
  - by rewrite <- Ht.
  - destruct (skip_white_space white_space (trim s)) as [x|] eqn:Hskip; [|done].
    apply skip_white_space_Some in Hskip as (p & Hin & Heq).
    rewrite Ht, Heq, string_append_assoc, white_space_prefix in Hstart by done.
    discriminate.
Qed.

(** White space around a string does not change what [trim] gives. *)
Lemma trim_padding before after s :
  white_space_only before → white_space_only after →
  trim (before +:+ s +:+ after) = trim s.
Proof.
  intros Hbefore Hafter. unfold trim. rewrite trim_start_run by done.
  destruct (trim_start_spec s) as (b & Hb & Hs & Hnone).
  set (r := trim_start s) in *.
  rewrite Hs at 1. rewrite string_append_assoc, trim_start_run by done.
  destruct (white_space_only_lead after Hafter) as [->|(c & a' & Hlead & Hc)].
  { rewrite append_empty_r. unfold trim_start. by rewrite trim_with_fixed. }
  destruct r as [|c1 r1] eqn:Hr.
  - change (EmptyString +:+ after) with after.
    unfold trim_start at 1. by rewrite (run_of_all white_space) by
      (try apply white_space_nonempty; try apply white_space_prefix; done).
  - rewrite <- Hr in *. unfold trim_start at 1.
    rewrite trim_with_fixed.
    + by apply trim_end_run.
    + rewrite Hlead. apply skip_white_space_extend; [by rewrite Hr|done|done].
Qed.

(** *** The first element child *)

Lemma firstElementChild_first before el after :
  is_element el = true →
  (∀ n, n ∈ before → is_element n = false) →
  firstElementChild (before ++ el :: after) = Some el.
Proof.
  intros Hel Hbefore. unfold firstElementChild.
  induction before as [|n before IH]; simpl.
  - by rewrite Hel.
  - rewrite (Hbefore n) by left. apply IH. intros m Hm. apply Hbefore. by right.
Qed.

Lemma firstElementChild_none kids :
  (∀ n, n ∈ kids → is_element n = false) → firstElementChild kids = None.
Proof.
  intros Hnone. unfold firstElementChild.
  induction kids as [|n kids IH]; simpl; [done|].
  rewrite (Hnone n) by left. apply IH. intros m Hm. apply Hnone. by right.
Qed.

Section MarkupClaims.
Context `{host : Host}.

(** C9.  [htmlToElement] parses the trimmed string inside a detached
    container.  The trimmed string is what lies between the white space
    at the two ends of [html]: what is cut off at either end is white
    space only (the white space and line terminators of ECMAScript), what
    is left neither starts nor ends with white space, and white space
    added around [html] changes nothing of the result.  With a wrapper
    tag the function returns the container holding everything that was
    parsed.  Without one it parses in a template and returns the first
    element among the parsed nodes: nodes before it that are not elements
    are skipped and whatever follows it is left out of the result; when
    no parsed node is an element the result is no element.  With the
    small concrete host, ["<li>a</li><li>b</li>"] gives the node
    [<li>a</li>]; in a [ul] wrapper, and with a blank, a line feed, a
    no-break space and a byte order mark around it, it gives the two
    list items and no text, although that host's parser keeps white
    space as text. *)
Theorem htmlToElement_first_child (html : string) :
  (∃ before after,
     html = before +:+ trim html +:+ after
     ∧ white_space_only before ∧ white_space_only after
     ∧ skip_white_space white_space (trim html) = None
     ∧ skip_white_space (reversed white_space) (rev_string (trim html) EmptyString)
       = None)
  ∧ (∀ before after wrapperTag,
       white_space_only before → white_space_only after →
       htmlToElement (before +:+ html +:+ after) wrapperTag
       = htmlToElement html wrapperTag)
  ∧ (∀ tag, valid_element_name tag = true → truthy (Some tag) = true →
     htmlToElement html (Some tag)
     = Return (Some (HElem tag [] (parse_fragment tag (trim html)))))
  ∧ (valid_element_name "template" = true →
     htmlToElement html None
     = Return (firstElementChild (parse_fragment "template" (trim html)))
     ∧ (∀ before el after,
          parse_fragment "template" (trim html) = before ++ el :: after →
          is_element el = true →
          (∀ n, n ∈ before → is_element n = false) →
          htmlToElement html None = Return (Some el))
     ∧ ((∀ n, n ∈ parse_fragment "template" (trim html) → is_element n = false) →
        htmlToElement html None = Return None))
  ∧ @htmlToElement SimpleHost.simple_host "<li>a</li><li>b</li>" None
    = Return (Some (HElem "li" [] [HText "a"]))
  ∧ @htmlToElement SimpleHost.simple_host "<li>a</li><li>b</li>" (Some "ul")
    = Return (Some (HElem "ul" [] [HElem "li" [] [HText "a"];
                                   HElem "li" [] [HText "b"]]))
  ∧ @htmlToElement SimpleHost.simple_host
      (utf8 [32; 10] +:+ "<li>a</li><li>b</li>" +:+ utf8 [194; 160; 239; 187; 191])
      (Some "ul")
    = Return (Some (HElem "ul" [] [HElem "li" [] [HText "a"];
                                   HElem "li" [] [HText "b"]]))
  ∧ @parse_fragment SimpleHost.simple_host "ul" (utf8 [32; 10] +:+ "<li>a</li>")
    = [HText (utf8 [32; 10]); HElem "li" [] [HText "a"]].
Proof.
  split_and!.
  - apply trim_spec.
  - intros before after wrapperTag Hbefore Hafter.
    unfold htmlToElement. by rewrite trim_padding.
  - intros tag Hvalid Htruthy. unfold htmlToElement, createElement.
    change (default "template" (Some tag)) with tag.
    by rewrite Hvalid, Htruthy.
  - intros Hvalid.
    assert (Hgen : htmlToElement html None
                   = Return (firstElementChild (parse_fragment "template" (trim html)))).
    { unfold htmlToElement, createElement.
      change (default "template" None) with "template".
      rewrite Hvalid. reflexivity. }
    split_and!.
    + exact Hgen.
    + intros before el after Hparse Hel Hbefore.
      rewrite Hgen, Hparse. f_equal. by apply firstElementChild_first.
    + intros Hnone. rewrite Hgen. f_equal. by apply firstElementChild_none.
  - reflexivity.
  - reflexivity.
  - reflexivity.
  - reflexivity.
Qed.

End MarkupClaims.

(** ** Worked examples on the small host *)

Section Stall.
Context `{host : Host}.

(** A tick that neither moves the tracked opacity nor crosses the target
    leaves the fade as it was, so it runs for ever. *)
Lemma stalled_fade_runs k t el x c p d w (n : nat) :
  intervals w !! t = Some (mkInterval (mkHandler k el x c p) d) →
  fade_step k x = x →
  crossed k x c = false →
  intervals (fire_n n t w) !! t = Some (mkInterval (mkHandler k el x c p) d).
Proof.
  intros Ht Hstep Hcross. revert w Ht. induction n as [|n IH]; intros w Ht; [done|].
  simpl. apply IH.
  rewrite (fire_continue k t el x c p d w Ht) by (by rewrite Hstep).
  simpl. rewrite lookup_alter_eq, Ht. simpl. unfold set_tracked. simpl.
  by rewrite Hstep.
Qed.

Lemma tracked_fixed k x (n : nat) : fade_step k x = x → tracked k n x = x.
Proof.
  intros Hstep. induction n as [|n IH]; [done|].
  change (tracked k (S n) x) with (fade_step k (tracked k n x)). by rewrite IH.
Qed.

(** A fade none of whose ticks crosses the target is never over: its
    timer stays, its promise stays as it was, and every firing is logged
    as one more tick. *)
Lemma unsettled_fade_runs k t el x c p d w (n : nat) :
  intervals w !! t = Some (mkInterval (mkHandler k el x c p) d) →
  (∀ i : nat, crossed k (tracked k (S i) x) c = false) →
  is_Some (intervals (fire_n n t w) !! t)
  ∧ promises (fire_n n t w) = promises w
  ∧ log (fire_n n t w) = log w ++ repeat (EvTick t) n
  ∧ (∀ e, node_of el w = Some e →
          node_of el (fire_n n t w) = Some (running_node k c n x e)).
Proof.
  intros Ht Hno. destruct n as [|n].
  - simpl. rewrite app_nil_r. split_and!; [by eexists|done|done|done].
  - rewrite (fire_n_running k t el c p d n x w Ht) by (intros i _; apply Hno).
    cbn [intervals promises log document]. split_and!; [|done|done|].
    + rewrite lookup_alter_eq, Ht. by eexists.
    + intros e He. unfold node_of in *. simpl. by rewrite lookup_alter_eq, He.
Qed.

End Stall.

(** C4, the claim as stated fails: a [fadeOut] on a node whose stored
    opacity is 1e17 tracks 1e17 again after a tick, because subtracting
    one from 1e18 is absorbed by rounding.  The tracked opacity does not
    strictly decrease, the target is never crossed and the timer stays
    for ever. *)
Lemma fadeOut_stalls :
  let w0 := (@fadeOut SimpleHost.simple_host (AnElement 1%positive)
                      (Some 0%float) (Some 50%float) far_world).2 in
  tracked_opacity 1%positive w0 = Some 1e17%float
  ∧ tracked_opacity 1%positive (@fire SimpleHost.simple_host 1%positive w0)
    = Some 1e17%float
  ∧ strictly FadingOut 1e17%float (step_out 1e17%float) = false
  ∧ crossed FadingOut (step_out 1e17%float) (clamp 0%float) = false
  ∧ ∀ n : nat, is_Some (intervals (@fire_n SimpleHost.simple_host n 1%positive w0)
                          !! 1%positive).
Proof.
  cbn zeta. split_and!; try reflexivity.
  intros n. erewrite (@stalled_fade_runs SimpleHost.simple_host); [by eexists| | |];
    reflexivity.
Qed.

(** C1, the claim as stated fails in four ways.  A [fadeIn] whose target
    is no number never settles, and neither does one that starts from a
    stored opacity of -1e17, where adding one to -1e18 is absorbed by
    rounding: after any number of ticks the timer is there and the
    promise pending.  [fadeIn(el, 0)] on a hidden node settles at its
    first tick with the node still hidden.  [fadeIn(el, 0.5)] on a node
    whose opacity is 1 settles at its first tick and leaves the stored
    opacity at 1, which is more than one step above the target. *)
Lemma fadeIn_counterexample :
  (∀ n : nat,
     let w0 := (@fadeIn SimpleHost.simple_host (AnElement 3%positive)
                        (Some PrimFloat.nan) (Some 50%float) demo_world).2 in
     is_Some (intervals (@fire_n SimpleHost.simple_host n 1%positive w0) !! 1%positive)
     ∧ promises (@fire_n SimpleHost.simple_host n 1%positive w0) !! 1%positive
       = Some Pending)
  ∧ (∀ n : nat,
       let w0 := (@fadeIn SimpleHost.simple_host (AnElement 1%positive)
                          (Some 1%float) (Some 50%float) deep_world).2 in
       is_Some (intervals (@fire_n SimpleHost.simple_host n 1%positive w0)
                  !! 1%positive)
       ∧ promises (@fire_n SimpleHost.simple_host n 1%positive w0) !! 1%positive
         = Some Pending)
  ∧ (let ws := @fire SimpleHost.simple_host 1%positive
                 (@fadeIn SimpleHost.simple_host (AnElement 4%positive)
                          (Some 0%float) (Some 50%float) demo_world).2 in
     intervals ws !! 1%positive = None
     ∧ promises ws !! 1%positive = Some Fulfilled
     ∧ is_hidden 4%positive ws)
  ∧ (let ws := @fire SimpleHost.simple_host 1%positive
                 (@fadeIn SimpleHost.simple_host (AnElement 4%positive)
                          (Some 0.5%float) (Some 50%float) demo_world).2 in
     intervals ws !! 1%positive = None
     ∧ promises ws !! 1%positive = Some Fulfilled
     ∧ stored_opacity 4%positive ws = Some 1%float
     ∧ step_in 0.5 = 0.6%float
     ∧ js_gt 1 (step_in 0.5) = true).
Proof.
  split_and!.
  - intros n. cbn zeta.
    destruct (@unsettled_fade_runs SimpleHost.simple_host FadingIn 1%positive
                3%positive 0%float (clamp PrimFloat.nan) 1%positive 50%float
                (@fadeIn SimpleHost.simple_host (AnElement 3%positive)
                         (Some PrimFloat.nan) (Some 50%float) demo_world).2 n)
      as (Htimer & Hpromises & _).
    + reflexivity.
    + intros i. by apply crossed_nan.
    + split; [exact Htimer|]. by rewrite Hpromises.
  - intros n. cbn zeta.
    destruct (@unsettled_fade_runs SimpleHost.simple_host FadingIn 1%positive
                1%positive (-1e17)%float (clamp 1) 1%positive 50%float
                (@fadeIn SimpleHost.simple_host (AnElement 1%positive)
                         (Some 1%float) (Some 50%float) deep_world).2 n)
      as (Htimer & Hpromises & _).
    + reflexivity.
    + intros i. by rewrite tracked_fixed.
    + split; [exact Htimer|]. by rewrite Hpromises.
  - cbn zeta. split_and!; [reflexivity|reflexivity|]. vm_compute.
    apply list_elem_of_In. right. by left.
  - cbn zeta. split_and!; reflexivity.
Qed.

(** C1 (amended) at the example: [fadeIn(el, 1, 50)] on node 3, whose
    opacity is unset. *)
Lemma fadeIn_settles_witness :
  node_of 3%positive demo_world
  = Some (demo_element "li" EmptyString ["item"] None)
  ∧ moderate (initial_opacity 3%positive demo_world)
  ∧ PrimFloat.is_nan (default 1%float (Some 1%float)) = false
  ∧ stored_opacity 3%positive
      (@fire_n SimpleHost.simple_host 11 1%positive
         (@fadeIn SimpleHost.simple_host (AnElement 3%positive) (Some 1%float)
                  (Some 50%float) demo_world).2)
    = Some 1%float.
Proof.
  assert (Hx : moderate (initial_opacity 3%positive demo_world))
    by (split; reflexivity).
  split_and!; [reflexivity|exact Hx|reflexivity|].
  destruct (@fadeIn_settles SimpleHost.simple_host 3%positive
              (demo_element "li" EmptyString ["item"] None)
              (Some 1%float) (Some 50%float) demo_world eq_refl Hx eq_refl)
    as (_ & n & _ & _ & _ & _ & _ & Hexample).
  exact (proj1 (proj2 (Hexample eq_refl eq_refl))).
Defined.



(** C4 (amended) at an example: the default [fadeOut] on node 4. *)
Lemma fade_steps_monotone_witness :
  node_of 4%positive demo_world
  = Some (demo_element "li" EmptyString ["item"; "d-none"] (Some 1%float))
  ∧ moderate (initial_opacity 4%positive demo_world)
  ∧ PrimFloat.is_nan (default (default_target FadingOut) None) = false
  ∧ ∀ x, (fade_step FadingIn x = ((x * 10) + 1) / 10
          ∧ fade_step FadingOut x = ((x * 10) - 1) / 10)%float.
Proof.
  assert (Hx : moderate (initial_opacity 4%positive demo_world))
    by (split; reflexivity).
  split_and!; [reflexivity|exact Hx|reflexivity|].
  exact (proj1 (@fade_steps_monotone SimpleHost.simple_host FadingOut 4%positive
                  (demo_element "li" EmptyString ["item"; "d-none"] (Some 1%float))
                  None None demo_world eq_refl Hx eq_refl)).
Defined.

(** C2 at an example: [fadeIn(".item")] resolves to nodes 3 and 4 and
    returns the third promise. *)
Lemma fade_collection_witness :
  (∀ el, ASelector ".item" ≠ AnElement el)
  ∧ @normalize SimpleHost.simple_host (ASelector ".item") demo_world
    = Return [3%positive; 4%positive]
  ∧ (@fade SimpleHost.simple_host FadingIn (ASelector ".item") None None demo_world).1
    = Return 3%positive.
Proof.
  assert (Hnot : ∀ el, ASelector ".item" ≠ AnElement el) by (intros el; discriminate).
  split_and!; [exact Hnot|reflexivity|].
  exact (proj1 (@fade_collection_resolves_at_once SimpleHost.simple_host FadingIn
                  (ASelector ".item") [3%positive; 4%positive] None None demo_world
                  Hnot eq_refl)).
Defined.

(** C6 at an example: [find(".item")] and [get(".item")] in the document
    body return node 3, the first of the two matches. *)
Lemma find_get_not_found_witness :
  @parse_selector SimpleHost.simple_host ".item" = Some (SimpleHost.ByClass "item")
  ∧ @find SimpleHost.simple_host ".item" None demo_world
    = (Return (Some 3%positive), demo_world)
  ∧ @get SimpleHost.simple_host ".item" None demo_world
    = (Return 3%positive, demo_world).
Proof.
  split; [reflexivity|].
  destruct (@find_get_not_found SimpleHost.simple_host ".item"
              (SimpleHost.ByClass "item") None demo_world eq_refl)
    as [(r & Hfind & Hr) _].
  assert (Hthird : r = Some 3%positive).
  { pose proof Hfind as Hcomputed. vm_compute in Hcomputed.
    by injection Hcomputed as <-. }
  subst r. split; [exact Hfind|exact (proj2 Hr)].
Defined.

(** ** Further properties *)

Section Further.
Context `{host : Host}.

Lemma map_in_order_hide items w :
  map_in_order hide_element items w = (Return (map (λ _, tt) items), hide_all items w).
Proof.
  revert w. induction items as [|el items IH]; intros w; [done|].
  simpl. unfold_monad. unfold hide_element at 1. unfold_monad. by rewrite IH.
Qed.

Lemma map_in_order_show items w :
  map_in_order show_element items w = (Return (map (λ _, tt) items), show_all items w).
Proof.
  revert w. induction items as [|el items IH]; intros w; [done|].
  simpl. unfold_monad. unfold show_element at 1. unfold_monad. by rewrite IH.
Qed.

Lemma hide_all_node items el w :
  node_of el (hide_all items w)
  = if bool_decide (el ∈ items)
    then set_classList (classList_add hidden_class) <$> node_of el w
    else node_of el w.
Proof.
  revert w. induction items as [|x items IH]; intros w; [done|].
  change (hide_all (x :: items) w)
    with (hide_all items
            (with_document (update_node x (set_classList (classList_add hidden_class))) w)).
  rewrite IH. destruct (decide (x = el)) as [->|Hne].
  - rewrite node_of_update, (bool_decide_eq_true_2 (el ∈ el :: items)) by left.
    destruct (bool_decide (el ∈ items)); [|done].
    destruct (node_of el w) as [e|]; simpl; [|done].
    f_equal. apply set_classList_idem. intros l.
    apply classList_add_present, classList_add_elem.
  - rewrite node_of_update_ne by done.
    destruct (decide (el ∈ items)) as [Hin|Hout].
    + rewrite !bool_decide_eq_true_2; [done|by right|done].
    + rewrite !bool_decide_eq_false_2; [done| |done].
      intros Hin. apply elem_of_cons in Hin as [->|Hin]; done.
Qed.

Lemma show_all_node items el w :
  node_of el (show_all items w)
  = if bool_decide (el ∈ items)
    then set_classList (classList_remove hidden_class) <$> node_of el w
    else node_of el w.
Proof.
  revert w. induction items as [|x items IH]; intros w; [done|].
  change (show_all (x :: items) w)
    with (show_all items
            (with_document (update_node x (set_classList (classList_remove hidden_class))) w)).
  rewrite IH. destruct (decide (x = el)) as [->|Hne].
  - rewrite node_of_update, (bool_decide_eq_true_2 (el ∈ el :: items)) by left.
    destruct (bool_decide (el ∈ items)); [|done].
    destruct (node_of el w) as [e|]; simpl; [|done].
    f_equal. apply set_classList_idem. intros l. apply classList_remove_idem.
  - rewrite node_of_update_ne by done.
    destruct (decide (el ∈ items)) as [Hin|Hout].
    + rewrite !bool_decide_eq_true_2; [done|by right|done].
    + rewrite !bool_decide_eq_false_2; [done| |done].
      intros Hin. apply elem_of_cons in Hin as [->|Hin]; done.
Qed.

(** X1.  [hide] and [show] on an array or node list reach every node of
    it and no other: each listed node gets, respectively loses, the
    hidden class exactly as by a single-node call, nodes that are not
    listed are untouched, and neither call raises. *)
Theorem hide_show_collection (items : list NodeId) (w : World) :
  (hide (ACollection items) w).1 = Return tt
  ∧ (show (ACollection items) w).1 = Return tt
  ∧ (∀ el, el ∈ items →
       node_of el (hide (ACollection items) w).2
       = set_classList (classList_add hidden_class) <$> node_of el w
       ∧ node_of el (show (ACollection items) w).2
         = set_classList (classList_remove hidden_class) <$> node_of el w)
  ∧ (∀ el, el ∉ items →
       node_of el (hide (ACollection items) w).2 = node_of el w
       ∧ node_of el (show (ACollection items) w).2 = node_of el w).
Proof.
  assert (Hh : hide (ACollection items) w = (Return tt, hide_all items w)).
  { unfold hide. unfold_monad. rewrite elementMap_normalize. cbn [normalize].
    by rewrite map_in_order_hide. }
  assert (Hs : show (ACollection items) w = (Return tt, show_all items w)).
  { unfold show. unfold_monad. rewrite elementMap_normalize. cbn [normalize].
    by rewrite map_in_order_show. }
  rewrite Hh, Hs. cbn [fst snd]. split_and!; [done|done| |].
  - intros el Hin. rewrite hide_all_node, show_all_node.
    by rewrite bool_decide_eq_true_2.
  - intros el Hout. rewrite hide_all_node, show_all_node.
    by rewrite bool_decide_eq_false_2.
Qed.

(** X2.  A [fadeIn] whose clamped target is not positive never shows the
    node: a tick of its timer leaves the node's class list as it was. *)
Theorem fadeIn_guard_keeps_classes t el x c p d w :
  intervals w !! t = Some (mkInterval (mkHandler FadingIn el x c p) d) →
  js_gt c 0 = false →
  classList_of el (fire t w) = classList_of el w.
Proof.
  intros Ht Hc. unfold classList_of.
  destruct (crossed FadingIn (fade_step FadingIn x) c) eqn:Hcross.
  - rewrite (fire_finish FadingIn t el x c p d w Ht Hcross).
    unfold node_of. simpl. rewrite lookup_alter_eq.
    destruct (nodes (document w) !! el); simpl; [|done]. by rewrite Hc.
  - rewrite (fire_continue FadingIn t el x c p d w Ht Hcross).
    unfold node_of. simpl. rewrite lookup_alter_eq.
    destruct (nodes (document w) !! el); simpl; [|done]. by rewrite Hc.
Qed.

End Further.

(** X2 at an example: [fadeIn(el, 0)] on the hidden node 4. *)
Lemma fadeIn_guard_witness :
  let w0 := (@fadeIn SimpleHost.simple_host (AnElement 4%positive) (Some 0%float)
                     None demo_world).2 in
  intervals w0 !! 1%positive
  = Some (mkInterval (mkHandler FadingIn 4%positive 1%float 0%float 1%positive)
                     50%float)
  ∧ js_gt 0%float 0 = false
  ∧ classList_of 4%positive (@fire SimpleHost.simple_host 1%positive w0)
    = ["item"; "d-none"].
Proof.
  cbn zeta. split_and!; [reflexivity|reflexivity|].
  exact (@fadeIn_guard_keeps_classes SimpleHost.simple_host 1%positive 4%positive
           1%float 0%float 1%positive 50%float
           (@fadeIn SimpleHost.simple_host (AnElement 4%positive) (Some 0%float)
                    None demo_world).2
           eq_refl eq_refl).
Defined.

(** ** Errors and edges of the element helpers *)

Lemma map_in_order_app {R} (callback : NodeId → M R) (l1 l2 : list NodeId) w :
  map_in_order callback (l1 ++ l2) w
  = match map_in_order callback l1 w with
    | (Return r1, w1) =>
        match map_in_order callback l2 w1 with
        | (Return r2, w2) => (Return (r1 ++ r2), w2)
        | (Throw e, w2) => (Throw e, w2)
        end
    | (Throw e, w1) => (Throw e, w1)
    end.
Proof.
  revert w. induction l1 as [|el l1 IH]; intros w; simpl.
  - unfold_monad. by destruct (map_in_order callback l2 w) as [[r2|e] w2].
  - unfold_monad. destruct (callback el w) as [[r|e] w1]; [|done].
    rewrite IH. destruct (map_in_order callback l1 w1) as [[r1|e] w2]; [|done].
    by destruct (map_in_order callback l2 w2) as [[r2|e] w3].
Qed.

Section ElementErrors.
Context `{host : Host}.

(** X4.  When the callback raises on a node, [elementMap] raises the same
    exception at once: the nodes after it are not visited, the results
    gathered so far are lost, and the world is the one the raising
    callback left, with the effects of the earlier callbacks in it. *)
Theorem elementMap_stops_at_throw {R} (callback : NodeId → M R) (elements : Elements)
    (before after : list NodeId) (x : NodeId) (rs : list R) (e : JsError)
    (w w1 w2 : World) :
  normalize elements w = Return (before ++ x :: after) →
  map_in_order callback before w = (Return rs, w1) →
  callback x w1 = (Throw e, w2) →
  elementMap elements callback w = (Throw e, w2).
Proof.
  intros Hns Hbefore Hx. rewrite elementMap_normalize, Hns, map_in_order_app, Hbefore.
  simpl. unfold_monad. by rewrite Hx.
Qed.

(** X5.  A string that the host does not accept as a selector makes every
    operation that resolves it raise the host's SyntaxError, and nothing
    has happened by then: no callback has run, no class was changed, no
    timer and no promise was created. *)
Theorem invalid_selector_raises (text : string) (w : World) :
  parse_selector text = None →
  (∀ scope, find text scope w = (Throw (SyntaxError text), w)
            ∧ findAll text scope w = (Throw (SyntaxError text), w)
            ∧ get text scope w = (Throw (SyntaxError text), w))
  ∧ (∀ R (callback : NodeId → M R),
       elementMap (ASelector text) callback w = (Throw (SyntaxError text), w))
  ∧ hide (ASelector text) w = (Throw (SyntaxError text), w)
  ∧ show (ASelector text) w = (Throw (SyntaxError text), w)
  ∧ (∀ toOpacity delay,
       fadeIn (ASelector text) toOpacity delay w = (Throw (SyntaxError text), w)
       ∧ fadeOut (ASelector text) toOpacity delay w = (Throw (SyntaxError text), w)).
Proof.
  intros Hbad.
  assert (Hmap : ∀ R (callback : NodeId → M R),
            elementMap (ASelector text) callback w = (Throw (SyntaxError text), w)).
  { intros R callback. rewrite elementMap_normalize. cbn [normalize].
    rewrite findAll_result. simpl. by rewrite Hbad. }
  split_and!.
  - intros scope. rewrite get_result, find_result, findAll_result. simpl.
    by rewrite Hbad.
  - exact Hmap.
  - unfold hide. unfold_monad. by rewrite Hmap.
  - unfold show. unfold_monad. by rewrite Hmap.
  - intros toOpacity delay. unfold fadeIn, fadeOut. unfold_monad.
    by rewrite !Hmap.
Qed.

(** X6.  [show] after [hide] on the same array or node list is [show]
    alone, node by node: every listed node ends without the hidden class
    and with its other classes in their order, whether or not it carried
    the hidden class before.  The converse composition only agrees with
    [hide] up to the position of the hidden class in the list. *)
Theorem show_after_hide_collection (items : list NodeId) (w : World) :
  let w1 := (show (ACollection items) (hide (ACollection items) w).2).2 in
  let w2 := (show (ACollection items) w).2 in
  let w3 := (hide (ACollection items) (show (ACollection items) w).2).2 in
  (∀ el, node_of el w1 = node_of el w2)
  ∧ (∀ el, el ∈ items → ¬ is_hidden el w1)
  ∧ (∀ el e, el ∈ items → node_of el w = Some e →
       is_hidden el w3
       ∧ classList_remove hidden_class (classList_of el w3)
         = classList_remove hidden_class (classList e)).
Proof.
  intros w1 w2 w3.
  assert (Hh : ∀ w', hide (ACollection items) w' = (Return tt, hide_all items w')).
  { intros w'. unfold hide. unfold_monad. rewrite elementMap_normalize. cbn [normalize].
    by rewrite map_in_order_hide. }
  assert (Hs : ∀ w', show (ACollection items) w' = (Return tt, show_all items w')).
  { intros w'. unfold show. unfold_monad. rewrite elementMap_normalize. cbn [normalize].
    by rewrite map_in_order_show. }
  unfold w1, w2, w3. rewrite !Hh, !Hs. cbn [fst snd].
  assert (Hfirst : ∀ el, node_of el (show_all items (hide_all items w))
                         = node_of el (show_all items w)).
  { intros el. rewrite !show_all_node, hide_all_node.
    destruct (bool_decide (el ∈ items)); [|done].
    destruct (node_of el w) as [e|]; simpl; [|done].
    f_equal. unfold set_classList. simpl. by rewrite classList_remove_add. }
  split_and!.
  - exact Hfirst.
  - intros el Hin. unfold is_hidden, classList_of. rewrite Hfirst, show_all_node.
    rewrite bool_decide_eq_true_2 by done.
    destruct (node_of el w) as [e|]; simpl.
    + apply classList_remove_not_elem.
    + by intros Hnil%elem_of_nil.
  - intros el e Hin He. unfold is_hidden, classList_of.
    rewrite hide_all_node, show_all_node, He.
    rewrite bool_decide_eq_true_2 by done. simpl. split.
    + apply classList_add_elem.
    + by rewrite classList_remove_add, classList_remove_idem.
Qed.

End ElementErrors.

(** ** What timer firings leave alone *)

Lemma same_fade_refl i : same_fade i i.
Proof. by repeat split. Qed.

Lemma same_fade_trans i j k : same_fade i j → same_fade j k → same_fade i k.
Proof.
  intros (H1 & H2 & H3 & H4 & H5) (G1 & G2 & G3 & G4 & G5).
  repeat split; congruence.
Qed.

Lemma same_but_visibility_refl e : same_but_visibility e e.
Proof. by repeat split. Qed.

Lemma same_but_visibility_trans e1 e2 e3 :
  same_but_visibility e1 e2 → same_but_visibility e2 e3 → same_but_visibility e1 e3.
Proof.
  intros (H1 & H2 & H3 & H4 & H5) (G1 & G2 & G3 & G4 & G5).
  repeat split; try congruence.
  - intros Hin. apply H5; [done|]. by apply G5.
  - intros Hin. apply G5; [done|]. by apply H5.
Qed.

Lemma continue_node_visibility k c x e : same_but_visibility e (continue_node k c x e).
Proof.
  destruct k; simpl; [|by repeat split].
  destruct (js_gt c 0); simpl; [|by repeat split].
  unfold same_but_visibility. simpl. split_and!; try done.
  intros c' Hc'. by apply classList_remove_other.
Qed.

Lemma finish_node_visibility k c e : same_but_visibility e (finish_node k c e).
Proof.
  destruct k; simpl.
  - destruct (js_gt c 0); simpl; [|by repeat split].
    unfold same_but_visibility. simpl. split_and!; try done.
    intros c' Hc'. by apply classList_remove_other.
  - unfold same_but_visibility. simpl. split_and!; try done.
    intros c' Hc'. by apply classList_add_other.
Qed.

Section TickCases.
Context `{host : Host}.

(** The three things a firing can be. *)
Lemma fire_cases t w :
  (intervals w !! t = None ∧ fire t w = w)
  ∨ ∃ k el x c p d,
      intervals w !! t = Some (mkInterval (mkHandler k el x c p) d)
      ∧ ((crossed k (fade_step k x) c = false
          ∧ fire t w
            = mkWorld (update_node el (continue_node k c (fade_step k x)) (document w))
                      (alter (set_tracked (fade_step k x)) t (intervals w))
                      (next_timer w) (promises w) (next_promise w)
                      (log w ++ [EvTick t]))
         ∨ (crossed k (fade_step k x) c = true
            ∧ fire t w
              = mkWorld (update_node el (finish_node k c) (document w))
                        (delete t (intervals w))
                        (next_timer w) (alter (λ _, Fulfilled) p (promises w))
                        (next_promise w)
                        (log w ++ [EvTick t; EvResolve p; EvClearInterval t]))).
Proof.
  destruct (intervals w !! t) as [[[k el x c p] d]|] eqn:Ht.
  - right. exists k, el, x, c, p, d. split; [done|].
    destruct (crossed k (fade_step k x) c) eqn:Hcross.
    + right. split; [done|]. by apply (fire_finish k t el x c p d).
    + left. split; [done|]. by apply (fire_continue k t el x c p d).
  - left. split; [done|]. by apply fire_cleared.
Qed.

Lemma fire_counters t w :
  body (document (fire t w)) = body (document w)
  ∧ next_timer (fire t w) = next_timer w
  ∧ next_promise (fire t w) = next_promise w.
Proof.
  destruct (fire_cases t w) as [[_ ->]|(k & el & x & c & p & d & _ & [[_ ->]|[_ ->]])];
    done.
Qed.

Lemma fire_interval_ne t t' w :
  t' ≠ t → intervals (fire t w) !! t' = intervals w !! t'.
Proof.
  intros Hne.
  destruct (fire_cases t w) as [[_ ->]|(k & el & x & c & p & d & _ & [[_ ->]|[_ ->]])];
    simpl; [done| |].
  - by rewrite lookup_alter_ne.
  - by rewrite lookup_delete_ne.
Qed.

Lemma fire_interval_same t t' w i' :
  intervals (fire t w) !! t' = Some i' →
  ∃ i, intervals w !! t' = Some i ∧ same_fade i i'.
Proof.
  destruct (decide (t' = t)) as [->|Hne].
  - destruct (fire_cases t w)
      as [[_ ->]|(k & el & x & c & p & d & Ht & [[_ ->]|[_ ->]])]; simpl.
    + intros Hi. exists i'. split; [done|apply same_fade_refl].
    + rewrite lookup_alter_eq, Ht. simpl. intros [= <-].
      eexists. split; [done|]. by repeat split.
    + by rewrite lookup_delete_eq.
  - rewrite fire_interval_ne by done. intros Hi.
    exists i'. split; [done|apply same_fade_refl].
Qed.

Lemma fire_promise_dom t w p :
  is_Some (promises (fire t w) !! p) ↔ is_Some (promises w !! p).
Proof.
  destruct (fire_cases t w) as [[_ ->]|(k & el & x & c & q & d & _ & [[_ ->]|[_ ->]])];
    simpl; [done|done|].
  destruct (decide (p = q)) as [->|Hne].
  - rewrite lookup_alter_eq. by rewrite fmap_is_Some.
  - by rewrite lookup_alter_ne.
Qed.

Lemma fire_promise_fulfilled t w p :
  promises w !! p = Some Fulfilled → promises (fire t w) !! p = Some Fulfilled.
Proof.
  intros Hp.
  destruct (fire_cases t w) as [[_ ->]|(k & el & x & c & q & d & _ & [[_ ->]|[_ ->]])];
    simpl; [done|done|].
  destruct (decide (p = q)) as [->|Hne].
  - by rewrite lookup_alter_eq, Hp.
  - by rewrite lookup_alter_ne.
Qed.

Lemma fire_promise_other t w p :
  (∀ i, intervals w !! t = Some i → h_resolve (handler i) ≠ p) →
  promises (fire t w) !! p = promises w !! p.
Proof.
  intros Hother.
  destruct (fire_cases t w) as [[_ ->]|(k & el & x & c & q & d & Ht & [[_ ->]|[_ ->]])];
    simpl; [done|done|].
  rewrite lookup_alter_ne; [done|]. intros <-. by apply (Hother _ Ht).
Qed.

Lemma fire_node_other t w el :
  (∀ i, intervals w !! t = Some i → h_element (handler i) ≠ el) →
  node_of el (fire t w) = node_of el w.
Proof.
  intros Hother.
  destruct (fire_cases t w)
    as [[_ ->]|(k & el' & x & c & q & d & Ht & [[_ ->]|[_ ->]])]; [done| |].
  all: assert (Hne : el' ≠ el) by (intros <-; by apply (Hother _ Ht)).
  all: unfold node_of; simpl; by rewrite lookup_alter_ne.
Qed.

Lemma fire_node_visibility t w el :
  match node_of el w, node_of el (fire t w) with
  | Some e, Some e' => same_but_visibility e e'
  | None, None => True
  | _, _ => False
  end.
Proof.
  destruct (fire_cases t w)
    as [[_ ->]|(k & el' & x & c & q & d & Ht & [[_ ->]|[_ ->]])].
  - destruct (node_of el w); [apply same_but_visibility_refl|done].
  - unfold node_of. simpl. destruct (decide (el' = el)) as [->|Hne].
    + rewrite lookup_alter_eq. destruct (nodes (document w) !! el); simpl; [|done].
      apply continue_node_visibility.
    + rewrite lookup_alter_ne by done.
      destruct (nodes (document w) !! el); [apply same_but_visibility_refl|done].
  - unfold node_of. simpl. destruct (decide (el' = el)) as [->|Hne].
    + rewrite lookup_alter_eq. destruct (nodes (document w) !! el); simpl; [|done].
      apply finish_node_visibility.
    + rewrite lookup_alter_ne by done.
      destruct (nodes (document w) !! el); [apply same_but_visibility_refl|done].
Qed.

Lemma acts_on_fire t ts el w : acts_on ts el (fire t w) → acts_on ts el w.
Proof.
  intros (t' & i' & Hin & Hi' & Hel).
  destruct (fire_interval_same t t' w i' Hi') as (i & Hi & Hsame).
  exists t', i. split; [done|]. split; [done|].
  destruct Hsame as (_ & Hsame & _). congruence.
Qed.

Lemma resolves_fire t ts p w : resolves ts p (fire t w) → resolves ts p w.
Proof.
  intros (t' & i' & Hin & Hi' & Hp).
  destruct (fire_interval_same t t' w i' Hi') as (i & Hi & Hsame).
  exists t', i. split; [done|]. split; [done|].
  destruct Hsame as (_ & _ & _ & Hsame & _). congruence.
Qed.

(** X7.  Whatever the order in which the host fires the interval timers,
    the firings only move fades along: the tree and the identifier
    counters stay, no timer and no promise is created, a timer left
    running is the same fade as before (same node, target, promise and
    period), a fulfilled promise stays fulfilled, and a node keeps
    everything but its hidden class and stored opacity.  Timers that are
    not fired are untouched, and so are the nodes and the promises that no
    fired timer refers to. *)
Theorem firings_only_advance_fades (ts : list TimerId) (w : World) :
  body (document (run_schedule ts w)) = body (document w)
  ∧ next_timer (run_schedule ts w) = next_timer w
  ∧ next_promise (run_schedule ts w) = next_promise w
  ∧ (∀ t i', intervals (run_schedule ts w) !! t = Some i' →
       ∃ i, intervals w !! t = Some i ∧ same_fade i i')
  ∧ (∀ t, t ∉ ts → intervals (run_schedule ts w) !! t = intervals w !! t)
  ∧ (∀ p, is_Some (promises (run_schedule ts w) !! p) ↔ is_Some (promises w !! p))
  ∧ (∀ p, promises w !! p = Some Fulfilled →
          promises (run_schedule ts w) !! p = Some Fulfilled)
  ∧ (∀ p, ¬ resolves ts p w → promises (run_schedule ts w) !! p = promises w !! p)
  ∧ (∀ el, ¬ acts_on ts el w → node_of el (run_schedule ts w) = node_of el w)
  ∧ (∀ el, match node_of el w, node_of el (run_schedule ts w) with
           | Some e, Some e' => same_but_visibility e e'
           | None, None => True
           | _, _ => False
           end).
Proof.
  revert w. induction ts as [|t ts IH]; intros w.
  - simpl. split_and!; try done.
    + intros t i' Hi'. exists i'. split; [done|apply same_fade_refl].
    + intros el. destruct (node_of el w); [apply same_but_visibility_refl|done].
  - change (run_schedule (t :: ts) w) with (run_schedule ts (fire t w)).
    destruct (IH (fire t w)) as (Hb & Ht & Hp & Hsame & Hrest & Hdom & Hful & Hres
                                 & Hact & Hvis).
    destruct (fire_counters t w) as (Hb1 & Ht1 & Hp1).
    split_and!.
    + congruence.
    + congruence.
    + congruence.
    + intros t' i'' Hi''. destruct (Hsame t' i'' Hi'') as (i' & Hi' & Hs').
      destruct (fire_interval_same t t' w i' Hi') as (i & Hi & Hs).
      exists i. split; [done|]. by apply (same_fade_trans _ i').
    + intros t' Hnot. rewrite Hrest by (intros Hin; apply Hnot; by right).
      apply fire_interval_ne. intros ->. apply Hnot. by left.
    + intros p. rewrite Hdom. apply fire_promise_dom.
    + intros p Hfulfilled. apply Hful. by apply fire_promise_fulfilled.
    + intros p Hnot. rewrite Hres.
      * apply fire_promise_other. intros i Hi Hp'. apply Hnot.
        exists t, i. split; [by left|done].
      * intros (t' & i' & Hin & Hrest'). apply Hnot.
        apply (resolves_fire t). exists t', i'. split; [by right|done].
    + intros el Hnot. rewrite Hact.
      * apply fire_node_other. intros i Hi Hel. apply Hnot.
        exists t, i. split; [by left|done].
      * intros (t' & i' & Hin & Hrest'). apply Hnot.
        apply (acts_on_fire t). exists t', i'. split; [by right|done].
    + intros el. specialize (Hvis el). pose proof (fire_node_visibility t w el) as Hone.
      destruct (node_of el w), (node_of el (fire t w)),
        (node_of el (run_schedule ts (fire t w))); try done.
      by apply (same_but_visibility_trans _ e0).
Qed.

End TickCases.

(** ** The bookkeeping of timers and promises *)

Lemma count_event_absent e l : e ∉ l → count_event e l = 0%nat.
Proof.
  intros Hnot. unfold count_event. induction l as [|e' l IH]; [done|].
  rewrite filter_cons_False.
  - apply IH. intros Hin. apply Hnot. by right.
  - intros ->. apply Hnot. by left.
Qed.

Lemma count_event_tick q t l :
  count_event (EvResolve q) (l ++ [EvTick t]) = count_event (EvResolve q) l.
Proof.
  rewrite count_event_app. unfold count_event at 2.
  rewrite filter_cons_False by congruence. simpl. lia.
Qed.

Lemma count_event_finish q t p l :
  count_event (EvResolve q) (l ++ [EvTick t; EvResolve p; EvClearInterval t])
  = (count_event (EvResolve q) l + if decide (q = p) then 1 else 0)%nat.
Proof.
  rewrite count_event_app. f_equal. unfold count_event.
  rewrite filter_cons_False by congruence.
  destruct (decide (q = p)) as [->|Hne].
  - rewrite filter_cons_True by done. by rewrite filter_cons_False by congruence.
  - rewrite filter_cons_False by congruence. by rewrite filter_cons_False by congruence.
Qed.

Lemma well_formed_fresh w :
  intervals w = ∅ → promises w = ∅ → log w = [] → well_formed w.
Proof.
  intros Hi Hp Hl. split; rewrite ?Hi, ?Hp, ?Hl.
  - intros t i. by rewrite lookup_empty.
  - intros p s. by rewrite lookup_empty.
  - intros t i. by rewrite lookup_empty.
  - intros t t' i i'. by rewrite lookup_empty.
  - intros p. by rewrite lookup_empty.
  - intros p Hin. by apply elem_of_nil in Hin.
  - intros p. unfold count_event. simpl. lia.
Qed.

Lemma well_formed_ext w w' :
  intervals w' = intervals w → promises w' = promises w →
  next_timer w' = next_timer w → next_promise w' = next_promise w →
  log w' = log w →
  well_formed w → well_formed w'.
Proof.
  intros Hi Hp Ht Hn Hl [H1 H2 H3 H4 H5 H6 H7].
  split; rewrite ?Hi, ?Hp, ?Ht, ?Hn, ?Hl; assumption.
Qed.

Lemma well_formed_started k el toOpacity delay w :
  well_formed w → well_formed (started k el toOpacity delay w).
Proof.
  intros [H1 H2 H3 H4 H5 H6 H7]. split; simpl.
  - intros t i Hi. destruct (decide (t = next_timer w)) as [->|Hne]; [lia|].
    rewrite lookup_insert_ne in Hi by done. specialize (H1 t i Hi). lia.
  - intros p s Hp. destruct (decide (p = next_promise w)) as [->|Hne]; [lia|].
    rewrite lookup_insert_ne in Hp by done. specialize (H2 p s Hp). lia.
  - intros t i Hi. destruct (decide (t = next_timer w)) as [->|Hne].
    + rewrite lookup_insert_eq in Hi. injection Hi as <-. simpl.
      apply lookup_insert_eq.
    + rewrite lookup_insert_ne in Hi by done.
      pose proof (H2 _ _ (H3 t i Hi)) as Hlt.
      rewrite lookup_insert_ne by lia. by apply (H3 t).
  - intros t t' i i' Hi Hi' Heq.
    destruct (decide (t = next_timer w)) as [->|Hne],
             (decide (t' = next_timer w)) as [->|Hne']; [done| | |].
    + rewrite lookup_insert_eq in Hi. injection Hi as <-. simpl in Heq.
      rewrite lookup_insert_ne in Hi' by done.
      pose proof (H2 _ _ (H3 t' i' Hi')) as Hlt. lia.
    + rewrite lookup_insert_eq in Hi'. injection Hi' as <-. simpl in Heq.
      rewrite lookup_insert_ne in Hi by done.
      pose proof (H2 _ _ (H3 t i Hi)) as Hlt. lia.
    + rewrite lookup_insert_ne in Hi, Hi' by done. by apply (H4 t t' i i').
  - intros p Hp. destruct (decide (p = next_promise w)) as [->|Hne].
    + eexists (next_timer w), _. rewrite lookup_insert_eq. split; [done|]. done.
    + rewrite lookup_insert_ne in Hp by done.
      destruct (H5 p Hp) as (t & i & Hi & Hr). exists t, i. split; [|done].
      pose proof (H1 t i Hi) as Hlt. rewrite lookup_insert_ne by lia. done.
  - intros p Hin. pose proof (H2 _ _ (H6 p Hin)) as Hlt.
    rewrite lookup_insert_ne by lia. by apply H6.
  - exact H7.
Qed.

Lemma well_formed_started_all k ns toOpacity delay w :
  well_formed w → well_formed (started_all k ns toOpacity delay w).
Proof.
  revert w. induction ns as [|el ns IH]; intros w Hw; [done|].
  simpl. apply IH. by apply well_formed_started.
Qed.

Lemma hide_all_fields items w :
  intervals (hide_all items w) = intervals w
  ∧ promises (hide_all items w) = promises w
  ∧ next_timer (hide_all items w) = next_timer w
  ∧ next_promise (hide_all items w) = next_promise w
  ∧ log (hide_all items w) = log w.
Proof.
  revert w. induction items as [|el items IH]; intros w; [done|].
  simpl. destruct (IH (with_document
    (update_node el (set_classList (classList_add hidden_class))) w))
    as (-> & -> & -> & -> & ->). done.
Qed.

Lemma show_all_fields items w :
  intervals (show_all items w) = intervals w
  ∧ promises (show_all items w) = promises w
  ∧ next_timer (show_all items w) = next_timer w
  ∧ next_promise (show_all items w) = next_promise w
  ∧ log (show_all items w) = log w.
Proof.
  revert w. induction items as [|el items IH]; intros w; [done|].
  simpl. destruct (IH (with_document
    (update_node el (set_classList (classList_remove hidden_class))) w))
    as (-> & -> & -> & -> & ->). done.
Qed.

Section Bookkeeping.
Context `{host : Host}.

(** The worlds the calls lead to. *)
Lemma hide_world element w :
  (hide element w).2
  = match normalize element w with
    | Return ns => hide_all ns w
    | Throw _ => w
    end.
Proof.
  destruct element as [el|selector|items|]; [done| | |].
  all: unfold hide; unfold_monad; rewrite elementMap_normalize.
  all: destruct (normalize _ w) as [ns|e]; [|done].
  all: by rewrite map_in_order_hide.
Qed.

Lemma show_world element w :
  (show element w).2
  = match normalize element w with
    | Return ns => show_all ns w
    | Throw _ => w
    end.
Proof.
  destruct element as [el|selector|items|]; [done| | |].
  all: unfold show; unfold_monad; rewrite elementMap_normalize.
  all: destruct (normalize _ w) as [ns|e]; [|done].
  all: by rewrite map_in_order_show.
Qed.

Lemma fade_world k element toOpacity delay w :
  (fade k element toOpacity delay w).2
  = let target := default (default_target k) toOpacity in
    let every := default 50%float delay in
    match element with
    | AnElement el => started k el target every w
    | _ =>
        match normalize element w with
        | Return ns => (Promise_resolve (started_all k ns target every w)).2
        | Throw _ => w
        end
    end.
Proof.
  destruct element as [el|selector|items|].
  - by rewrite fade_element.
  - rewrite fade_collection by done. unfold_monad. rewrite elementMap_normalize.
    destruct (normalize _ w) as [ns|e]; [|done]. by rewrite map_in_order_fade.
  - rewrite fade_collection by done. unfold_monad. rewrite elementMap_normalize.
    cbn [normalize]. by rewrite map_in_order_fade.
  - rewrite fade_collection by done. unfold_monad. rewrite elementMap_normalize.
    cbn [normalize]. by rewrite map_in_order_fade.
Qed.

Lemma well_formed_Promise_resolve w :
  well_formed w → well_formed (Promise_resolve w).2.
Proof.
  intros [H1 H2 H3 H4 H5 H6 H7]. unfold Promise_resolve. split; simpl.
  - exact H1.
  - intros p s Hp. destruct (decide (p = next_promise w)) as [->|Hne]; [lia|].
    rewrite lookup_insert_ne in Hp by done. specialize (H2 p s Hp). lia.
  - intros t i Hi. pose proof (H2 _ _ (H3 t i Hi)) as Hlt.
    rewrite lookup_insert_ne by lia. by apply (H3 t).
  - exact H4.
  - intros p Hp. destruct (decide (p = next_promise w)) as [->|Hne].
    + by rewrite lookup_insert_eq in Hp.
    + rewrite lookup_insert_ne in Hp by done. by apply H5.
  - intros p Hin. pose proof (H2 _ _ (H6 p Hin)) as Hlt.
    rewrite lookup_insert_ne by lia. by apply H6.
  - exact H7.
Qed.

Lemma well_formed_fire t w : well_formed w → well_formed (fire t w).
Proof.
  intros Hw. pose proof Hw as [H1 H2 H3 H4 H5 H6 H7].
  destruct (fire_counters t w) as (_ & Hnt & Hnp).
  assert (Htimers : ∀ t' i', intervals (fire t w) !! t' = Some i' →
            ∃ i, intervals w !! t' = Some i
                 ∧ h_resolve (handler i') = h_resolve (handler i)).
  { intros t' i' Hi'. destruct (fire_interval_same t t' w i' Hi') as (i & Hi & Hs).
    exists i. split; [done|]. by destruct Hs as (_ & _ & _ & Hs & _). }
  destruct (fire_cases t w)
    as [[_ Hsame]|(k & el & x & c & p & d & Ht & [[Hcross Hfire]|[Hcross Hfire]])].
  - by rewrite Hsame.
  - split; rewrite ?Hnt, ?Hnp.
    + intros t' i' Hi'. destruct (Htimers t' i' Hi') as (i & Hi & _). by apply (H1 t' i).
    + intros q s. rewrite Hfire. simpl. apply H2.
    + intros t' i' Hi'. destruct (Htimers t' i' Hi') as (i & Hi & ->).
      rewrite Hfire. simpl. by apply (H3 t').
    + intros t1 t2 i1 i2 Hi1 Hi2 Heq.
      destruct (Htimers t1 i1 Hi1) as (j1 & Hj1 & E1).
      destruct (Htimers t2 i2 Hi2) as (j2 & Hj2 & E2).
      apply (H4 t1 t2 j1 j2 Hj1 Hj2). congruence.
    + intros q. rewrite Hfire. simpl. intros Hq.
      destruct (H5 q Hq) as (t' & i & Hi & Hr).
      destruct (decide (t' = t)) as [->|Hne].
      * eexists t, _. rewrite lookup_alter_eq, Hi. simpl. split; [done|]. done.
      * exists t', i. by rewrite lookup_alter_ne.
    + intros q. rewrite Hfire. simpl. intros Hin. apply H6.
      apply elem_of_app in Hin as [Hin|Hin]; [done|].
      apply list_elem_of_singleton in Hin. discriminate.
    + intros q. rewrite Hfire. simpl. rewrite count_event_tick. apply H7.
  - pose proof (H3 t _ Ht) as Hpending. simpl in Hpending.
    assert (Hfresh : EvResolve p ∉ log w).
    { intros Hin. specialize (H6 p Hin). congruence. }
    split; rewrite ?Hnt, ?Hnp.
    + intros t' i' Hi'. destruct (Htimers t' i' Hi') as (i & Hi & _). by apply (H1 t' i).
    + intros q s Hq. assert (Hsome : is_Some (promises w !! q)).
      { apply (proj1 (fire_promise_dom t w q)). by exists s. }
      destruct Hsome as [s' Hs']. by apply (H2 q s').
    + intros t' i'. rewrite Hfire. simpl. intros Hi'.
      destruct (decide (t' = t)) as [->|Hne]; [by rewrite lookup_delete_eq in Hi'|].
      rewrite lookup_delete_ne in Hi' by done.
      rewrite lookup_alter_ne; [by apply (H3 t')|].
      intros Heq. apply Hne. symmetry. apply (H4 t t' _ i' Ht Hi'). done.
    + intros t1 t2 i1 i2 Hi1 Hi2 Heq.
      destruct (Htimers t1 i1 Hi1) as (j1 & Hj1 & E1).
      destruct (Htimers t2 i2 Hi2) as (j2 & Hj2 & E2).
      apply (H4 t1 t2 j1 j2 Hj1 Hj2). congruence.
    + intros q. rewrite Hfire. simpl. intros Hq.
      destruct (decide (q = p)) as [->|Hne].
      * by rewrite lookup_alter_eq, Hpending in Hq.
      * rewrite lookup_alter_ne in Hq by done.
        destruct (H5 q Hq) as (t' & i & Hi & Hr). exists t', i. split; [|done].
        rewrite lookup_delete_ne; [done|]. intros <-.
        rewrite Ht in Hi. injection Hi as <-. simpl in Hr. congruence.
    + intros q. rewrite Hfire. simpl. intros Hin.
      apply elem_of_app in Hin as [Hin|Hin].
      * destruct (decide (q = p)) as [->|Hne]; [done|].
        rewrite lookup_alter_ne by done. by apply H6.
      * assert (q = p) as ->.
        { apply elem_of_cons in Hin as [Hin|Hin]; [discriminate|].
          apply elem_of_cons in Hin as [Hin|Hin]; [congruence|].
          apply list_elem_of_singleton in Hin. discriminate. }
        by rewrite lookup_alter_eq, Hpending.
    + intros q. rewrite Hfire. simpl. rewrite count_event_finish.
      destruct (decide (q = p)) as [->|Hne].
      * rewrite (count_event_absent _ _ Hfresh). lia.
      * specialize (H7 q). lia.
Qed.

Lemma well_formed_after c w : well_formed w → well_formed (after c w).
Proof.
  intros Hw. destruct c as [k element toOpacity delay|element|element|t]; simpl.
  - rewrite fade_world. cbn zeta. destruct element as [el|selector|items|].
    + by apply well_formed_started.
    + destruct (normalize _ w) as [ns|e]; [|done].
      by apply well_formed_Promise_resolve, well_formed_started_all.
    + by apply well_formed_Promise_resolve, well_formed_started_all.
    + by apply well_formed_Promise_resolve, well_formed_started_all.
  - rewrite hide_world. destruct (normalize element w) as [ns|e]; [|done].
    destruct (hide_all_fields ns w) as (Hi & Hp & Ht & Hn & Hl).
    by apply (well_formed_ext w).
  - rewrite show_world. destruct (normalize element w) as [ns|e]; [|done].
    destruct (show_all_fields ns w) as (Hi & Hp & Ht & Hn & Hl).
    by apply (well_formed_ext w).
  - by apply well_formed_fire.
Qed.

(** X8.  On a page that starts without timers, promises and resolve
    calls, whatever fades, [hide]s and [show]s are called on whatever
    arguments and in whatever order the host fires the timers between
    them, the bookkeeping stays sound: every running timer owns a pending
    promise that no other timer owns, every pending promise still has its
    timer running, a promise is fulfilled as soon as its [resolve] was
    called, and no [resolve] is called twice. *)
Theorem fades_resolve_at_most_once (cs : list Call) (w : World) :
  (intervals w = ∅ → promises w = ∅ → log w = [] → well_formed w)
  ∧ (well_formed w →
     well_formed (history cs w)
     ∧ (∀ p, (count_event (EvResolve p) (log (history cs w)) ≤ 1)%nat)
     ∧ (∀ p, EvResolve p ∈ log (history cs w) →
             promises (history cs w) !! p = Some Fulfilled)
     ∧ (∀ t i, intervals (history cs w) !! t = Some i →
               promises (history cs w) !! h_resolve (handler i) = Some Pending)
     ∧ (∀ p, promises (history cs w) !! p = Some Pending →
             ∃ t i, intervals (history cs w) !! t = Some i
                    ∧ h_resolve (handler i) = p)).
Proof.
  split; [apply well_formed_fresh|].
  intros Hw. assert (Hfinal : well_formed (history cs w)).
  { revert w Hw. induction cs as [|c cs IH]; intros w Hw; [done|].
    simpl. apply IH. by apply well_formed_after. }
  split; [done|]. destruct Hfinal as [H1 H2 H3 H4 H5 H6 H7]. by split_and!.
Qed.

(** X9.  A fade never cancels or replaces anything already under way: on
    a page whose bookkeeping is sound, starting a fade on any argument
    leaves every running timer with its handler and every promise with
    its state, and changes neither the document nor the log.  So a
    second fade on a node runs beside the first one, each with its own
    tracked opacity. *)
Theorem fade_keeps_running_fades (k : FadeKind) (element : Elements)
    (toOpacity delay : option float) (w : World) :
  well_formed w →
  (∀ t i, intervals w !! t = Some i →
          intervals (fade k element toOpacity delay w).2 !! t = Some i)
  ∧ (∀ p s, promises w !! p = Some s →
            promises (fade k element toOpacity delay w).2 !! p = Some s)
  ∧ document (fade k element toOpacity delay w).2 = document w
  ∧ log (fade k element toOpacity delay w).2 = log w.
Proof.
  intros [H1 H2 _ _ _ _ _].
  assert (Hall : ∀ ns target every,
    (∀ t i, intervals w !! t = Some i →
            intervals (started_all k ns target every w) !! t = Some i)
    ∧ (∀ p s, promises w !! p = Some s →
              promises (Promise_resolve (started_all k ns target every w)).2 !! p
              = Some s)).
  { intros ns target every. split.
    - intros t i Hi.
      destruct (started_all_below k ns target every w t) as [_ Hbelow].
      transitivity (intervals w !! t); [|done]. apply Hbelow. by apply (H1 t i).
    - intros p s Hp. unfold Promise_resolve. simpl.
      destruct (started_all_document k ns target every w) as (_ & _ & Hnp & _).
      destruct (started_all_below k ns target every w p) as [Hbelow _].
      pose proof (H2 p s Hp) as Hlt.
      assert (Hle : (next_promise w ≤ offset (next_promise w) (length ns))%positive).
      { pose proof (offset_to_nat (next_promise w) (length ns)). lia. }
      rewrite Hnp, lookup_insert_ne by lia.
      transitivity (promises w !! p); [|done]. by apply Hbelow. }
  rewrite fade_world. cbn zeta. destruct element as [el|selector|items|].
  - simpl. split_and!; try done.
    + intros t i Hi. pose proof (H1 t i Hi). by rewrite lookup_insert_ne by lia.
    + intros p s Hp. pose proof (H2 p s Hp). by rewrite lookup_insert_ne by lia.
  - destruct (normalize _ w) as [ns|e]; [|done].
    destruct (Hall ns (default (default_target k) toOpacity) (default 50%float delay))
      as [Hi Hp].
    destruct (started_all_document k ns (default (default_target k) toOpacity)
                (default 50%float delay) w) as (Hd & Hl & _ & _).
    by split_and!.
  - cbn [normalize].
    destruct (Hall items (default (default_target k) toOpacity) (default 50%float delay))
      as [Hi Hp].
    destruct (started_all_document k items (default (default_target k) toOpacity)
                (default 50%float delay) w) as (Hd & Hl & _ & _).
    by split_and!.
  - cbn [normalize].
    destruct (Hall [] (default (default_target k) toOpacity) (default 50%float delay))
      as [Hi Hp].
    by split_and!.
Qed.

End Bookkeeping.

(** ** Targets that are not numbers, targets out of range *)

(** X10.  A target outside [0, 1] is brought to the nearer bound, a
    target inside is kept, and clamping twice changes nothing more; the
    one value that passes unchanged without lying in the range is NaN,
    which compares false with both bounds. *)
Theorem clamp_bounds (toOpacity : float) :
  clamp (clamp toOpacity) = clamp toOpacity
  ∧ (js_gt toOpacity 1 = true → clamp toOpacity = 1%float)
  ∧ (js_lt toOpacity 0 = true → clamp toOpacity = 0%float)
  ∧ (PrimFloat.is_nan toOpacity = false → in_unit_range (clamp toOpacity))
  ∧ (PrimFloat.is_nan toOpacity = true →
     clamp toOpacity = toOpacity ∧ ¬ in_unit_range (clamp toOpacity)).
Proof.
  split_and!.
  - unfold clamp, js_gt, js_lt.
    destruct (PrimFloat.ltb 1 toOpacity) eqn:H1; [reflexivity|].
    destruct (PrimFloat.ltb toOpacity 0) eqn:H0; [reflexivity|].
    by rewrite H1, H0.
  - unfold clamp. by intros ->.
  - unfold clamp, js_gt, js_lt. intros H0.
    destruct (PrimFloat.ltb 1 toOpacity) eqn:H1; [|by rewrite H0].
    exfalso. revert H0 H1.
    rewrite !FloatAxioms.ltb_spec, Prim2SF_one, Prim2SF_zero. unfold SFltb.
    destruct (Prim2SF toOpacity) as [s|s| |s m e]; cbn [SFcompare]; try discriminate.
    + by destruct s.
    + by destruct s.
  - apply clamp_in_unit_range.
  - intros Hnan. split; [by apply clamp_nan|].
    rewrite clamp_nan by done. intros (_ & _ & Heq).
    unfold PrimFloat.is_nan in Hnan. by rewrite Heq in Hnan.
Qed.

Section Unsettled.
Context `{host : Host}.

(** X11.  A fade whose target is NaN never ends: after any number of
    ticks its timer is still running, its promise is still pending and
    [resolve] was not called; the tracked opacity keeps moving by tenths,
    every tick writes it to the node, and the node's classes are never
    touched, so [fadeIn] does not even show the node. *)
Theorem fade_to_NaN_never_settles (k : FadeKind) (el : NodeId) (e : Element)
    (toOpacity : float) (delay : option float) (w : World) (n : nat) :
  PrimFloat.is_nan toOpacity = true →
  node_of el w = Some e →
  let t := next_timer w in
  let p := next_promise w in
  let x0 := initial_opacity el w in
  let w0 := (fade k (AnElement el) (Some toOpacity) delay w).2 in
  tracked_opacity t (fire_n n t w0) = Some (tracked k n x0)
  ∧ promises (fire_n n t w0) !! p = Some Pending
  ∧ count_event (EvResolve p) (log (fire_n n t w0)) = count_event (EvResolve p) (log w)
  ∧ classList_of el (fire_n n t w0) = classList e
  ∧ stored_opacity el (fire_n n t w0)
    = match n with O => style_opacity e | S _ => Some (tracked k n x0) end.
Proof.
  intros Hnan He t p x0 w0. unfold w0. rewrite fade_element. cbn [fst snd default].
  set (every := default 50%float delay).
  assert (Ht : intervals (started k el toOpacity every w) !! t
               = Some (mkInterval (mkHandler k el x0 (clamp toOpacity) p) every)).
  { unfold started. simpl. apply lookup_insert_eq. }
  assert (Hclamp : PrimFloat.is_nan (clamp toOpacity) = true)
    by (by rewrite clamp_nan).
  destruct n as [|n].
  - simpl. unfold tracked_opacity, classList_of, stored_opacity.
    change (node_of el (started k el toOpacity every w)) with (node_of el w).
    rewrite He. split_and!; try done.
    + by rewrite Ht.
    + apply lookup_insert_eq.
  - rewrite (fire_n_running k t el (clamp toOpacity) p every n x0 _ Ht)
      by (intros i _; by apply crossed_nan).
    set (y := tracked k (S n) x0).
    unfold tracked_opacity, classList_of, stored_opacity, node_of, update_node, started.
    cbn [intervals promises log document nodes].
    rewrite !lookup_alter_eq. fold t. rewrite lookup_insert_eq.
    unfold node_of in He. rewrite He. split_and!.
    + done.
    + apply lookup_insert_eq.
    + rewrite count_event_app, count_event_repeat_ne by congruence. lia.
    + destruct k; simpl; [|done]. unfold js_gt.
      by destruct (nan_unordered (clamp toOpacity) 0 Hclamp) as [-> _].
    + simpl. by rewrite style_opacity_continue.
Qed.

(** X12.  However long a fade runs on its node, from whatever opacity and
    to whatever target, the opacity it has stored on the node is never
    past the target: after any number of ticks the node still stores
    what it stored before the fade, or a value that one of the ticks
    tracked and found not greater (not less, for [fadeOut]) than the
    target. *)
Theorem fade_never_stores_past_target (k : FadeKind) (t : TimerId) (el : NodeId)
    (x c : float) (p : PromiseId) (d : float) (w : World) (n : nat) :
  intervals w !! t = Some (mkInterval (mkHandler k el x c p) d) →
  stored_opacity el (fire_n n t w) = stored_opacity el w
  ∨ ∃ j : nat, (1 ≤ j ≤ n)%nat
      ∧ stored_opacity el (fire_n n t w) = Some (tracked k j x)
      ∧ crossed k (tracked k j x) c = false.
Proof.
  revert x w. induction n as [|n IH]; intros x w Ht; [by left|].
  change (fire_n (S n) t w) with (fire_n n t (fire t w)).
  destruct (crossed k (fade_step k x) c) eqn:Hcross.
  - left. rewrite (fire_finish k t el x c p d w Ht Hcross).
    rewrite fire_n_cleared by (simpl; apply lookup_delete_eq).
    unfold stored_opacity, node_of. simpl. rewrite lookup_alter_eq.
    destruct (nodes (document w) !! el); simpl; [|done].
    apply style_opacity_finish.
  - pose proof (fire_continue k t el x c p d w Ht Hcross) as Hfire.
    assert (Ht' : intervals (fire t w) !! t
                  = Some (mkInterval (mkHandler k el (fade_step k x) c p) d)).
    { rewrite Hfire. simpl. by rewrite lookup_alter_eq, Ht. }
    assert (Hone : stored_opacity el (fire t w)
                   = match node_of el w with
                     | Some _ => Some (fade_step k x)
                     | None => None
                     end).
    { rewrite Hfire. unfold stored_opacity, node_of. simpl. rewrite lookup_alter_eq.
      destruct (nodes (document w) !! el); simpl; [|done].
      by rewrite style_opacity_continue. }
    destruct (IH (fade_step k x) (fire t w) Ht') as [Hsame|(j & Hj & Hst & Hno)].
    + rewrite Hsame, Hone. destruct (node_of el w) as [e|] eqn:He.
      * right. exists 1%nat. split; [lia|]. by split.
      * left. unfold stored_opacity. by rewrite He.
    + right. exists (S j). rewrite tracked_succ_r. split; [lia|]. by split.
Qed.

End Unsettled.

(** ** The fades a collection starts *)

Section EachOfACollection.
Context `{host : Host}.



End EachOfACollection.

(** ** Worked examples of the further properties *)

(** X4 at an example: the callback raises on node 4, after node 3 and
    before node 2. *)
Lemma elementMap_stops_witness :
  @elementMap SimpleHost.simple_host _
              (ACollection [3%positive; 4%positive; 2%positive])
              (stop_at 4%positive) demo_world
  = (Throw (Error "stop"), emit (EvCallback 3%positive) demo_world).
Proof.
  apply (@elementMap_stops_at_throw SimpleHost.simple_host _ (stop_at 4%positive)
           (ACollection [3%positive; 4%positive; 2%positive])
           [3%positive] [2%positive] 4%positive [3%positive] (Error "stop")
           demo_world (emit (EvCallback 3%positive) demo_world)
           (emit (EvCallback 3%positive) demo_world)); reflexivity.
Defined.

(** X5 at an example: the simple host rejects a dangling combinator. *)
Lemma invalid_selector_witness :
  @parse_selector SimpleHost.simple_host "li >" = None
  ∧ @hide SimpleHost.simple_host (ASelector "li >") demo_world
    = (Throw (SyntaxError "li >"), demo_world).
Proof.
  split; [reflexivity|].
  exact (proj1 (proj2 (proj2 (@invalid_selector_raises SimpleHost.simple_host "li >"
                                 demo_world eq_refl)))).
Defined.

(** X9 at an example: [fadeIn] on node 4 while its [fadeOut] runs. *)
Lemma fade_keeps_running_witness :
  let w1 := (@fadeOut SimpleHost.simple_host (AnElement 4%positive) None None
                      demo_world).2 in
  well_formed w1
  ∧ intervals (@fadeIn SimpleHost.simple_host (AnElement 4%positive) None None w1).2
      !! 1%positive
    = Some (mkInterval (mkHandler FadingOut 4%positive 1%float 0%float 1%positive)
                       50%float).
Proof.
  intros w1.
  assert (Hw : well_formed w1).
  { apply (well_formed_started FadingOut 4%positive 0%float 50%float demo_world).
    by apply well_formed_fresh. }
  split; [exact Hw|].
  exact (proj1 (@fade_keeps_running_fades SimpleHost.simple_host FadingIn
                  (AnElement 4%positive) None None w1 Hw)
               1%positive _ eq_refl).
Defined.

(** X11 at an example: [fadeIn(el, NaN)] on the hidden node 4, after
    three ticks. *)
Lemma fade_to_NaN_witness :
  PrimFloat.is_nan PrimFloat.nan = true
  ∧ node_of 4%positive demo_world
    = Some (demo_element "li" EmptyString ["item"; "d-none"] (Some 1%float))
  ∧ promises (@fire_n SimpleHost.simple_host 3 1%positive
                (@fadeIn SimpleHost.simple_host (AnElement 4%positive)
                         (Some PrimFloat.nan) None demo_world).2) !! 1%positive
    = Some Pending.
Proof.
  split_and!; [reflexivity|reflexivity|].
  exact (proj1 (proj2 (@fade_to_NaN_never_settles SimpleHost.simple_host FadingIn
                         4%positive
                         (demo_element "li" EmptyString ["item"; "d-none"]
                                       (Some 1%float))
                         PrimFloat.nan None demo_world 3 eq_refl eq_refl))).
Defined.

(** X12 at an example: [fadeIn(el, 0.5)] on node 3, fired twenty times. *)
Lemma fade_never_stores_past_witness :
  let w0 := (@fadeIn SimpleHost.simple_host (AnElement 3%positive) (Some 0.5%float)
                     None demo_world).2 in
  intervals w0 !! 1%positive
  = Some (mkInterval (mkHandler FadingIn 3%positive 0%float 0.5%float 1%positive)
                     50%float)
  ∧ (stored_opacity 3%positive (@fire_n SimpleHost.simple_host 20 1%positive w0)
     = stored_opacity 3%positive w0
     ∨ ∃ j : nat, (1 ≤ j ≤ 20)%nat
         ∧ stored_opacity 3%positive (@fire_n SimpleHost.simple_host 20 1%positive w0)
           = Some (tracked FadingIn j 0%float)
         ∧ crossed FadingIn (tracked FadingIn j 0%float) 0.5%float = false).
Proof.
  intros w0. split; [reflexivity|].
  exact (@fade_never_stores_past_target SimpleHost.simple_host FadingIn 1%positive
           3%positive 0%float 0.5%float 1%positive 50%float w0 20 eq_refl).
Defined.


(** ** Templates: literal text, values, the order of the parameters *)










Section Substitution.
Context `{host : Host}.



End Substitution.

Lemma existsb_Permutation {A} (f : A → bool) (l l' : list A) :
  l ≡ₚ l' → existsb f l = existsb f l'.
Proof.
  induction 1 as [|x l l' _ IH|x y l|l l' l'' _ IH1 _ IH2]; simpl.
  - done.
  - by rewrite IH.
  - by destruct (f x), (f y).
  - by rewrite IH1.
Qed.



Section ParameterOrder.
Context `{host : Host}.




End ParameterOrder.

(** ** Markup with white space around it *)

Section Padding.
Context `{host : Host}.

(** X16.  White space around the markup does not count: with any spaces,
    tabs and line breaks before and after it, [htmlToElement] gives what
    it gives for the markup alone, with a wrapper tag and without. *)
Theorem htmlToElement_ignores_padding (before after html : string)
    (wrapperTag : option string) :
  all_trim_space before = true →
  all_trim_space after = true →
  htmlToElement (before +:+ html +:+ after) wrapperTag = htmlToElement html wrapperTag.
Proof.
  intros Hbefore Hafter.
  assert (Htrim : trim (before +:+ html +:+ after) = trim html)
    by (apply trim_padding; by apply all_trim_space_white).
  unfold htmlToElement. by rewrite Htrim.
Qed.

End Padding.



(** X16 at an example: a list item between line breaks and blanks. *)
Lemma htmlToElement_padding_witness :
  all_trim_space (String "010" "  ") = true
  ∧ all_trim_space (String "009" (String "010" EmptyString)) = true
  ∧ @htmlToElement SimpleHost.simple_host
      (String "010" "  " +:+ "<li>a</li>" +:+ String "009" (String "010" EmptyString))
      None
    = Return (Some (HElem "li" [] [HText "a"])).
Proof.
  split_and!; [reflexivity|reflexivity|].
  rewrite (@htmlToElement_ignores_padding SimpleHost.simple_host
             (String "010" "  ") (String "009" (String "010" EmptyString))
             "<li>a</li>" None eq_refl eq_refl).
  reflexivity.
Defined.

(** ** Event listeners *)

Lemma same_listener_spec type fn capture l :
  same_listener type fn capture l = true
  ↔ l_type l = type ∧ l_callback l = fn ∧ l_capture l = capture.
Proof.
  unfold same_listener.
  rewrite !andb_true_iff, String.eqb_eq, Pos.eqb_eq, Bool.eqb_true_iff.
  split.
  - intros [[H1 H2] H3]. by split_and!.
  - intros (H1 & H2 & H3). by split_and!.
Qed.

Lemma same_listener_self l :
  same_listener (l_type l) (l_callback l) (l_capture l) l = true.
Proof. by apply same_listener_spec. Qed.

Lemma same_listener_sym l l' :
  same_listener (l_type l) (l_callback l) (l_capture l) l'
  = same_listener (l_type l') (l_callback l') (l_capture l') l.
Proof.
  destruct (same_listener _ _ _ l') eqn:H1, (same_listener _ _ _ l) eqn:H2; try done.
  - apply same_listener_spec in H1 as (? & ? & ?).
    assert (same_listener (l_type l') (l_callback l') (l_capture l') l = true)
      by (by apply same_listener_spec). congruence.
  - apply same_listener_spec in H2 as (? & ? & ?).
    assert (same_listener (l_type l) (l_callback l) (l_capture l) l' = true)
      by (by apply same_listener_spec). congruence.
Qed.

Lemma add_listener_registered l ls :
  existsb (same_listener (l_type l) (l_callback l) (l_capture l)) (add_listener l ls)
  = true.
Proof.
  unfold add_listener. destruct (existsb _ ls) eqn:Hthere; [done|].
  rewrite existsb_app, Hthere. simpl. by rewrite same_listener_self.
Qed.

Lemma add_listener_idem l ls : add_listener l (add_listener l ls) = add_listener l ls.
Proof. unfold add_listener at 1. by rewrite add_listener_registered. Qed.

Lemma remove_listener_absent type fn capture ls :
  existsb (same_listener type fn capture) ls = false →
  remove_listener type fn capture ls = ls.
Proof.
  induction ls as [|l ls IH]; [done|]. simpl. rewrite orb_false_iff.
  intros [-> Hrest]. by rewrite IH.
Qed.

Lemma remove_after_add l ls :
  existsb (same_listener (l_type l) (l_callback l) (l_capture l)) ls = false →
  remove_listener (l_type l) (l_callback l) (l_capture l) (add_listener l ls) = ls.
Proof.
  intros Habsent. unfold add_listener. rewrite Habsent.
  induction ls as [|l' ls IH]; simpl.
  - by rewrite same_listener_self.
  - simpl in Habsent. apply orb_false_iff in Habsent as [-> Hrest]. by rewrite IH.
Qed.

Lemma remove_listener_other_capture type fn capture capture' ls :
  capture' ≠ capture →
  existsb (same_listener type fn capture) (remove_listener type fn capture' ls)
  = existsb (same_listener type fn capture) ls.
Proof.
  intros Hne. induction ls as [|l ls IH]; [done|]. simpl.
  destruct (same_listener type fn capture' l) eqn:Hsame; simpl; [|by rewrite IH].
  apply same_listener_spec in Hsame as (_ & _ & Hc).
  destruct (same_listener type fn capture l) eqn:Hother; [|done].
  apply same_listener_spec in Hother as (_ & _ & Hc'). congruence.
Qed.

Lemma remove_listener_app_other type fn capture ls l :
  same_listener type fn capture l = false →
  remove_listener type fn capture (ls ++ [l])
  = remove_listener type fn capture ls ++ [l].
Proof.
  intros Hother. induction ls as [|l' ls IH]; simpl.
  - by rewrite Hother.
  - destruct (same_listener type fn capture l'); [done|]. by rewrite IH.
Qed.

Lemma with_world_same p : with_world (world p) p = p.
Proof. by destruct p. Qed.

Lemma listeners_of_with_listeners el el' f p :
  listeners_of el' (with_listeners el f p)
  = if decide (el' = el) then f (listeners_of el p) else listeners_of el' p.
Proof.
  unfold listeners_of at 1. simpl. destruct (decide (el' = el)) as [->|Hne].
  - by rewrite lookup_insert_eq.
  - by rewrite lookup_insert_ne.
Qed.

Lemma with_listeners_all_fields f ns p :
  world (with_listeners_all f ns p) = world p
  ∧ document_listeners (with_listeners_all f ns p) = document_listeners p
  ∧ readyState (with_listeners_all f ns p) = readyState p
  ∧ called (with_listeners_all f ns p) = called p.
Proof.
  revert p. induction ns as [|el ns IH]; intros p; [done|].
  simpl. by destruct (IH (with_listeners el f p)) as (-> & -> & -> & ->).
Qed.

Lemma with_listeners_all_aborted f ns p :
  aborted (with_listeners_all f ns p) = aborted p.
Proof.
  revert p. induction ns as [|el ns IH]; intros p; [done|].
  simpl. by rewrite IH.
Qed.

(** A step that does nothing, at each node in turn. *)
Lemma fold_left_same {A} (ns : list A) (p : Page) : fold_left (λ p' _, p') ns p = p.
Proof. by induction ns. Qed.

Lemma listeners_of_all_other f ns el p :
  el ∉ ns → listeners_of el (with_listeners_all f ns p) = listeners_of el p.
Proof.
  revert p. induction ns as [|a ns IH]; intros p Hnot; [done|].
  simpl. rewrite IH by (intros Hin; apply Hnot; by right).
  rewrite listeners_of_with_listeners.
  destruct (decide (el = a)) as [->|Hne]; [|done]. destruct Hnot. by left.
Qed.

(** A change that settles after one step acts once, however often the
    node is listed. *)
Lemma listeners_of_all_settled f ns el p (b : list Listener) :
  el ∈ ns → f (listeners_of el p) = b → f b = b →
  listeners_of el (with_listeners_all f ns p) = b.
Proof.
  intros Hin Hfirst Hfixed. revert p Hin Hfirst.
  induction ns as [|a ns IH]; intros p Hin Hfirst; [by apply elem_of_nil in Hin|].
  simpl. destruct (decide (el ∈ ns)) as [Hrest|Hrest].
  - apply IH; [done|]. rewrite listeners_of_with_listeners.
    destruct (decide (el = a)) as [->|Hne]; [by rewrite Hfirst|done].
  - rewrite listeners_of_all_other by done. rewrite listeners_of_with_listeners.
    destruct (decide (el = a)) as [->|Hne]; [done|].
    apply elem_of_cons in Hin as [?|?]; done.
Qed.

Section Listeners.
Context `{host : Host}.

Lemma for_of_page_each {R} ns (callback : NodeId → P R) (g : NodeId → R)
    (f : NodeId → Page → Page) acc p :
  (∀ el p', callback el p' = (Return (g el), f el p')) →
  for_of_page ns callback acc p
  = (Return (acc ++ map g ns), fold_left (λ p' el, f el p') ns p).
Proof.
  intros Hcb. revert acc p. induction ns as [|el ns IH]; intros acc p; simpl.
  - by rewrite app_nil_r.
  - unfold mbind, P_bind. rewrite Hcb, IH. by rewrite <- app_assoc.
Qed.

Lemma elementMap_page_each {R} elements (callback : NodeId → P R) (g : NodeId → R)
    (f : NodeId → Page → Page) p :
  (∀ el p', callback el p' = (Return (g el), f el p')) →
  elementMap_page elements callback p
  = match normalize elements (world p) with
    | Return ns => (Return (map g ns), fold_left (λ p' el, f el p') ns p)
    | Throw e => (Throw e, p)
    end.
Proof.
  intros Hcb. destruct elements as [el|selector|items|]; simpl.
  - unfold mbind, P_bind. by rewrite Hcb.
  - unfold mbind, P_bind, liftM. pose proof (findAll_pure selector None (world p)) as Hw.
    destruct (findAll selector None (world p)) as [[ns|e] w']; simpl in *; subst w'.
    + rewrite with_world_same. exact (for_of_page_each ns callback g f [] p Hcb).
    + by rewrite with_world_same.
  - unfold mbind, P_bind, mret, P_ret.
    exact (for_of_page_each items callback g f [] p Hcb).
  - unfold mbind, P_bind, mret, P_ret.
    exact (for_of_page_each [] callback g f [] p Hcb).
Qed.

(** The two forms of [elementMap] agree on callbacks that act on the
    world. *)
Lemma for_of_page_lift {R} ns (callback : NodeId → M R) acc p :
  for_of_page ns (λ el, liftM (callback el)) acc p = liftM (for_of ns callback acc) p.
Proof.
  revert acc p. induction ns as [|el ns IH]; intros acc p; simpl.
  - unfold liftM. simpl. unfold mret, P_ret, M_ret. by rewrite with_world_same.
  - unfold mbind, P_bind, M_bind. unfold liftM at 1 3.
    destruct (callback el (world p)) as [[r|e] w']; [|done].
    rewrite IH. unfold liftM. done.
Qed.

Lemma elementMap_page_lift {R} elements (callback : NodeId → M R) p :
  elementMap_page elements (λ el, liftM (callback el)) p
  = liftM (elementMap elements callback) p.
Proof.
  destruct elements as [el|selector|items|]; simpl.
  - unfold mbind, P_bind, M_bind, liftM.
    by destruct (callback el (world p)) as [[r|e] w'].
  - unfold mbind, P_bind, M_bind. unfold liftM at 1 3.
    destruct (findAll selector None (world p)) as [[ns|e] w']; [|done].
    rewrite for_of_page_lift. done.
  - unfold mbind, P_bind, M_bind, mret, P_ret, M_ret. apply for_of_page_lift.
  - unfold mbind, P_bind, M_bind, mret, P_ret, M_ret. apply for_of_page_lift.
Qed.

(** Registering at each node in turn, when the signal may be aborted. *)
Lemma guarded_registration options (f : list Listener → list Listener) ns p :
  fold_left (λ p' el, if signal_aborted options p' then p' else with_listeners el f p')
            ns p
  = if signal_aborted options p then p else with_listeners_all f ns p.
Proof.
  revert p. induction ns as [|el ns IH]; intros p; simpl.
  - by destruct (signal_aborted options p).
  - rewrite IH. destruct (signal_aborted options p) eqn:Hp; [by rewrite Hp|].
    change (signal_aborted options (with_listeners el f p))
      with (signal_aborted options p). by rewrite Hp.
Qed.

Lemma addEventListener_world elements type fn options p :
  addEventListener elements type fn options p
  = match normalize elements (world p) with
    | Return ns =>
        (Return tt,
         if signal_aborted options p then p
         else with_listeners_all (add_listener (listener_of type fn options)) ns p)
    | Throw e => (Throw e, p)
    end.
Proof.
  destruct elements as [el|selector|items|].
  - unfold addEventListener, Element_addEventListener. simpl.
    by destruct (signal_aborted options p).
  - unfold addEventListener, mbind, P_bind.
    rewrite (elementMap_page_each _ _ (λ _, tt)
               (λ el p', if signal_aborted options p' then p'
                         else with_listeners el
                                (add_listener (listener_of type fn options)) p'))
      by (intros el p'; unfold Element_addEventListener;
          by destruct (signal_aborted options p')).
    destruct (normalize _ (world p)); [|done]. by rewrite guarded_registration.
  - unfold addEventListener, mbind, P_bind.
    rewrite (elementMap_page_each _ _ (λ _, tt)
               (λ el p', if signal_aborted options p' then p'
                         else with_listeners el
                                (add_listener (listener_of type fn options)) p'))
      by (intros el p'; unfold Element_addEventListener;
          by destruct (signal_aborted options p')).
    destruct (normalize _ (world p)); [|done]. by rewrite guarded_registration.
  - unfold addEventListener, mbind, P_bind.
    rewrite (elementMap_page_each _ _ (λ _, tt)
               (λ el p', if signal_aborted options p' then p'
                         else with_listeners el
                                (add_listener (listener_of type fn options)) p'))
      by (intros el p'; unfold Element_addEventListener;
          by destruct (signal_aborted options p')).
    destruct (normalize _ (world p)); [|done]. by rewrite guarded_registration.
Qed.

Lemma removeEventListener_world elements type fn options p :
  removeEventListener elements type fn options p
  = match normalize elements (world p) with
    | Return ns =>
        (Return tt,
         with_listeners_all (remove_listener type fn (flatten options)) ns p)
    | Throw e => (Throw e, p)
    end.
Proof.
  destruct elements as [el|selector|items|]; [done| | |].
  all: unfold removeEventListener, mbind, P_bind.
  all: rewrite (elementMap_page_each _ _ (λ _, tt)
                  (λ el, with_listeners el
                     (remove_listener type fn (flatten options))))
         by done.
  all: by destruct (normalize _ (world p)).
Qed.

(** X17.  [addEventListener] hands type, listener and options to every
    element that the argument stands for and to no other node.  Unless
    the options carry a signal that is aborted already, each such element
    gets the listener, with the capture, once and passive flags and the
    signal of the options, at the end of its list, or keeps its list when
    it already has a listener with the same type, callback and capture
    flag, so a second call changes nothing.  With an aborted signal
    nothing is registered and the page stays as it was.  In both cases
    the world, the document's own listeners, the ready state and the
    signals are untouched, and nothing is called. *)
Theorem addEventListener_registers (elements : Elements) (ns : list NodeId)
    (type : string) (fn : CallbackId) (options : ListenerOptions) (p : Page) :
  normalize elements (world p) = Return ns →
  let l := listener_of type fn options in
  let r := addEventListener elements type fn options p in
  r.1 = Return tt
  ∧ world r.2 = world p
  ∧ document_listeners r.2 = document_listeners p
  ∧ readyState r.2 = readyState p
  ∧ called r.2 = called p
  ∧ aborted r.2 = aborted p
  ∧ (signal_aborted options p = false →
     (∀ el, el ∈ ns →
        listeners_of el r.2 = add_listener l (listeners_of el p)
        ∧ registered type fn (flatten options) el r.2 = true)
     ∧ (∀ el, el ∉ ns → listeners_of el r.2 = listeners_of el p))
  ∧ (signal_aborted options p = true → r.2 = p)
  ∧ (∀ el, listeners_of el (addEventListener elements type fn options r.2).2
           = listeners_of el r.2).
Proof.
  intros Hns l r. subst r l.
  set (l := listener_of type fn options).
  rewrite addEventListener_world, Hns. fold l. cbn [fst snd].
  destruct (signal_aborted options p) eqn:Hsignal.
  { split_and!; try done.
    intros el. by rewrite addEventListener_world, Hns, Hsignal. }
  destruct (with_listeners_all_fields (add_listener l) ns p) as (Hw & Hd & Hr & Hc).
  pose proof (with_listeners_all_aborted (add_listener l) ns p) as Ha.
  assert (Hin : ∀ el p', el ∈ ns →
            listeners_of el (with_listeners_all (add_listener l) ns p')
            = add_listener l (listeners_of el p')).
  { intros el p' Hel. apply listeners_of_all_settled; [done|done|].
    apply add_listener_idem. }
  split_and!; try done.
  - intros _. split.
    + intros el Hel. split; [by apply Hin|].
      unfold registered. rewrite Hin by done. apply (add_listener_registered l).
    + intros el Hel. by apply listeners_of_all_other.
  - intros el. rewrite addEventListener_world. fold l. rewrite Hw, Hns. cbn [snd].
    unfold signal_aborted in *. rewrite Ha, Hsignal.
    destruct (decide (el ∈ ns)) as [Hel|Hel].
    + rewrite !Hin by done. apply add_listener_idem.
    + by rewrite !listeners_of_all_other.
Qed.

(** X18.  [removeEventListener] undoes [addEventListener]: called with
    the same elements, type and callback and with options of the same
    capture flag, it gives back its listener list to every node on which
    the listener was not registered before, whatever the other members
    of the options say, and also when the signal was aborted and nothing
    had been added.  With the other capture flag it removes nothing of
    what was added. *)
Theorem removeEventListener_undoes_add (elements : Elements) (ns : list NodeId)
    (type : string) (fn : CallbackId) (options options' : ListenerOptions) (p : Page) :
  normalize elements (world p) = Return ns →
  let added := (addEventListener elements type fn options p).2 in
  let r := removeEventListener elements type fn options' added in
  r.1 = Return tt
  ∧ world r.2 = world p
  ∧ document_listeners r.2 = document_listeners p
  ∧ called r.2 = called p
  ∧ aborted r.2 = aborted p
  ∧ (flatten options' = flatten options →
     ∀ el, registered type fn (flatten options) el p = false →
           listeners_of el r.2 = listeners_of el p)
  ∧ (flatten options' ≠ flatten options →
     signal_aborted options p = false →
     ∀ el, el ∈ ns → registered type fn (flatten options) el r.2 = true).
Proof.
  intros Hns added r. subst r added.
  set (l := listener_of type fn options).
  rewrite addEventListener_world, Hns. fold l. cbn [snd].
  set (g := remove_listener type fn (flatten options')).
  destruct (signal_aborted options p) eqn:Hsignal.
  { rewrite removeEventListener_world, Hns. fold g. cbn [fst snd].
    destruct (with_listeners_all_fields g ns p) as (Hw' & Hd' & Hr' & Hc').
    pose proof (with_listeners_all_aborted g ns p) as Ha'.
    split_and!; try done.
    intros Hsame el Habsent. unfold registered in Habsent.
    assert (Hkeep : g (listeners_of el p) = listeners_of el p)
      by (unfold g; rewrite Hsame; by apply remove_listener_absent).
    destruct (decide (el ∈ ns)) as [Hel|Hel].
    - apply listeners_of_all_settled; [done|done|done].
    - by rewrite listeners_of_all_other. }
  destruct (with_listeners_all_fields (add_listener l) ns p) as (Hw & Hd & Hr & Hc).
  pose proof (with_listeners_all_aborted (add_listener l) ns p) as Ha.
  rewrite removeEventListener_world, Hw, Hns. fold g. cbn [fst snd].
  destruct (with_listeners_all_fields g ns
              (with_listeners_all (add_listener l) ns p)) as (Hw' & Hd' & Hr' & Hc').
  pose proof (with_listeners_all_aborted g ns
                (with_listeners_all (add_listener l) ns p)) as Ha'.
  assert (Hadded : ∀ el, el ∈ ns →
            listeners_of el (with_listeners_all (add_listener l) ns p)
            = add_listener l (listeners_of el p)).
  { intros el Hel. apply listeners_of_all_settled; [done|done|].
    apply add_listener_idem. }
  split_and!; try congruence.
  - intros Hsame el Habsent. unfold g. rewrite Hsame. unfold registered in Habsent.
    destruct (decide (el ∈ ns)) as [Hel|Hel].
    + apply listeners_of_all_settled; [done| |by apply remove_listener_absent].
      rewrite Hadded by done. by apply (remove_after_add l).
    + by rewrite !listeners_of_all_other.
  - intros Hdiffer _ el Hel. unfold registered.
    assert (Hthere : existsb (same_listener type fn (flatten options))
                       (add_listener l (listeners_of el p)) = true)
      by apply (add_listener_registered l).
    assert (Hkeep : ∀ ls, existsb (same_listener type fn (flatten options)) (g ls)
                          = existsb (same_listener type fn (flatten options)) ls)
      by (intros ls; by apply remove_listener_other_capture).
    clear Hw' Hd' Hr' Hc' Ha'.
    assert (Hgen : ∀ items p',
              existsb (same_listener type fn (flatten options)) (listeners_of el p')
              = true →
              existsb (same_listener type fn (flatten options))
                      (listeners_of el (with_listeners_all g items p')) = true).
    { induction items as [|a items IH]; intros p' Hp'; [done|].
      simpl. apply IH. rewrite listeners_of_with_listeners.
      destruct (decide (el = a)) as [->|Hne]; [by rewrite Hkeep|done]. }
    apply Hgen. by rewrite Hadded.
Qed.

End Listeners.

(** ** The document's readiness *)

Section Readiness.
Variable effect : CallbackId → M unit.

Lemma call_page fn p :
  call effect fn p
  = ((effect fn (world p)).1,
     mkPage (effect fn (world p)).2 (element_listeners p) (document_listeners p)
            (readyState p) (called p ++ [fn]) (aborted p)).
Proof.
  unfold call, liftM. simpl. by destruct (effect fn (world p)).
Qed.

Lemma invoke_waiting x fn p :
  same_listener (l_type x) (l_callback x) (l_capture x) (ready_listener fn) = false →
  (invoke effect x (waiting fn p)).2 = waiting fn (invoke effect x p).2.
Proof.
  intros Hother. unfold invoke. cbn [snd]. rewrite !call_page. cbn [snd].
  destruct (l_once x); [|done].
  unfold waiting, with_document_listeners. simpl.
  by rewrite remove_listener_app_other.
Qed.

Lemma invoke_all_cons l ls p :
  invoke_all effect (l :: ls) p = invoke_all effect ls (invoke effect l p).2.
Proof. reflexivity. Qed.

Lemma invoke_all_returns ls p : (invoke_all effect ls p).1 = Return tt.
Proof.
  revert p. induction ls as [|l ls IH]; intros p; [done|].
  rewrite invoke_all_cons. apply IH.
Qed.

Lemma invoke_all_app ls ls' p :
  (invoke_all effect (ls ++ ls') p).2
  = (invoke_all effect ls' (invoke_all effect ls p).2).2.
Proof.
  revert p. induction ls as [|l ls IH]; intros p; [done|].
  rewrite <- app_comm_cons, !invoke_all_cons. apply IH.
Qed.

Lemma invoke_all_waiting ls fn p :
  (∀ x, x ∈ ls →
        same_listener (l_type x) (l_callback x) (l_capture x) (ready_listener fn)
        = false) →
  (invoke_all effect ls (waiting fn p)).2 = waiting fn (invoke_all effect ls p).2.
Proof.
  revert p. induction ls as [|l ls IH]; intros p Hother; [done|].
  rewrite !invoke_all_cons, invoke_waiting by (apply Hother; by left).
  apply IH. intros x Hx. apply Hother. by right.
Qed.

(** X19.  [ready(fn)] on a document that is no longer loading calls [fn]
    at once, once per call of [ready], and what [fn] raises comes out of
    [ready].  On a document still loading it calls nothing, raises
    nothing and leaves the world alone: it registers [fn] on the
    document, where a second [ready(fn)] changes nothing; at the end of
    parsing [fn] is then called once, after every listener that was
    there before, on the world those listeners left, and whatever it
    raises stays inside the event dispatch. *)
Theorem ready_calls_once (fn : CallbackId) (p : Page) :
  (readyState p ≠ Loading →
   (ready effect fn p).1 = (effect fn (world p)).1
   ∧ world (ready effect fn p).2 = (effect fn (world p)).2
   ∧ called (ready effect fn p).2 = called p ++ [fn]
   ∧ document_listeners (ready effect fn p).2 = document_listeners p
   ∧ called (ready effect fn (ready effect fn p).2).2 = called p ++ [fn; fn])
  ∧ (readyState p = Loading →
     (ready effect fn p).1 = Return tt
     ∧ world (ready effect fn p).2 = world p
     ∧ called (ready effect fn p).2 = called p
     ∧ readyState (ready effect fn p).2 = Loading
     ∧ registered_on_document DOMContentLoaded fn false (ready effect fn p).2 = true
     ∧ ready effect fn (ready effect fn p).2 = (Return tt, (ready effect fn p).2)
     ∧ (registered_on_document DOMContentLoaded fn false p = false →
        (ready effect fn p).2 = waiting fn p
        ∧ (end_of_parsing effect (ready effect fn p).2).1 = Return tt
        ∧ called (end_of_parsing effect (ready effect fn p).2).2
          = called (end_of_parsing effect p).2 ++ [fn]
        ∧ world (end_of_parsing effect (ready effect fn p).2).2
          = (effect fn (world (end_of_parsing effect p).2)).2)).
Proof.
  split.
  - intros Hstate.
    assert (Hready : ∀ q, readyState q ≠ Loading → ready effect fn q = call effect fn q).
    { intros q Hq. unfold ready. by destruct (readyState q). }
    rewrite (Hready p Hstate), call_page. cbn [fst snd world called document_listeners].
    split_and!; try done.
    rewrite Hready by done. rewrite call_page. cbn [snd called].
    by rewrite <- app_assoc.
  - intros Hstate.
    assert (Hready : ∀ q, readyState q = Loading →
              ready effect fn q
              = (Return tt, with_document_listeners (add_listener (ready_listener fn)) q)).
    { intros q Hq. unfold ready. by rewrite Hq. }
    rewrite (Hready p Hstate). cbn [fst snd].
    split_and!; try done.
    + unfold registered_on_document. simpl.
      apply (add_listener_registered (ready_listener fn)).
    + rewrite Hready by done. unfold with_document_listeners. simpl.
      by rewrite add_listener_idem.
    + intros Habsent. unfold registered_on_document in Habsent.
      assert (Hwaiting : with_document_listeners (add_listener (ready_listener fn)) p
                         = waiting fn p).
      { unfold waiting, with_document_listeners, add_listener. simpl.
        by rewrite Habsent. }
      rewrite Hwaiting. split; [done|].
      unfold end_of_parsing, fire_at_document.
      split; [apply invoke_all_returns|].
      cbn [world element_listeners document_listeners called aborted waiting
           with_document_listeners].
      set (mine := List.filter (λ l, String.eqb DOMContentLoaded (l_type l))
                               (document_listeners p)).
      set (before := List.filter l_capture mine
                     ++ List.filter (λ l, negb (l_capture l)) mine).
      set (q := mkPage (world p) (element_listeners p) (document_listeners p)
                       Interactive (called p) (aborted p)).
      assert (Hlist : List.filter l_capture
                        (List.filter (λ l, String.eqb DOMContentLoaded (l_type l))
                                     (document_listeners p ++ [ready_listener fn]))
                      ++ List.filter (λ l, negb (l_capture l))
                           (List.filter (λ l, String.eqb DOMContentLoaded (l_type l))
                                        (document_listeners p ++ [ready_listener fn]))
                      = before ++ [ready_listener fn]).
      { rewrite List.filter_app. simpl. fold mine.
        rewrite !List.filter_app. simpl. rewrite app_nil_r. by rewrite app_assoc. }
      rewrite Hlist.
      change (mkPage (world p) (element_listeners p)
                     (document_listeners p ++ [ready_listener fn]) Interactive (called p)
                     (aborted p))
        with (waiting fn q).
      rewrite invoke_all_app, invoke_all_waiting.
      * rewrite invoke_all_cons. unfold invoke. cbn [snd l_once ready_listener].
        rewrite call_page. simpl. done.
      * intros x Hx. rewrite same_listener_sym.
        assert (Hdoc : x ∈ document_listeners p).
        { unfold before, mine in Hx. apply elem_of_app in Hx as [Hx|Hx].
          - apply list_elem_of_In, List.filter_In in Hx as [Hx _].
            by apply List.filter_In in Hx as [Hx%list_elem_of_In _].
          - apply list_elem_of_In, List.filter_In in Hx as [Hx _].
            by apply List.filter_In in Hx as [Hx%list_elem_of_In _]. }
        destruct (same_listener _ _ _ x) eqn:Hsame; [|done].
        assert (existsb (same_listener DOMContentLoaded fn false)
                        (document_listeners p) = true) as Hthere.
        { apply existsb_exists. exists x. split; [by apply list_elem_of_In|done]. }
        congruence.
Qed.

End Readiness.

(** ** Worked examples of the listener properties *)

(** X17 at an example: a click listener on the two items, with a signal
    that is not aborted, and with the same signal where it is. *)
Lemma addEventListener_witness :
  @normalize SimpleHost.simple_host (ASelector ".item") (world loading_page)
  = Return [3%positive; 4%positive]
  ∧ listeners_of 4%positive
      (@addEventListener SimpleHost.simple_host (ASelector ".item") "click" 5%positive
         (OptionsDict true false (Some true) (Some 2%positive)) loading_page).2
    = [mkListener "click" 5%positive true false (Some true) (Some 2%positive)]
  ∧ (@addEventListener SimpleHost.simple_host (ASelector ".item") "click" 5%positive
       (OptionsDict true false (Some true) (Some 2%positive)) aborted_page).2
    = aborted_page.
Proof.
  split; [reflexivity|]. split.
  - destruct (@addEventListener_registers SimpleHost.simple_host (ASelector ".item")
                [3%positive; 4%positive] "click" 5%positive
                (OptionsDict true false (Some true) (Some 2%positive))
                loading_page eq_refl)
      as (_ & _ & _ & _ & _ & _ & Hlive & _).
    destruct (Hlive eq_refl) as [Hin _].
    destruct (Hin 4%positive ltac:(by right; left)) as [Hlist _].
    exact Hlist.
  - destruct (@addEventListener_registers SimpleHost.simple_host (ASelector ".item")
                [3%positive; 4%positive] "click" 5%positive
                (OptionsDict true false (Some true) (Some 2%positive))
                aborted_page eq_refl)
      as (_ & _ & _ & _ & _ & _ & _ & Hgone & _).
    exact (Hgone eq_refl).
Defined.

(** X18 at an example: the listener is taken off again with an options
    dictionary of the same capture flag. *)
Lemma removeEventListener_witness :
  @normalize SimpleHost.simple_host (ASelector ".item") (world loading_page)
  = Return [3%positive; 4%positive]
  ∧ listeners_of 4%positive
      (@removeEventListener SimpleHost.simple_host (ASelector ".item") "click"
         5%positive (OptionsDict true true None None)
         (@addEventListener SimpleHost.simple_host (ASelector ".item") "click"
                            5%positive (UseCapture true) loading_page).2).2
    = [].
Proof.
  split; [reflexivity|].
  destruct (@removeEventListener_undoes_add SimpleHost.simple_host (ASelector ".item")
              [3%positive; 4%positive] "click" 5%positive (UseCapture true)
              (OptionsDict true true None None) loading_page eq_refl)
    as (_ & _ & _ & _ & _ & Hback & _).
  exact (Hback eq_refl 4%positive eq_refl).
Defined.

(** X19 at an example: on the loading page, where callback 7 waits
    already, [ready] registers callback 8, and the end of parsing calls 7
    and then 8. *)
Lemma ready_witness :
  called (end_of_parsing (@demo_effect SimpleHost.simple_host)
            (ready (@demo_effect SimpleHost.simple_host) 8%positive loading_page).2).2
  = [7%positive; 8%positive].
Proof.
  destruct (ready_calls_once (@demo_effect SimpleHost.simple_host) 8%positive
              loading_page)
    as [_ Hloading].
  destruct (Hloading eq_refl) as (_ & _ & _ & _ & _ & _ & Hend).
  destruct (Hend eq_refl) as (_ & _ & Hcalled & _).
  exact Hcalled.
Defined.

(** ** A running fade among other calls *)

Section Histories.
Context `{host : Host}.

Lemma after_counters c w :
  (next_timer w ≤ next_timer (after c w))%positive
  ∧ (next_promise w ≤ next_promise (after c w))%positive.
Proof.
  destruct c as [k element toOpacity delay|element|element|t]; simpl.
  - rewrite fade_world. cbn zeta.
    assert (Hall : ∀ ns target every,
              (next_timer w
               ≤ next_timer (Promise_resolve (started_all k ns target every w)).2)%positive
              ∧ (next_promise w
                 ≤ next_promise (Promise_resolve (started_all k ns target every w)).2)%positive).
    { intros ns target every. unfold Promise_resolve. simpl.
      destruct (started_all_document k ns target every w) as (_ & _ & -> & ->).
      pose proof (offset_to_nat (next_promise w) (length ns)).
      pose proof (offset_to_nat (next_timer w) (length ns)). lia. }
    destruct element as [el|selector|items|]; [simpl; lia| | |].
    + destruct (normalize _ w) as [ns|e]; [apply Hall|lia].
    + apply Hall.
    + apply Hall.
  - rewrite hide_world. destruct (normalize element w) as [ns|e]; [|lia].
    destruct (hide_all_fields ns w) as (_ & _ & -> & -> & _). lia.
  - rewrite show_world. destruct (normalize element w) as [ns|e]; [|lia].
    destruct (show_all_fields ns w) as (_ & _ & -> & -> & _). lia.
  - destruct (fire_counters t w) as (_ & -> & ->). lia.
Qed.

(** Calls of the library leave alone the timers and promises that
    exist. *)
Lemma after_keeps_below c w :
  (∀ t', c ≠ TimerFires t') →
  (∀ t, (t < next_timer w)%positive → intervals (after c w) !! t = intervals w !! t)
  ∧ (∀ p, (p < next_promise w)%positive → promises (after c w) !! p = promises w !! p).
Proof.
  intros Hcall. destruct c as [k element toOpacity delay|element|element|t'];
    simpl; [| | |by destruct (Hcall t')].
  - rewrite fade_world. cbn zeta.
    assert (Hall : ∀ ns target every,
      (∀ t, (t < next_timer w)%positive →
            intervals (Promise_resolve (started_all k ns target every w)).2 !! t
            = intervals w !! t)
      ∧ (∀ p, (p < next_promise w)%positive →
              promises (Promise_resolve (started_all k ns target every w)).2 !! p
              = promises w !! p)).
    { intros ns target every. split.
      - intros t Ht. by apply (started_all_below k ns target every w t).
      - intros p Hp. unfold Promise_resolve. simpl.
        destruct (started_all_document k ns target every w) as (_ & _ & Hnp & _).
        pose proof (offset_to_nat (next_promise w) (length ns)).
        rewrite Hnp, lookup_insert_ne by lia.
        by apply (started_all_below k ns target every w p). }
    destruct element as [el|selector|items|].
    + simpl. split.
      * intros t Ht. by rewrite lookup_insert_ne by lia.
      * intros p Hp. by rewrite lookup_insert_ne by lia.
    + destruct (normalize _ w) as [ns|e]; [apply Hall|done].
    + apply Hall.
    + apply Hall.
  - rewrite hide_world. destruct (normalize element w) as [ns|e]; [|done].
    by destruct (hide_all_fields ns w) as (-> & -> & _).
  - rewrite show_world. destruct (normalize element w) as [ns|e]; [|done].
    by destruct (show_all_fields ns w) as (-> & -> & _).
Qed.

(** A fade that has ended stays ended. *)
Lemma history_settled cs t p w :
  (t < next_timer w)%positive → (p < next_promise w)%positive →
  intervals w !! t = None → promises w !! p = Some Fulfilled →
  intervals (history cs w) !! t = None
  ∧ promises (history cs w) !! p = Some Fulfilled.
Proof.
  revert w. induction cs as [|c cs IH]; intros w Ht Hp Hnone Hdone; [done|].
  change (history (c :: cs) w) with (history cs (after c w)).
  destruct (after_counters c w) as [Hnt Hnp].
  apply IH; [lia|lia| |].
  - destruct c as [k element toOpacity delay|element|element|t'].
    4:{ simpl. by apply fire_keeps_cleared. }
    all: etrans; [|exact Hnone].
    all: by apply after_keeps_below.
  - destruct c as [k element toOpacity delay|element|element|t'].
    4:{ simpl. by apply fire_promise_fulfilled. }
    all: etrans; [|exact Hdone].
    all: by apply after_keeps_below.
Qed.

(** X20.  Nothing the library does cancels, delays or undoes a running
    fade.  On a page whose bookkeeping is sound, take a fade whose
    tracked opacity crosses its target at its tick [n + 1].  After any
    history of fades, [hide]s, [show]s and timer firings in which its own
    timer has fired [m] times, the fade is still running with its promise
    pending and has made exactly [m] steps if [m <= n], and otherwise
    its timer is cleared and its promise fulfilled, for good. *)
Theorem running_fade_settles_in_any_history (k : FadeKind) (t : TimerId)
    (el : NodeId) (x c : float) (p : PromiseId) (d : float) (w : World)
    (cs : list Call) (n : nat) :
  well_formed w →
  intervals w !! t = Some (mkInterval (mkHandler k el x c p) d) →
  (∀ i : nat, (i < n)%nat → crossed k (tracked k (S i) x) c = false) →
  crossed k (tracked k (S n) x) c = true →
  ((firings t cs ≤ n)%nat →
   intervals (history cs w) !! t
   = Some (mkInterval (mkHandler k el (tracked k (firings t cs) x) c p) d)
   ∧ promises (history cs w) !! p = Some Pending)
  ∧ ((n < firings t cs)%nat →
     intervals (history cs w) !! t = None
     ∧ promises (history cs w) !! p = Some Fulfilled).
Proof.
  revert w x n. induction cs as [|call cs IH]; intros w x n Hw Ht Hno Hcross.
  - simpl. split; [|lia]. intros _. split; [done|]. apply (wf_owned w Hw t _ Ht).
  - change (history (call :: cs) w) with (history cs (after call w)).
    pose proof (well_formed_after call w Hw) as Hw'.
    pose proof (wf_timers w Hw t _ Ht) as Hbelow.
    assert (Hother : firings t (call :: cs) = firings t cs →
                     intervals (after call w) !! t = intervals w !! t →
                     ((firings t (call :: cs) ≤ n)%nat →
                      intervals (history cs (after call w)) !! t
                      = Some (mkInterval
                                (mkHandler k el (tracked k (firings t (call :: cs)) x) c p)
                                d)
                      ∧ promises (history cs (after call w)) !! p = Some Pending)
                     ∧ ((n < firings t (call :: cs))%nat →
                        intervals (history cs (after call w)) !! t = None
                        ∧ promises (history cs (after call w)) !! p = Some Fulfilled)).
    { intros -> Hsame. apply IH; [done| |done|done]. by rewrite Hsame. }
    destruct call as [k' element toOpacity delay|element|element|t'].
    + apply Hother; [done|]. by apply after_keeps_below.
    + apply Hother; [done|]. by apply after_keeps_below.
    + apply Hother; [done|]. by apply after_keeps_below.
    + destruct (Pos.eqb_spec t t') as [<-|Hne].
      2:{ apply Hother.
          - simpl. by destruct (Pos.eqb_spec t t').
          - simpl. by apply fire_interval_ne. }
      assert (Hcount : firings t (TimerFires t :: cs) = S (firings t cs))
        by (simpl; by rewrite Pos.eqb_refl).
      rewrite Hcount. simpl after. destruct n as [|n].
      * split; [lia|]. intros _.
        pose proof (fire_finish k t el x c p d w Ht Hcross) as Hfire.
        pose proof (wf_owned w Hw t _ Ht) as Hpending. simpl in Hpending.
        pose proof (wf_promises w Hw p _ Hpending) as Hp.
        destruct (fire_counters t w) as (_ & Hnt & Hnp).
        apply history_settled.
        -- by rewrite Hnt.
        -- by rewrite Hnp.
        -- rewrite Hfire. simpl. apply lookup_delete_eq.
        -- rewrite Hfire. simpl. rewrite lookup_alter_eq.
           apply fmap_Some. exists Pending. by split.
      * assert (Hfirst : crossed k (fade_step k x) c = false)
          by (apply (Hno 0%nat); lia).
        pose proof (fire_continue k t el x c p d w Ht Hfirst) as Hfire.
        assert (Ht' : intervals (fire t w) !! t
                      = Some (mkInterval (mkHandler k el (fade_step k x) c p) d)).
        { rewrite Hfire. simpl. by rewrite lookup_alter_eq, Ht. }
        destruct (IH (fire t w) (fade_step k x) n Hw' Ht') as [Hrun Hend].
        -- intros i Hi. rewrite <- tracked_succ_r. apply Hno. lia.
        -- by rewrite <- tracked_succ_r.
        -- split.
           ++ intros Hm. rewrite tracked_succ_r. apply Hrun. lia.
           ++ intros Hm. apply Hend. lia.
Qed.

End Histories.

(** X20 at an example: [fadeOut] on node 4 to 0.85; between its two
    ticks the node is shown, another fade is started, and that fade's
    timer fires. *)
Lemma running_fade_witness :
  let w := (@fadeOut SimpleHost.simple_host (AnElement 4%positive) (Some 0.85%float)
                     None demo_world).2 in
  well_formed w
  ∧ intervals w !! 1%positive
    = Some (mkInterval (mkHandler FadingOut 4%positive 1%float 0.85%float 1%positive)
                       50%float)
  ∧ promises
      (@history SimpleHost.simple_host
         [TimerFires 1%positive; CallShow (AnElement 4%positive);
          CallFade FadingIn (ASelector ".item") None None; TimerFires 2%positive;
          TimerFires 1%positive] w) !! 1%positive
    = Some Fulfilled.
Proof.
  intros w.
  assert (Hw : well_formed w).
  { apply (well_formed_started FadingOut 4%positive 0.85%float 50%float demo_world).
    by apply well_formed_fresh. }
  split; [exact Hw|]. split; [reflexivity|].
  assert (Hno : ∀ i : nat, (i < 1)%nat →
            crossed FadingOut (tracked FadingOut (S i) 1%float) 0.85%float = false).
  { intros i Hi. assert (i = 0%nat) as -> by lia. reflexivity. }
  destruct (@running_fade_settles_in_any_history SimpleHost.simple_host FadingOut
              1%positive 4%positive 1%float 0.85%float 1%positive 50%float w
              [TimerFires 1%positive; CallShow (AnElement 4%positive);
               CallFade FadingIn (ASelector ".item") None None; TimerFires 2%positive;
               TimerFires 1%positive]
              1%nat Hw eq_refl Hno eq_refl) as [_ Hend].
  exact (proj2 (Hend ltac:(simpl; lia))).
Defined.
